(** * A breadth-first web crawler (crawler.py): model and verified properties

    The development embeds the class [WebCrawler] of [crawler.py].
    Python strings are modelled as lists of 8-bit characters ([list ascii]);
    [str.lower] acts on the ASCII letters.  Python integers are [Z], Python
    sets are [gset], dictionaries are [gmap].  The network, the HTML parser
    and the robots.txt parser are an environment the crawler is run against. *)

From Stdlib Require Import ZArith QArith.QArith_base Ascii List Lia Bool.
From Stdlib Require String.
From stdpp Require Import gmap strings list sets sorting.

Local Open Scope Z_scope.
Local Open Scope nat_scope.

Abbreviation str := (list ascii).

(** A Python string literal. *)
Definition lit (s : string) : str := String.list_ascii_of_string s.

(** ** Python [str] methods used by the crawler *)
Module Str.

Definition is_upper (c : ascii) : bool :=
  let n := nat_of_ascii c in (65 <=? n) && (n <=? 90).

Definition is_lower (c : ascii) : bool :=
  let n := nat_of_ascii c in (97 <=? n) && (n <=? 122).

Definition is_alpha (c : ascii) : bool := is_upper c || is_lower c.

Definition is_digit (c : ascii) : bool :=
  let n := nat_of_ascii c in (48 <=? n) && (n <=? 57).

Definition lower_char (c : ascii) : ascii :=
  if is_upper c then ascii_of_nat (nat_of_ascii c + 32) else c.

(** [s.lower()] of an ASCII string; for what [str.lower] does beyond
    ASCII see [Wide.lower]. *)
Definition lower (s : str) : str := map lower_char s.

Definition eqc (a b : ascii) : bool := Ascii.eqb a b.

(** [c in s] for a one-character [c] *)
Definition has_char (c : ascii) (s : str) : bool := existsb (eqc c) s.

(** [s.startswith(p)] *)
Fixpoint startswith (p s : str) : bool :=
  match p, s with
  | [], _ => true
  | a :: p', b :: s' => eqc a b && startswith p' s'
  | _ :: _, [] => false
  end.

(** [s.endswith(p)] *)
Definition endswith (p s : str) : bool :=
  (length p <=? length s) && startswith p (drop (length s - length p) s).

(** [s.find(c)] for a one-character [c]; [None] stands for -1 *)
Fixpoint find (c : ascii) (s : str) : option nat :=
  match s with
  | [] => None
  | a :: s' => if eqc c a then Some 0 else S <$> find c s'
  end.

(** [s.find(c, start)] *)
Definition find_from (c : ascii) (s : str) (start : nat) : option nat :=
  (fun i => start + i) <$> find c (drop start s).

(** [s.rfind(c)] *)
Fixpoint rfind (c : ascii) (s : str) : option nat :=
  match s with
  | [] => None
  | a :: s' =>
      match rfind c s' with
      | Some i => Some (S i)
      | None => if eqc c a then Some 0 else None
      end
  end.

(** [s.split(c, 1)], used only under the guard [c in s] *)
Definition split1 (c : ascii) (s : str) : str * str :=
  match find c s with
  | Some i => (take i s, drop (S i) s)
  | None => (s, [])
  end.

(** [sub in s] *)
Fixpoint contains (sub s : str) : bool :=
  startswith sub s ||
  match s with
  | [] => false
  | _ :: s' => contains sub s'
  end.

(** The scan of [s.count(sub)] for a non-empty [sub]: [skip] characters of
    the last match are still to be passed over. *)
Fixpoint count_scan (sub s : str) (skip : nat) : nat :=
  match s with
  | [] => 0
  | _ :: s' =>
      match skip with
      | S k => count_scan sub s' k
      | 0 => if startswith sub s
             then S (count_scan sub s' (length sub - 1))
             else count_scan sub s' 0
      end
  end.

(** [s.count(sub)]: the empty string is found between all characters. *)
Definition count (sub s : str) : nat :=
  match sub with
  | [] => S (length s)
  | _ => count_scan sub s 0
  end.

End Str.

(** ** [urllib.parse]: the functions the crawler calls

    The splitting and joining algorithms of the standard library (as in
    CPython 3.9 to 3.11), on ASCII strings.  [None] stands for the
    [ValueError] that [urlsplit] raises on an unbalanced bracket in the
    network location; what stands between balanced brackets is not looked
    at. *)
Module UrlLib.
Import Str.

Record ParseResult := mkParseResult {
  scheme : str;
  netloc : str;
  path : str;
  params : str;
  query : str;
  fragment : str
}.

Definition uses_netloc : list str :=
  map lit [""; "ftp"; "http"; "gopher"; "nntp"; "telnet"; "imap"; "wais";
           "file"; "mms"; "https"; "shttp"; "snews"; "prospero"; "rtsp";
           "rtspu"; "rsync"; "svn"; "svn+ssh"; "sftp"; "nfs"; "git";
           "git+ssh"; "ws"; "wss"]%string.

Definition uses_params : list str :=
  map lit [""; "ftp"; "hdl"; "prospero"; "http"; "imap"; "https"; "shttp";
           "rtsp"; "rtspu"; "sip"; "sips"; "mms"; "sftp"; "tel"]%string.

Definition scheme_char (c : ascii) : bool :=
  is_alpha c || is_digit c || has_char c (lit "+-.").

(** The characters [urlsplit] strips from the left: C0 controls and space. *)
Definition is_c0_or_space (c : ascii) : bool := nat_of_ascii c <=? 32.

Fixpoint lstrip (s : str) : str :=
  match s with
  | c :: s' => if is_c0_or_space c then lstrip s' else s
  | [] => []
  end.

(** Tab, line feed and carriage return are removed everywhere. *)
Definition is_unsafe (c : ascii) : bool :=
  let n := nat_of_ascii c in (n =? 9) || (n =? 10) || (n =? 13).

Definition remove_unsafe (s : str) : str :=
  List.filter (fun c => negb (is_unsafe c)) s.

(** [_splitnetloc(url, start)]: the earliest of '/', '?', '#' ends the
    network location. *)
Definition _splitnetloc (url : str) (start : nat) : str * str :=
  let delim :=
    fold_left
      (fun delim c =>
         match find_from c url start with
         | Some wdelim => Nat.min delim wdelim
         | None => delim
         end)
      (lit "/?#") (length url) in
  (take (delim - start) (drop start url), drop delim url).

Definition bracket_mismatch (netloc : str) : bool :=
  (has_char "[" netloc && negb (has_char "]" netloc)) ||
  (has_char "]" netloc && negb (has_char "[" netloc)).

(** [urlsplit(url)], as a 5-tuple in a [ParseResult] with empty [params] *)
Definition urlsplit (url : str) : option ParseResult :=
  let url := remove_unsafe (lstrip url) in
  let '(scheme, url) :=
    match find ":" url with
    | Some i =>
        if (0 <? i) && is_alpha (hd "000"%char url)
           && forallb scheme_char (take i url)
        then (lower (take i url), drop (S i) url)
        else ([], url)
    | None => ([], url)
    end in
  let '(netloc, url) :=
    if startswith (lit "//") url then _splitnetloc url 2 else ([], url) in
  if bracket_mismatch netloc then None
  else
    let '(url, fragment) :=
      if has_char "#" url then split1 "#" url else (url, []) in
    let '(url, query) :=
      if has_char "?" url then split1 "?" url else (url, []) in
    Some (mkParseResult scheme netloc url [] query fragment).

(** [_splitparams(url)] *)
Definition _splitparams (url : str) : str * str :=
  if has_char "/" url then
    match rfind "/" url with
    | Some j =>
        match find_from ";" url j with
        | Some i => (take i url, drop (S i) url)
        | None => (url, [])
        end
    | None => (url, [])
    end
  else
    match find ";" url with
    | Some i => (take i url, drop (S i) url)
    | None => (take (length url - 1) url, url)
    end.

(** [urlparse(url)] *)
Definition urlparse (url : str) : option ParseResult :=
  match urlsplit url with
  | None => None
  | Some r =>
      if bool_decide (scheme r ∈ uses_params) && has_char ";" (path r)
      then
        let '(url, params) := _splitparams (path r) in
        Some (mkParseResult (scheme r) (netloc r) url params
                            (query r) (fragment r))
      else Some r
  end.

Definition nonempty (s : str) : bool :=
  match s with [] => false | _ => true end.

(** [urlunsplit((scheme, netloc, url, query, fragment))] *)
Definition urlunsplit (scheme netloc url query fragment : str) : str :=
  let url :=
    if nonempty netloc
       || (nonempty scheme && bool_decide (scheme ∈ uses_netloc)
           && negb (startswith (lit "//") url))
    then
      let url :=
        if nonempty url && negb (startswith (lit "/") url)
        then lit "/" ++ url else url in
      lit "//" ++ netloc ++ url
    else url in
  let url := if nonempty scheme then scheme ++ lit ":" ++ url else url in
  let url := if nonempty query then url ++ lit "?" ++ query else url in
  let url := if nonempty fragment then url ++ lit "#" ++ fragment else url in
  url.

(** [urlunparse((scheme, netloc, url, params, query, fragment))] *)
Definition urlunparse (scheme netloc url params query fragment : str) : str :=
  let url := if nonempty params then url ++ lit ";" ++ params else url in
  urlunsplit scheme netloc url query fragment.

End UrlLib.

(** ** The crawler *)
Module Crawler.
Import Str UrlLib.

(** *** The world outside the process *)

(** A [RobotFileParser] whose [read()] has returned: what is left of it is
    its [can_fetch(useragent, url)] method.  HTTP error statuses of the
    robots.txt request are handled inside [read()] and yield such an object
    too. *)
Record RobotFileParser := mkRobotFileParser {
  can_fetch : str -> str -> bool
}.

(** What [BeautifulSoup] and [requests] expose of a response. *)
Record Response := mkResponse {
  status_code : Z;
  content_type : str;          (* headers.get('content-type', '') *)
  content_len : nat;           (* len(response.content) *)
  html_title : str;            (* text of the first <title>, stripped *)
  html_description : str;      (* the meta description, stripped *)
  html_text : str;             (* soup.get_text() *)
  html_hrefs : list str        (* href of every <a href=...>, document order *)
}.

Inductive RequestException := Timeout | ConnectionError | OtherException.

Inductive GetOutcome :=
| Raised (e : RequestException)
| Returned (r : Response).

(** The answers of the world are fixed for the run: a function of the URL
    asked.  [Raised] stands for any exception between the request and the
    record; such a URL yields nothing. *)
Record Env := mkEnv {
  http_get : str -> GetOutcome;              (* session.get(url, timeout=10) *)
  robots_read : str -> option RobotFileParser; (* rp.read(); None: it raised *)
  urljoin : str -> str -> option str;        (* urllib.parse.urljoin *)
  strftime : str -> str                      (* clock reading when a page is recorded *)
}.

(** *** Data of the crawler *)

Record PageRecord := mkPageRecord {
  url : str;
  title : str;
  description : str;
  page_status_code : Z;
  content_length : nat;
  links_found : nat;
  word_matches : gmap str nat;
  timestamp : str
}.

(** The attributes [__init__] fixes for the lifetime of the object. *)
Record Config := mkConfig {
  start_url : str;
  max_depth : Z;
  delay : Q;
  max_pages : Z;
  respect_robots : bool;
  search_words : list str;
  start_domain : str;
  allowed_domains : gset str
}.

(** The attributes the methods mutate. *)
Record State := mkState {
  visited_urls : gset str;
  crawled_data : list PageRecord;
  robots_cache : gmap str RobotFileParser
}.

(** Observable actions, and ghost marks for the steps of the loop. *)
Inductive Event :=
| EvPop (u : str) (depth : Z)          (* crawl_queue.popleft() *)
| EvFetchPage (u : str) (depth : Z)    (* self._fetch_page(current_url) *)
| EvRobotsRead (robots_url : str)      (* rp.read() *)
| EvGate (u : str) (verdict : bool)    (* outcome of self._can_fetch(url) *)
| EvGet (u : str)                      (* self.session.get(url) *)
| EvSleep (d : Q).                     (* time.sleep(self.delay) *)

Definition user_agent : str := lit "WebCrawler/1.0 (+https://example.com/crawler)".

Definition has_scheme_prefix (u : str) : bool :=
  startswith (lit "http://") u || startswith (lit "https://") u.

Definition _normalize_url (u : str) : option str :=
  let u := if negb (has_scheme_prefix u) then lit "https://" ++ u else u in
  match urlparse u with
  | None => None
  | Some parsed =>
      Some (urlunparse (scheme parsed) (lower (netloc parsed)) (path parsed)
              (params parsed) (query parsed) [])
  end.

Definition skip_extensions : list str :=
  map lit [".pdf"; ".doc"; ".docx"; ".xls"; ".xlsx"; ".ppt"; ".pptx";
           ".zip"; ".tar"; ".gz"; ".rar"; ".exe"; ".dmg";
           ".jpg"; ".jpeg"; ".png"; ".gif"; ".bmp"; ".svg";
           ".mp3"; ".mp4"; ".avi"; ".mov"; ".wmv";
           ".css"; ".js"; ".xml"; ".rss"; ".json"]%string.

(** [__init__]; [None] when the seed cannot be parsed. *)
Definition __init__ (seed : str) (max_depth : Z) (delay : Q) (max_pages : Z)
    (respect_robots : bool) (allowed : option (list str))
    (words : option (list str)) : option Config :=
  match _normalize_url seed with
  | None => None
  | Some start =>
      match urlparse start with
      | None => None
      | Some parsed_start =>
          let dom := netloc parsed_start in
          Some (mkConfig start max_depth delay max_pages respect_robots
                  (match words with
                   | Some ws => map lower ws
                   | None => []
                   end)
                  dom
                  (match allowed with
                   | None => {[ dom ]}
                   | Some ds => list_to_set ds
                   end))
      end
  end.

Definition initial_state : State := mkState ∅ [] ∅.

Section Methods.
Variable env : Env.
Variable cfg : Config.

Definition _is_valid_url (u : str) : bool :=
  match urlparse u with
  | None => false
  | Some parsed =>
      if negb (bool_decide (scheme parsed ∈ [lit "http"; lit "https"]))
      then false
      else if negb (bool_decide (netloc parsed ∈ allowed_domains cfg))
      then false
      else
        let path := lower (path parsed) in
        negb (existsb (fun ext => endswith ext path) skip_extensions)
  end.

Definition _can_fetch (self : State) (u : str)
    : bool * State * list Event :=
  if negb (respect_robots cfg) then (true, self, [])
  else
    match urlparse u with
    | None => (true, self, [])
    | Some parsed =>
        let domain := netloc parsed in
        match robots_cache self !! domain with
        | Some rp => (can_fetch rp user_agent u, self, [])
        | None =>
            let robots_url :=
              scheme parsed ++ lit "://" ++ domain ++ lit "/robots.txt" in
            match robots_read env robots_url with
            | Some rp =>
                (can_fetch rp user_agent u,
                 mkState (visited_urls self) (crawled_data self)
                   (<[domain := rp]> (robots_cache self)),
                 [EvRobotsRead robots_url])
            | None => (true, self, [EvRobotsRead robots_url])
            end
        end
    end.

(** The loop of [_extract_links]; an exception ends it and keeps the
    links gathered so far. *)
Fixpoint extract_loop (base_url : str) (hrefs : list str)
    (links : gset str) : gset str :=
  match hrefs with
  | [] => links
  | href :: rest =>
      if nonempty href then
        match urljoin env base_url href with
        | None => links
        | Some absolute_url =>
            match _normalize_url absolute_url with
            | None => links
            | Some normalized_url =>
                extract_loop base_url rest
                  (if _is_valid_url normalized_url
                   then links ∪ {[ normalized_url ]}
                   else links)
            end
        end
      else extract_loop base_url rest links
  end.

Definition _extract_links (hrefs : list str) (base_url : str) : gset str :=
  extract_loop base_url hrefs ∅.

Definition _search_content (text_content : str) : gmap str nat :=
  if negb (match search_words cfg with [] => false | _ => true end)
  then ∅
  else
    let text_lower := lower text_content in
    fold_left (fun word_counts word =>
                 <[word := count word text_lower]> word_counts)
              (search_words cfg) ∅.

Definition raise_for_status (r : Response) : bool :=
  ((400 <=? status_code r) && (status_code r <? 600))%Z.

Definition _fetch_page (self : State) (u : str)
    : option (PageRecord * gset str) * State * list Event :=
  let '(allowed, self, ev) := _can_fetch self u in
  if negb allowed then (None, self, ev ++ [EvGate u false])
  else
    let ev := ev ++ [EvGate u true; EvGet u] in
    match http_get env u with
    | Raised _ => (None, self, ev)
    | Returned response =>
        if raise_for_status response then (None, self, ev)
        else if negb (contains (lit "text/html")
                        (lower (content_type response)))
        then (None, self, ev)
        else
          let word_counts := _search_content (html_text response) in
          let links := _extract_links (html_hrefs response) u in
          (Some (mkPageRecord u (html_title response)
                   (html_description response) (status_code response)
                   (content_len response) (size links) word_counts
                   (strftime env u),
                 links),
           self, ev)
    end.

(** The local variables of [crawl], the object, and the trace so far. *)
Record Loop := mkLoop {
  self_ : State;
  crawl_queue : list (str * Z);
  pages_crawled : Z;
  trace : list Event
}.

(** The test of the [while]. *)
Definition loop_cond (l : Loop) : bool :=
  match crawl_queue l with [] => false | _ => true end
  && (pages_crawled l <? max_pages cfg)%Z.

(** The [for link in result['links']] loop that grows the queue. *)
Definition enqueue_links (visited : gset str) (depth : Z)
    (links : gset str) (queue : list (str * Z)) : list (str * Z) :=
  queue ++
    ((fun link => (link, (depth + 1)%Z)) <$>
       filter (fun link => link ∉ visited) (elements links)).

(** [if crawl_queue: time.sleep(self.delay)]: the call is recorded.  For
    a delay it does not accept [time.sleep] raises and [crawl()] ends there
    without a result: [Domain.crawl_ending] reads that end off the recorded
    sleeps, and what is said of [crawl()] returning is said for a delay
    [time.sleep] accepts ([Domain.sleep_accepts]). *)
Definition rate_limit (queue : list (str * Z)) : list Event :=
  match queue with
  | [] => []
  | _ => [EvSleep (delay cfg)]
  end.

(** One pass through the body of the [while]; the events it emits are
    returned apart. *)
Definition loop_body (l : Loop) : Loop * list Event :=
  match crawl_queue l with
  | [] => (l, [])
  | (current_url, depth) :: queue =>
      let self := self_ l in
      if bool_decide (current_url ∈ visited_urls self) then
        (mkLoop self queue (pages_crawled l) (trace l),
         [EvPop current_url depth])
      else if (depth >? max_depth cfg)%Z then
        (mkLoop self queue (pages_crawled l) (trace l),
         [EvPop current_url depth])
      else
        let self :=
          mkState (visited_urls self ∪ {[ current_url ]})
            (crawled_data self) (robots_cache self) in
        let '(result, self, ev) := _fetch_page self current_url in
        let '(self, queue, pages) :=
          match result with
          | Some (data, links) =>
              (mkState (visited_urls self) (crawled_data self ++ [data])
                 (robots_cache self),
               if (depth <? max_depth cfg)%Z
               then enqueue_links (visited_urls self) depth links queue
               else queue,
               (pages_crawled l + 1)%Z)
          | None => (self, queue, pages_crawled l)
          end in
        (mkLoop self queue pages (trace l),
         [EvPop current_url depth; EvFetchPage current_url depth] ++ ev ++
         rate_limit queue)
  end.

Definition crawl_iteration (l : Loop) : Loop :=
  let '(l', ev) := loop_body l in
  mkLoop (self_ l') (crawl_queue l') (pages_crawled l') (trace l' ++ ev).

(** The [while] loop, run for at most [fuel] iterations. *)
Fixpoint crawl_loop (fuel : nat) (l : Loop) : Loop :=
  match fuel with
  | 0 => l
  | S n => if loop_cond l then crawl_loop n (crawl_iteration l) else l
  end.

Definition crawl_start (self : State) : Loop :=
  mkLoop self [(start_url cfg, 0%Z)] 0%Z [].

(** [crawl()] on a fresh object; [None]: the fuel did not suffice. *)
Definition crawl (fuel : nat) : option (list PageRecord) :=
  let l := crawl_loop fuel (crawl_start initial_state) in
  if loop_cond l then None else Some (crawled_data (self_ l)).

End Methods.

End Crawler.

(** ** Projections of a trace *)
Module Trace.
Import Crawler.

(** The pairs popped from the queue, in order. *)
Definition pops (t : list Event) : list (str * Z) :=
  omap (fun e => match e with EvPop u d => Some (u, d) | _ => None end) t.

(** The invocations of [_fetch_page], with the depth of the entry. *)
Definition fetch_calls (t : list Event) : list (str * Z) :=
  omap (fun e => match e with EvFetchPage u d => Some (u, d) | _ => None end) t.

(** The URLs requested with [session.get]. *)
Definition gets (t : list Event) : list str :=
  omap (fun e => match e with EvGet u => Some u | _ => None end) t.

(** The verdicts of the robots gate, with the URL asked about. *)
Definition gates (t : list Event) : list (str * bool) :=
  omap (fun e => match e with EvGate u b => Some (u, b) | _ => None end) t.

(** The calls of [time.sleep]. *)
Definition sleeps (t : list Event) : list Q :=
  omap (fun e => match e with EvSleep d => Some d | _ => None end) t.

(** The run of [crawl()] on a fresh object, cut after [fuel] iterations. *)
Definition crawl_run (env : Env) (cfg : Config) (fuel : nat) : Loop :=
  crawl_loop env cfg fuel (crawl_start cfg initial_state).

Definition results (l : Loop) : list PageRecord := crawled_data (self_ l).

(** The response to a GET of [u] is one [_fetch_page] turns into a record. *)
Definition page_ok (env : Env) (u : str) (r : Response) : Prop :=
  http_get env u = Returned r ∧
  raise_for_status r = false ∧
  Str.contains (lit "text/html") (Str.lower (content_type r)) = true.

(** The record [_fetch_page] builds from such a response. *)
Definition record_of (env : Env) (cfg : Config) (u : str) (r : Response)
    : PageRecord :=
  mkPageRecord u (html_title r) (html_description r) (status_code r)
    (content_len r) (size (_extract_links env cfg (html_hrefs r) u))
    (_search_content cfg (html_text r)) (strftime env u).

End Trace.

(** ** The Scope Filter in the words of the spec *)
Module ScopeSpec.
Import Crawler.

(** [s] ends with [suffix]. *)
Definition ends_with (suffix s : str) : Prop := ∃ pre, s = pre ++ suffix.

(** The scheme is http or https, the host is one of the allowed domains,
    and the path does not end with an excluded extension. *)
Definition in_scope (cfg : Config) (u : str) : Prop :=
  ∃ parsed,
    UrlLib.urlparse u = Some parsed ∧
    (UrlLib.scheme parsed = lit "http" ∨ UrlLib.scheme parsed = lit "https") ∧
    UrlLib.netloc parsed ∈ allowed_domains cfg ∧
    ∀ ext, ext ∈ skip_extensions ->
           ¬ ends_with ext (Str.lower (UrlLib.path parsed)).

End ScopeSpec.

(** ** Invariants of the crawl loop *)
Module Invariants.
Import Crawler Trace.

Section Inv.
Context (env : Env) (cfg : Config).

(** Bookkeeping: counters, the visited set, the results and the trace
    agree with each other. *)
Record basic (l : Loop) : Prop := mkBasic {
  b_pages : pages_crawled l = Z.of_nat (length (results l));
  b_budget : (pages_crawled l <= max_pages cfg ∨ pages_crawled l = 0)%Z;
  b_visited : ∀ u, u ∈ visited_urls (self_ l) <->
                   u ∈ (fetch_calls (trace l)).*1;
  b_calls : NoDup (fetch_calls (trace l)).*1;
  b_gates : (gates (trace l)).*1 = (fetch_calls (trace l)).*1;
  b_gets : gets (trace l) `sublist_of` (fetch_calls (trace l)).*1;
  b_results : url <$> results l `sublist_of` gets (trace l);
  b_gate : ∀ r, r ∈ results l -> (url r, true) ∈ gates (trace l);
  b_depth : ∀ u d, (u, d) ∈ fetch_calls (trace l) ->
                   (0 <= d <= max_depth cfg)%Z;
  b_queue_depth : ∀ u d, (u, d) ∈ crawl_queue l -> (0 <= d)%Z;
  b_scope_queue : ∀ u d, (u, d) ∈ crawl_queue l ->
                         u = start_url cfg ∨ _is_valid_url cfg u = true;
  b_scope : ∀ r, r ∈ results l ->
                 url r = start_url cfg ∨ _is_valid_url cfg (url r) = true;
  b_words : ∀ r, r ∈ results l ->
                 dom (word_matches r) = list_to_set (search_words cfg)
}.

(** Breadth-first order: the depths popped so far never decrease and
    stay below [k]; the queue is sorted and holds depths [k] and
    [k + 1] only. *)
Record bfs (k : Z) (l : Loop) : Prop := mkBfs {
  f_pops : StronglySorted Z.le (pops (trace l)).*2;
  f_below : Forall (fun d => (d <= k)%Z) (pops (trace l)).*2;
  f_calls : fetch_calls (trace l) `sublist_of` pops (trace l);
  f_queue : StronglySorted Z.le (crawl_queue l).*2;
  f_band : Forall (fun d => (k <= d <= k + 1)%Z) (crawl_queue l).*2
}.

End Inv.
End Invariants.

(** ** What the spec calls a non-overlapping occurrence count

    Written from the words of the spec, to be compared with [Str.count]. *)
Module CountSpec.

(** [w] occurs in [s] at index [i]. *)
Definition occurs (w s : str) (i : nat) : Prop :=
  ∃ pre post, s = pre ++ w ++ post ∧ length pre = i.

(** [w] occurs in [s] at index [i] up to letter case. *)
Definition occurs_ci (w s : str) (i : nat) : Prop :=
  ∃ pre mid post,
    s = pre ++ mid ++ post ∧ length pre = i ∧ Str.lower mid = Str.lower w.

(** The indices [ps] increase, start at [lo] or later, satisfy [occ], and
    two consecutive ones are at least [step] apart. *)
Fixpoint separated (occ : nat -> Prop) (step lo : nat) (ps : list nat) : Prop :=
  match ps with
  | [] => True
  | p :: ps' => lo <= p ∧ occ p ∧ separated occ step (p + step) ps'
  end.

(** Occurrences of [w] do not overlap when they are [length w] apart; the
    empty string occurs once at every index. *)
Definition stride (w : str) : nat := Nat.max 1 (length w).

(** [k] is the largest number of pairwise non-overlapping indices
    satisfying [occ]. *)
Definition max_separated (occ : nat -> Prop) (step k : nat) : Prop :=
  (∃ ps, separated occ step 0 ps ∧ length ps = k) ∧
  (∀ ps, separated occ step 0 ps -> length ps <= k).

Definition nonoverlapping_count (w s : str) (k : nat) : Prop :=
  max_separated (occurs w s) (stride w) k.

Definition nonoverlapping_count_ci (w s : str) (k : nat) : Prop :=
  max_separated (occurs_ci w s) (stride w) k.

End CountSpec.

(** ** Small webs to run the crawler on *)
Module Scenarios.
Import Crawler Trace.

(** A served page: 200, text/html, the given text and anchors. *)
Definition html (text : string) (hrefs : list string) : Response :=
  mkResponse 200 (lit "text/html; charset=utf-8") 0 (lit "") (lit "")
    (lit text) (lit <$> hrefs).

Fixpoint lookup_page (pages : list (string * Response)) (u : str)
    : GetOutcome :=
  match pages with
  | [] => Raised ConnectionError
  | (k, r) :: rest =>
      if bool_decide (lit k = u) then Returned r else lookup_page rest u
  end.

(** A web of [pages]; every other URL refuses the connection; [robots] is
    the list of URLs robots.txt disallows, or [None] when reading
    robots.txt raises; hrefs are absolute already. *)
Definition web (pages : list (string * Response))
    (robots : option (list string)) : Env :=
  mkEnv (lookup_page pages)
    (fun _ =>
       match robots with
       | None => None
       | Some denied =>
           Some (mkRobotFileParser
                   (fun _ u => negb (bool_decide (u ∈ (lit <$> denied)))))
       end)
    (fun _ href => Some href)
    (fun _ => lit "2024-01-01 00:00:00").

Definition config (seed : string) (depth pages : Z) (robots : bool)
    (allowed : option (list string)) (words : option (list string))
    : Config :=
  default (mkConfig [] 0 0 0 false [] [] ∅)
    (__init__ (lit seed) depth 0 pages robots
       (option_map (map lit) allowed) (option_map (map lit) words)).

(** Two parents that link to the same two children. *)
Definition diamond : Env :=
  web [("https://example.com", html "" ["https://example.com/a"; "https://example.com/b"]);
       ("https://example.com/a", html "" ["https://example.com/c"; "https://example.com/d"]);
       ("https://example.com/b", html "" ["https://example.com/c"; "https://example.com/d"]);
       ("https://example.com/c", html "" []);
       ("https://example.com/d", html "" [])]%string None.

Definition diamond_cfg : Config :=
  config "example.com" 2 10 false None None.

(** The seed links to a page robots.txt disallows and to a page whose two
    links cannot be fetched. *)
Definition budget_web : Env :=
  web [("https://example.com", html "" ["https://example.com/a"; "https://example.com/p"]);
       ("https://example.com/a", html "" []);
       ("https://example.com/p", html "" ["https://example.com/b"; "https://example.com/c"])]%string
      (Some ["https://example.com/a"]%string).

Definition budget_cfg (respect_robots : bool) : Config :=
  config "example.com" 2 3 respect_robots None None.

(** A seed outside the allowed domains. *)
Definition offsite_web : Env :=
  web [("https://example.com", html "" ["https://www.example.com/"]);
       ("https://www.example.com/", html "Cat cat CATs" [])]%string None.

Definition offsite_cfg : Config :=
  config "example.com" 2 10 true (Some ["www.example.com"]%string)
    (Some ["Cat"]%string).

(** A page budget below zero. *)
Definition negative_budget_cfg : Config :=
  config "example.com" 2 (-1) false None None.

End Scenarios.

(** ** The shape of a URL behind its scheme prefix *)
Module UrlShape.
Import Str UrlLib.

(** The longest prefix of [s] free of [P], and what follows it. *)
Fixpoint break (P : ascii -> bool) (s : str) : str * str :=
  match s with
  | [] => ([], [])
  | c :: s' =>
      if P c then ([], s)
      else let '(a, b) := break P s' in (c :: a, b)
  end.

(** What is before and what is after the first [c] of [s]. *)
Definition cut (c : ascii) (s : str) : str * str :=
  let '(a, b) := break (eqc c) s in (a, drop 1 b).

Definition is_delim (c : ascii) : bool := eqc "/" c || eqc "?" c || eqc "#" c.

(** [d] followed by [x], or nothing when [x] is empty. *)
Definition opt (d : ascii) (x : str) : str :=
  match x with [] => [] | _ => d :: x end.

(** What [urlsplit] makes of the text [B] that follows "scheme://". *)
Definition split_body (sch B : str) : option ParseResult :=
  let '(netloc, rest) := break is_delim B in
  if bracket_mismatch netloc then None
  else
    let '(rest, fragment) := cut "#" rest in
    let '(path, query) := cut "?" rest in
    Some (mkParseResult sch netloc path [] query fragment).

(** What [_normalize_url] returns for "scheme://" followed by [body]. *)
Definition normalize_body (sch body : str) : option str :=
  match split_body sch (remove_unsafe body) with
  | None => None
  | Some r =>
      let '(p, prm) :=
        if has_char ";" (path r) then _splitparams (path r) else (path r, []) in
      Some (urlunparse sch (lower (netloc r)) p prm (query r) [])
  end.

(** No character of [s] satisfies [P]. *)
Definition free_of (P : ascii -> bool) (s : str) : bool :=
  forallb (fun c => negb (P c)) s.

(** [s] is empty or begins with a character satisfying [P]. *)
Definition headed_by (P : ascii -> bool) (s : str) : bool :=
  match s with [] => true | c :: _ => P c end.







End UrlShape.

(** ** Two crawls that differ in robots respect only *)
Module Compare.
Import Crawler Trace.

Definition with_robots (b : bool) (cfg : Config) : Config :=
  mkConfig (start_url cfg) (max_depth cfg) (delay cfg) (max_pages cfg) b
    (search_words cfg) (start_domain cfg) (allowed_domains cfg).

(** Every link of a page fetched above the depth limit has been handed to
    the fetcher, no deeper than one level below the page, or waits in the
    queue one level below it. *)
Definition closure (env : Env) (cfg : Config) (l : Loop) : Prop :=
  ∀ u d r v,
    (u, d) ∈ fetch_calls (trace l) -> (d < max_depth cfg)%Z ->
    page_ok env u r -> v ∈ _extract_links env cfg (html_hrefs r) u ->
    (∃ d', (v, d') ∈ fetch_calls (trace l) ∧ (d' <= d + 1)%Z) ∨
    (v, (d + 1)%Z) ∈ crawl_queue l.

(** [u] was handed to the fetcher in the run [l], at depth [d] or above. *)
Definition covered (l : Loop) (u : str) (d : Z) : Prop :=
  ∃ d', (u, d') ∈ fetch_calls (trace l) ∧ (d' <= d)%Z.

(** Everything the run [l] fetched or still may fetch is covered by the
    run [final]. *)
Definition dominated (cfg : Config) (final l : Loop) : Prop :=
  (∀ u d, (u, d) ∈ fetch_calls (trace l) -> covered final u d) ∧
  ((0 < max_pages cfg)%Z ->
   ∀ u d, (u, d) ∈ crawl_queue l -> (d <= max_depth cfg)%Z ->
          covered final u d).

End Compare.

(** ** Further projections of a trace *)
Module Observations.
Import Crawler Trace.

(** The robots.txt URLs read with [rp.read()], in order. *)
Definition robots_fetches (t : list Event) : list str :=
  omap (fun e => match e with EvRobotsRead r => Some r | _ => None end) t.

(** The events of the robots gate and of the request in [_fetch_page]. *)
Definition gate_events (u : str) (b : bool) : list Event :=
  if b then [EvGate u true; EvGet u] else [EvGate u false].

End Observations.

(** ** Further crawls *)
Module Crawls.
Import Crawler Trace Scenarios.

(** The diamond, crawled to depth 0. *)
Definition seed_only_cfg : Config :=
  config "example.com" 0 10 false None None.

(** A maximum depth below zero. *)
Definition negative_depth_cfg : Config :=
  config "example.com" (-1) 10 false None None.

(** A budget of one page. *)
Definition one_page_cfg : Config :=
  config "example.com" 2 1 false None None.

(** Robots respect enabled; on the diamond reading robots.txt raises. *)
Definition polite_cfg : Config :=
  config "example.com" 2 10 true None None.

End Crawls.

(** ** Path and params *)
Module PathParams.
Import Str UrlLib.

(** The split [urlparse] applies to the path of an http or https URL. *)
Definition psplit_of (P0 : str) : str * str :=
  if has_char ";" P0 then _splitparams P0 else (P0, []).

(** The join [urlunparse] applies to path and params. *)
Definition pjoin_of (p prm : str) : str :=
  if nonempty prm then p ++ lit ";" ++ prm else p.

End PathParams.

(** ** The command line (main.py) *)
Module Main.
Import Str UrlLib Crawler.

(** The ASCII characters [str.strip()] removes: tab to carriage return,
    the four separators, and space. *)
Definition is_space (c : ascii) : bool :=
  let n := nat_of_ascii c in
  ((9 <=? n) && (n <=? 13)) || ((28 <=? n) && (n <=? 32)).

Fixpoint lstrip_space (s : str) : str :=
  match s with
  | c :: s' => if is_space c then lstrip_space s' else s
  | [] => []
  end.

Definition rstrip_space (s : str) : str := rev (lstrip_space (rev s)).

(** [s.strip()] *)
Definition strip (s : str) : str := rstrip_space (lstrip_space s).

(** Empty, or the first and the last character are no white space. *)
Definition trimmed_ends (w : str) : Prop :=
  UrlShape.headed_by (fun c => negb (is_space c)) w = true ∧
  UrlShape.headed_by (fun c => negb (is_space c)) (rev w) = true.

(** [s.split(c)] for a one-character separator [c] *)
Fixpoint split (c : ascii) (s : str) : list str :=
  match s with
  | [] => [[]]
  | a :: s' =>
      if eqc c a then [] :: split c s'
      else
        match split c s' with
        | w :: ws => (a :: w) :: ws
        | [] => [[a]]
        end
  end.

(** [sep.join(ws)] *)
Fixpoint join (sep : str) (ws : list str) : str :=
  match ws with
  | [] => []
  | [w] => w
  | w :: ws' => w ++ sep ++ join sep ws'
  end.

(** [[x.strip() for x in s.split(',')]] *)
Definition comma_list (s : str) : list str := map strip (split "," s).

(** [validate_url(url)] *)
Definition validate_url (u : str) : bool :=
  if negb (nonempty u) then false
  else
    let u := if negb (has_scheme_prefix u) then lit "https://" ++ u else u in
    match urlparse u with
    | None => false
    | Some result => nonempty (scheme result) && nonempty (netloc result)
    end.

(** What [parse_arguments] returns, as far as the crawler is concerned. *)
Record Args := mkArgs {
  arg_url : str;
  arg_depth : Z;
  arg_delay : Q;
  arg_max_pages : Z;
  arg_domains : option str;
  arg_no_robots : bool;
  arg_search : option str
}.

(** [if args.x: [... for ... in args.x.split(',')]], else [None] *)
Definition optional_list (x : option str) : option (list str) :=
  match x with
  | Some s => if nonempty s then Some (comma_list s) else None
  | None => None
  end.

(** The crawler [main] builds; [None]: [main] leaves with status 1 before
    it crawls, because the URL is not valid or the constructor raised. *)
Definition main_crawler (args : Args) : option Config :=
  if negb (validate_url (arg_url args)) then None
  else
    __init__ (arg_url args) (arg_depth args) (arg_delay args)
      (arg_max_pages args) (negb (arg_no_robots args))
      (optional_list (arg_domains args)) (optional_list (arg_search args)).

End Main.

(** ** The web front end (app.py) *)
Module WebApp.
Import Str UrlLib Crawler Main.

(** The fields of the JSON body of [/api/crawl], defaults applied and
    numbers converted. *)
Record CrawlRequest := mkCrawlRequest {
  rq_url : str;
  rq_searchType : str;
  rq_searchWords : str;
  rq_depth : Z;
  rq_maxPages : Z;
  rq_delay : Q;
  rq_domains : str;
  rq_respectRobots : bool
}.

(** The arguments [start_crawl] hands to [run_crawler]. *)
Record Job := mkJob {
  job_url : str;
  job_depth : Z;
  job_max_pages : Z;
  job_delay : Q;
  job_respect_robots : bool;
  job_allowed_domains : option (list str);
  job_search_words : option (list str);
  job_search_type : str
}.

Definition wants_text (search_type : str) : bool :=
  bool_decide (search_type ∈ [lit "text"; lit "both"]).

Definition wants_links (search_type : str) : bool :=
  bool_decide (search_type ∈ [lit "links"; lit "both"]).

(** [start_crawl]; [None]: the answer is 400, no job is started. *)
Definition start_crawl (rq : CrawlRequest) : option Job :=
  let url := strip (rq_url rq) in
  let search_type := rq_searchType rq in
  let search_words := strip (rq_searchWords rq) in
  let domains := strip (rq_domains rq) in
  if negb (nonempty url) then None
  else
    let allowed_domains :=
      if nonempty domains then Some (comma_list domains) else None in
    let search_word_list :=
      if nonempty search_words && wants_text search_type
      then Some (comma_list search_words) else None in
    Some (mkJob url (rq_depth rq) (rq_maxPages rq) (rq_delay rq)
            (rq_respectRobots rq) allowed_domains search_word_list
            search_type).

(** A processed page: a dictionary whose last three keys may be absent. *)
Record PageResult := mkPageResult {
  res_url : str;
  res_title : str;
  res_description : str;
  res_status_code : Z;
  res_content_length : nat;
  res_timestamp : str;
  res_links_found : option nat;
  res_word_matches : option (gmap str nat);
  res_total_word_matches : option nat
}.

(** [sum(d.values())] *)
Definition sum_values (d : gmap str nat) : nat :=
  map_fold (fun _ v acc => v + acc) 0 d.

(** The body of the loop over the results in [run_crawler]. *)
Definition process_page (search_type : str) (page : PageRecord)
    : PageResult :=
  let with_words :=
    wants_text search_type && negb (bool_decide (word_matches page = ∅)) in
  mkPageResult (url page) (title page) (description page)
    (page_status_code page) (content_length page) (timestamp page)
    (if wants_links search_type then Some (links_found page) else None)
    (if with_words then Some (word_matches page) else None)
    (if with_words then Some (sum_values (word_matches page)) else None).

(** How a job ends: with an error, or with the processed results and the
    two counts of the summary. *)
Inductive Outcome :=
| JobError
| JobCompleted (results : list PageResult) (total_pages : nat)
    (total_urls_discovered : nat).

(** [run_crawler]; [None]: the fuel did not suffice. *)
Definition run_crawler (env : Env) (fuel : nat) (job : Job)
    : option Outcome :=
  match __init__ (job_url job) (job_depth job) (job_delay job)
          (job_max_pages job) (job_respect_robots job)
          (job_allowed_domains job) (job_search_words job) with
  | None => Some JobError
  | Some cfg =>
      let l := crawl_loop env cfg fuel (crawl_start cfg initial_state) in
      if loop_cond cfg l then None
      else
        let processed_results :=
          map (process_page (job_search_type job)) (crawled_data (self_ l)) in
        Some (JobCompleted processed_results (length processed_results)
                (size (visited_urls (self_ l))))
  end.

End WebApp.

(** ** Further inputs *)
Module Inputs.
Import Crawler Scenarios Main WebApp.

(** A command line with two allowed domains and two search terms. *)
Definition sample_args : Args :=
  mkArgs (lit "Example.com/start") 1 1 5
    (Some (lit "example.com, blog.example.com")) true
    (Some (lit "Cat,  dog ")).

(** A request for a text search on the off-site web. *)
Definition sample_request : CrawlRequest :=
  mkCrawlRequest (lit " example.com ") (lit "text") (lit "Cat, cats")
    2 10 0 (lit "www.example.com") false.

(** The job [start_crawl] makes of it. *)
Definition sample_job : Job :=
  default (mkJob [] 0 0 0 false None None []) (start_crawl sample_request).

End Inputs.

(** ** Where the model is the code

    The strings of the model are ASCII strings, and [Str.lower] is what
    [str.lower] does on them.  The delay is a number [time.sleep] takes. *)
Module Domain.
Import Str Crawler.

(** Every character of [s] is an ASCII character. *)
Definition is_ascii (s : str) : bool :=
  forallb (fun c => nat_of_ascii c <? 128) s.

(** [time.sleep(d)] returns when [d] is not negative and not beyond the
    range of the clock; it raises [ValueError] for a negative [d] and
    [OverflowError] for one too large, and with it [crawl()] ends without a
    result.  A million seconds is within the range of every clock. *)
Definition sleep_accepts (d : Q) : Prop := (0 <= d)%Q ∧ (d <= 1000000)%Q.

(** [time.sleep(d)] raises. *)
Definition sleep_raises (d : Q) : bool :=
  negb (Qle_bool 0 d && Qle_bool d 1000000).

(** How [crawl()] ends: it returns [self.crawled_data], or the exception of
    [time.sleep] leaves it. *)
Inductive Ending :=
| Returns (rs : list PageRecord)
| Raises.

(** [crawl()] on a fresh object, with the exception of [time.sleep].
    Nothing in [crawl()] catches it, so the first sleep of a delay that
    [time.sleep] does not take ends the crawl; up to that sleep the run is
    the one the loop describes.  [None]: the fuel did not suffice. *)
Definition crawl_ending (env : Env) (cfg : Config) (fuel : nat)
    : option Ending :=
  let l := crawl_loop env cfg fuel (crawl_start cfg initial_state) in
  if sleep_raises (delay cfg)
     && match Trace.sleeps (trace l) with [] => false | _ => true end
  then Some Raises
  else if loop_cond cfg l then None
  else Some (Returns (crawled_data (self_ l))).


End Domain.

(** ** The content search on text beyond ASCII

    Strings as sequences of code points.  Of [str.lower] the module has the
    letters its lemmas are about: the ASCII letters and the Greek letters
    alpha to omega; on strings of these letters, digits and spaces it is
    what Python does.  A capital sigma that follows a letter and is not
    followed by one becomes the final sigma, the rule that keeps
    [str.lower] from acting letter by letter. *)
Module Wide.

Definition ustr : Type := list N.

(** A letter with a lower and an upper case. *)
Definition is_cased (c : N) : bool :=
  ((65 <=? c) && (c <=? 90) || (97 <=? c) && (c <=? 122) ||
   (913 <=? c) && (c <=? 937) && negb (c =? 930) ||
   (945 <=? c) && (c <=? 969))%N.

(** The lower case of one code point, out of context. *)
Definition lower_point (c : N) : N :=
  (if (65 <=? c) && (c <=? 90) then c + 32
   else if (913 <=? c) && (c <=? 937) && negb (c =? 930) then c + 32
   else c)%N.

(** [s.lower()], with [after_cased] telling whether a letter precedes;
    931 is the capital sigma, 962 the final sigma. *)
Fixpoint lower_after (after_cased : bool) (s : ustr) : ustr :=
  match s with
  | [] => []
  | c :: s' =>
      let before_cased :=
        match s' with d :: _ => is_cased d | [] => false end in
      (if (c =? 931)%N && after_cased && negb before_cased
       then 962%N else lower_point c)
      :: lower_after (is_cased c) s'
  end.

Definition lower (s : ustr) : ustr := lower_after false s.

(** [s.startswith(p)] *)
Fixpoint startswith (p s : ustr) : bool :=
  match p, s with
  | [], _ => true
  | a :: p', b :: s' => (a =? b)%N && startswith p' s'
  | _ :: _, [] => false
  end.

(** The scan of [s.count(sub)], as in [Str.count_scan]. *)
Fixpoint count_scan (sub s : ustr) (skip : nat) : nat :=
  match s with
  | [] => 0
  | _ :: s' =>
      match skip with
      | S k => count_scan sub s' k
      | 0 => if startswith sub s
             then S (count_scan sub s' (length sub - 1))
             else count_scan sub s' 0
      end
  end.

(** [s.count(sub)] *)
Definition count (sub s : ustr) : nat :=
  match sub with
  | [] => S (length s)
  | _ => count_scan sub s 0
  end.

(** [self.search_words], as [__init__] sets it from the terms given. *)
Definition search_words_of (terms : list ustr) : list ustr := map lower terms.

(** [_search_content] *)
Definition _search_content (search_words : list ustr) (text_content : ustr)
    : gmap ustr nat :=
  if negb (match search_words with [] => false | _ => true end)
  then ∅
  else
    let text_lower := lower text_content in
    fold_left (fun word_counts word =>
                 <[word := count word text_lower]> word_counts)
              search_words ∅.

End Wide.

(** * Properties *)

(** ** Strings *)
Module StrFacts.
Import Str CountSpec.

Lemma eqc_true a b : eqc a b = true <-> a = b.
Proof. apply Ascii.eqb_eq. Qed.

Lemma eqc_refl a : eqc a a = true.
Proof. by apply eqc_true. Qed.

Lemma startswith_app p s : startswith p s = true <-> ∃ t, s = p ++ t.
Proof.
  revert s. induction p as [|a p IH]; intros s; simpl.
  - split; eauto.
  - destruct s as [|b s].
    + split; [done | intros [t Ht]; discriminate].
    + rewrite andb_true_iff, eqc_true, IH. split.
      * intros [-> [t ->]]. by exists t.
      * intros [t Ht]. injection Ht as -> ->. eauto.
Qed.


Lemma lower_app a b : lower (a ++ b) = lower a ++ lower b.
Proof. apply map_app. Qed.

Lemma lower_length s : length (lower s) = length s.
Proof. apply length_map. Qed.

Lemma lower_char_idem c : lower_char (lower_char c) = lower_char c.
Proof.
  destruct c as [[] [] [] [] [] [] [] []]; reflexivity.
Qed.

Lemma lower_idem s : lower (lower s) = lower s.
Proof.
  unfold lower. rewrite map_map. apply map_ext. apply lower_char_idem.
Qed.

Lemma occurs_0 w s : occurs w s 0 <-> startswith w s = true.
Proof.
  rewrite startswith_app. split.
  - intros (pre & post & -> & Hl). destruct pre; [|done]. eauto.
  - intros [t ->]. by exists [], t.
Qed.

Lemma occurs_S w c s i : occurs w (c :: s) (S i) <-> occurs w s i.
Proof.
  split.
  - intros (pre & post & H & Hl). destruct pre as [|c' pre]; [done|].
    simpl in *. injection H as -> ->. exists pre, post. split; [done | lia].
  - intros (pre & post & -> & Hl). exists (c :: pre), post.
    split; [done | simpl; lia].
Qed.

Lemma occurs_bound w s i : occurs w s i -> i + length w <= length s.
Proof.
  intros (pre & post & -> & <-). rewrite !length_app. lia.
Qed.

(** An occurrence in the lower-cased text is an occurrence up to case. *)
Lemma occurs_lower w s i :
  occurs (lower w) (lower s) i <-> occurs_ci w s i.
Proof.
  split.
  - intros (pre & post & H & Hl).
    unfold lower in H.
    apply map_eq_app in H as (pre0 & r0 & -> & Hp & Hr).
    apply map_eq_app in Hr as (mid0 & post0 & -> & Hm & Hq).
    exists pre0, mid0, post0. split; [done|]. split; [|done].
    rewrite <- Hl, <- Hp. by rewrite length_map.
  - intros (pre & mid & post & -> & Hl & Hm).
    exists (lower pre), (lower post). rewrite !lower_app, Hm.
    split; [done|]. by rewrite lower_length.
Qed.

Section Separated.
Variable w : str.
Variable step : nat.

Lemma separated_weaken occ lo lo' ps :
  lo' <= lo -> separated occ step lo ps -> separated occ step lo' ps.
Proof.
  destruct ps as [|p ps]; simpl; [done|]. intros Hle (H1 & H2 & H3).
  repeat split; [lia | done | done].
Qed.

Lemma separated_ext occ occ' lo ps :
  (∀ i, occ i <-> occ' i) ->
  separated occ step lo ps <-> separated occ' step lo ps.
Proof.
  intros Hext. revert lo. induction ps as [|p ps IH]; intros lo; simpl.
  - done.
  - by rewrite Hext, IH.
Qed.

Lemma separated_shift c s lo ps :
  separated (occurs w (c :: s)) step (S lo) ps ->
  ∃ ps', ps = map S ps' ∧ separated (occurs w s) step lo ps'.
Proof.
  revert lo. induction ps as [|p ps IH]; intros lo; simpl.
  - intros _. by exists [].
  - intros (H1 & H2 & H3). destruct p as [|p]; [lia|].
    apply occurs_S in H2.
    destruct (IH (p + step)) as (ps' & -> & Hps'); [done|].
    exists (p :: ps'). split; [done|]. simpl.
    repeat split; [lia | done | done].
Qed.

Lemma separated_unshift c s lo ps :
  separated (occurs w s) step lo ps ->
  separated (occurs w (c :: s)) step (S lo) (map S ps).
Proof.
  revert lo. induction ps as [|p ps IH]; intros lo; simpl; [done|].
  intros (H1 & H2 & H3). repeat split; [lia | by apply occurs_S |].
  by apply IH.
Qed.
End Separated.

(** No family of non-overlapping occurrences is larger than the scan's
    result. *)
Lemma count_scan_upper w s lo ps :
  w ≠ [] ->
  separated (occurs w s) (length w) lo ps -> length ps <= count_scan w s lo.
Proof.
  intros Hw. revert lo ps. induction s as [|c s IH]; intros lo ps Hsep.
  - destruct ps as [|p ps]; [done|]. destruct Hsep as (_ & Hocc & _).
    apply occurs_bound in Hocc. destruct w; [done | simpl in Hocc; lia].
  - assert (Hlen : 1 <= length w) by (destruct w; [done | simpl; lia]).
    destruct lo as [|lo]; simpl.
    + destruct (startswith w (c :: s)) eqn:Hsw.
      * destruct ps as [|p ps]; [simpl; lia|].
        destruct Hsep as (_ & _ & Hrest).
        apply (separated_weaken _ _ _ (S (length w - 1))) in Hrest; [|lia].
        apply separated_shift in Hrest as (ps' & -> & Hps').
        apply IH in Hps'. simpl. rewrite length_map. lia.
      * destruct ps as [|p ps]; [simpl; lia|].
        assert (Hp : 1 <= p).
        { destruct p; [|lia]. destruct Hsep as (_ & Hocc & _).
          apply occurs_0 in Hocc. congruence. }
        assert (Hsep' : separated (occurs w (c :: s)) (length w) 1 (p :: ps)).
        { destruct Hsep as (_ & ? & ?). simpl. done. }
        apply separated_shift in Hsep' as (ps' & -> & Hps').
        apply IH in Hps'. by rewrite length_map.
    + apply separated_shift in Hsep as (ps' & -> & Hps').
      apply IH in Hps'. by rewrite length_map.
Qed.

(** The scan's result is reached by a family of non-overlapping
    occurrences. *)
Lemma count_scan_lower w s lo :
  w ≠ [] ->
  ∃ ps, separated (occurs w s) (length w) lo ps ∧
        length ps = count_scan w s lo.
Proof.
  intros Hw.
  assert (Hlen : 1 <= length w) by (destruct w; [done | simpl; lia]).
  revert lo. induction s as [|c s IH]; intros lo.
  - by exists [].
  - destruct lo as [|lo]; simpl.
    + destruct (startswith w (c :: s)) eqn:Hsw.
      * destruct (IH (length w - 1)) as (ps & Hps & Hl).
        exists (0 :: map S ps). split; [|simpl; by rewrite length_map, Hl].
        simpl. repeat split; [lia | by apply occurs_0 |].
        replace (length w) with (S (length w - 1)) at 2 by lia.
        by apply separated_unshift.
      * destruct (IH 0) as (ps & Hps & Hl).
        exists (map S ps). split; [|by rewrite length_map].
        apply (separated_weaken _ _ 1); [lia|]. by apply separated_unshift.
    + destruct (IH lo) as (ps & Hps & Hl).
      exists (map S ps). split; [|by rewrite length_map].
      by apply separated_unshift.
Qed.

Lemma empty_separated_upper s lo ps :
  separated (occurs [] s) 1 lo ps -> length ps <= S (length s) - lo.
Proof.
  revert lo. induction ps as [|p ps IH]; intros lo; simpl; [lia|].
  intros (H1 & H2 & H3). apply occurs_bound in H2. apply IH in H3.
  simpl in H2. lia.
Qed.

Lemma empty_occurs s i : i <= length s -> occurs [] s i.
Proof.
  intros Hi. exists (take i s), (drop i s). simpl.
  rewrite take_drop. split; [done|]. rewrite length_take. lia.
Qed.

Lemma empty_separated_lower s n lo :
  lo + n = S (length s) ->
  separated (occurs [] s) 1 lo (seq lo n).
Proof.
  revert lo. induction n as [|n IH]; intros lo Hn; simpl; [done|].
  repeat split; [lia | apply empty_occurs; lia |].
  replace (lo + 1) with (S lo) by lia. apply IH. lia.
Qed.

(** [Str.count] is the non-overlapping occurrence count. *)
Lemma count_nonoverlapping w s : nonoverlapping_count w s (count w s).
Proof.
  unfold nonoverlapping_count, max_separated, stride.
  destruct w as [|a w].
  - simpl. split.
    + exists (seq 0 (S (length s))). split; [|by rewrite length_seq].
      by apply empty_separated_lower.
    + intros ps Hps. apply empty_separated_upper in Hps. lia.
  - replace (Nat.max 1 (length (a :: w))) with (length (a :: w))
      by (simpl; lia).
    split.
    + by apply count_scan_lower.
    + intros ps. by apply count_scan_upper.
Qed.

Lemma count_lower_ci w s :
  nonoverlapping_count_ci w s (count (lower w) (lower s)).
Proof.
  pose proof (count_nonoverlapping (lower w) (lower s)) as [Hex Hmax].
  unfold nonoverlapping_count_ci, max_separated, stride in *.
  rewrite lower_length in *.
  split.
  - destruct Hex as (ps & Hps & Hl). exists ps. split; [|done].
    eapply separated_ext; [|exact Hps]. intros i. symmetry. apply occurs_lower.
  - intros ps Hps. apply Hmax.
    eapply separated_ext; [|exact Hps]. intros i. apply occurs_lower.
Qed.

End StrFacts.

(** ** URLs *)
Module UrlFacts.
Import Str UrlLib Crawler UrlShape StrFacts.

Lemma break_app P s : let '(a, b) := break P s in s = a ++ b.
Proof.
  induction s as [|c s IH]; cbn; [done|].
  destruct (P c); [done|]. destruct (break P s) as [a b]. cbn. by rewrite IH at 1.
Qed.


Lemma break_clean P h r :
  forallb (fun c => negb (P c)) h = true ->
  (r = [] ∨ ∃ c r', r = c :: r' ∧ P c = true) ->
  break P (h ++ r) = (h, r).
Proof.
  intros Hh Hr. induction h as [|x h IH]; cbn in *.
  - destruct Hr as [-> | (c & r' & -> & Hc)]; [done|]. cbn. by rewrite Hc.
  - apply andb_true_iff in Hh as [Hx Hh]. apply negb_true_iff in Hx.
    rewrite Hx, IH; done.
Qed.

Lemma find_break c s :
  find c s = if nonempty (snd (break (eqc c) s))
             then Some (length (fst (break (eqc c) s))) else None.
Proof.
  induction s as [|x s IH]; cbn; [done|].
  destruct (eqc c x); [done|]. rewrite IH.
  destruct (break (eqc c) s) as [a b]. cbn. by destruct (nonempty b).
Qed.

Lemma has_char_break c s :
  has_char c s = nonempty (snd (break (eqc c) s)).
Proof.
  unfold has_char. induction s as [|x s IH]; cbn; [done|].
  destruct (eqc c x); [done|]. cbn. rewrite IH. by destruct (break (eqc c) s).
Qed.

(** The guarded [split] of [urlsplit] is [cut]. *)
Lemma split_guarded c s :
  (if has_char c s then split1 c s else (s, [])) = cut c s.
Proof.
  unfold split1, cut. rewrite has_char_break, find_break.
  pose proof (break_app (eqc c) s) as Happ.
  destruct (break (eqc c) s) as [a b]. cbn. destruct b as [|y b]; cbn.
  - by rewrite Happ, app_nil_r.
  - rewrite Happ. rewrite take_app_length. f_equal.
    rewrite (cons_middle y a b), app_assoc.
    rewrite drop_app_length'; [done|]. rewrite length_app. cbn. lia.
Qed.

Lemma find_from_slashes c B :
  find_from c (lit "//" ++ B) 2 = (fun i => 2 + i) <$> find c B.
Proof. reflexivity. Qed.

Lemma delim_index B :
  fold_left
    (fun delim c =>
       match find_from c (lit "//" ++ B) 2 with
       | Some wdelim => Nat.min delim wdelim
       | None => delim
       end)
    (lit "/?#") (length (lit "//" ++ B))
  = 2 + length (fst (break is_delim B)).
Proof.
  cbn [lit String.list_ascii_of_string fold_left]. rewrite !find_from_slashes.
  change (length (lit "//" ++ B)) with (2 + length B).
  induction B as [|x B IH]; [reflexivity|].
  cbn [find break length].
  change (is_delim x) with (eqc "/" x || eqc "?" x || eqc "#" x).
  destruct (eqc "/" x) eqn:E1; cbn [orb fst length fmap option_fmap option_map].
  { destruct (if eqc "?" x then _ else _), (if eqc "#" x then _ else _);
      cbn; lia. }
  destruct (eqc "?" x) eqn:E2; cbn [orb fst length fmap option_fmap option_map].
  { destruct (find "/" B), (if eqc "#" x then _ else _); cbn; lia. }
  destruct (eqc "#" x) eqn:E3; cbn [orb fst length fmap option_fmap option_map].
  { destruct (find "/" B), (find "?" B); cbn; lia. }
  destruct (break is_delim B) as [a b]. cbn [fst length] in *.
  destruct (find "/" B), (find "?" B), (find "#" B); cbn in *; lia.
Qed.

(** [_splitnetloc] after the two slashes: the network location ends at the
    first of '/', '?', '#'. *)
Lemma splitnetloc_break B :
  _splitnetloc (lit "//" ++ B) 2 = break is_delim B.
Proof.
  unfold _splitnetloc. rewrite delim_index.
  pose proof (break_app is_delim B) as Happ.
  destruct (break is_delim B) as [a b]. cbn [fst].
  replace (2 + length a - 2) with (length a) by lia.
  change (drop 2 (lit "//" ++ B)) with B.
  change (drop (2 + length a) (lit "//" ++ B)) with (drop (length a) B).
  rewrite Happ. by rewrite take_app_length, drop_app_length.
Qed.

Lemma urlsplit_tail (sch B : str) :
  (let '(netloc, url) := _splitnetloc (lit "//" ++ B) 2 in
   if bracket_mismatch netloc then None
   else
     let '(url, fragment) :=
       if has_char "#" url then split1 "#" url else (url, []) in
     let '(url, query) :=
       if has_char "?" url then split1 "?" url else (url, []) in
     Some (mkParseResult sch netloc url [] query fragment))
  = split_body sch B.
Proof.
  unfold split_body. rewrite splitnetloc_break.
  destruct (break is_delim B) as [N R].
  destruct (bracket_mismatch N); [done|].
  rewrite split_guarded. destruct (cut "#" R) as [R1 F].
  by rewrite split_guarded.
Qed.

Lemma urlsplit_prefixed sch body :
  sch = lit "http" ∨ sch = lit "https" ->
  urlsplit (sch ++ lit "://" ++ body) = split_body sch (remove_unsafe body).
Proof.
  intros [-> | ->]; rewrite <- urlsplit_tail; reflexivity.
Qed.

Lemma split_body_scheme sch B r : split_body sch B = Some r -> scheme r = sch.
Proof.
  unfold split_body. destruct (break is_delim B) as [N R].
  destruct (bracket_mismatch N); [done|].
  destruct (cut "#" R) as [R1 F]. destruct (cut "?" R1) as [p q].
  by intros [= <-].
Qed.

Lemma split_body_params sch B r : split_body sch B = Some r -> params r = [].
Proof.
  unfold split_body. destruct (break is_delim B) as [N R].
  destruct (bracket_mismatch N); [done|].
  destruct (cut "#" R) as [R1 F]. destruct (cut "?" R1) as [p q].
  by intros [= <-].
Qed.

Lemma normalize_prefixed sch body :
  sch = lit "http" ∨ sch = lit "https" ->
  _normalize_url (sch ++ lit "://" ++ body) = normalize_body sch body.
Proof.
  intros Hs. unfold _normalize_url, normalize_body.
  assert (Hp : has_scheme_prefix (sch ++ lit "://" ++ body) = true)
    by (destruct Hs as [-> | ->]; reflexivity).
  rewrite Hp. cbn [negb]. unfold urlparse. rewrite (urlsplit_prefixed _ _ Hs).
  destruct (split_body sch (remove_unsafe body)) as [r|] eqn:Hr; [|done].
  pose proof (split_body_scheme _ _ _ Hr) as Hsch.
  pose proof (split_body_params _ _ _ Hr) as Hprm.
  assert (Hu : bool_decide (scheme r ∈ uses_params) = true).
  { rewrite Hsch. destruct Hs as [-> | ->]; by vm_compute. }
  rewrite Hu. cbn [andb].
  destruct (has_char ";" (path r)).
  - destruct (_splitparams (path r)) as [p prm]. cbn. by rewrite Hsch.
  - by rewrite Hsch, Hprm.
Qed.

Lemma normalize_unprefixed u :
  has_scheme_prefix u = false ->
  _normalize_url u = normalize_body (lit "https") u.
Proof.
  intros Hp. rewrite <- (normalize_prefixed (lit "https") u) by (by right).
  unfold _normalize_url at 1. rewrite Hp. cbn [negb].
  unfold _normalize_url.
  assert (Hq : has_scheme_prefix (lit "https" ++ lit "://" ++ u) = true)
    by reflexivity.
  by rewrite Hq.
Qed.

Lemma has_scheme_prefix_inv u :
  has_scheme_prefix u = true ->
  ∃ sch body, (sch = lit "http" ∨ sch = lit "https") ∧
              u = sch ++ lit "://" ++ body.
Proof.
  unfold has_scheme_prefix.
  intros [[t ->]%startswith_app | [t ->]%startswith_app]%orb_true_iff.
  - exists (lit "http"), t. split; [by left | done].
  - exists (lit "https"), t. split; [by right | done].
Qed.



Lemma remove_unsafe_app a b :
  remove_unsafe (a ++ b) = remove_unsafe a ++ remove_unsafe b.
Proof. apply List.filter_app. Qed.



Lemma is_delim_lower c : is_delim (lower_char c) = is_delim c.
Proof. destruct c as [[] [] [] [] [] [] [] []]; reflexivity. Qed.

Lemma is_unsafe_lower c : is_unsafe (lower_char c) = is_unsafe c.
Proof. destruct c as [[] [] [] [] [] [] [] []]; reflexivity. Qed.

Lemma eqc_open_lower c : eqc "[" (lower_char c) = eqc "[" c.
Proof. destruct c as [[] [] [] [] [] [] [] []]; reflexivity. Qed.

Lemma eqc_close_lower c : eqc "]" (lower_char c) = eqc "]" c.
Proof. destruct c as [[] [] [] [] [] [] [] []]; reflexivity. Qed.

Lemma existsb_lower (P : ascii -> bool) s :
  (∀ c, P (lower_char c) = P c) -> existsb P (lower s) = existsb P s.
Proof.
  intros H. unfold lower. induction s as [|c s IH]; cbn; [done|].
  by rewrite H, IH.
Qed.

Lemma forallb_lower (P : ascii -> bool) s :
  (∀ c, P (lower_char c) = P c) -> forallb P (lower s) = forallb P s.
Proof.
  intros H. unfold lower. induction s as [|c s IH]; cbn; [done|].
  by rewrite H, IH.
Qed.

Lemma bracket_mismatch_lower s :
  bracket_mismatch (lower s) = bracket_mismatch s.
Proof.
  unfold bracket_mismatch, has_char.
  by rewrite !(existsb_lower _ s eqc_open_lower),
             !(existsb_lower _ s eqc_close_lower).
Qed.


Lemma free_of_remove_unsafe P s :
  free_of P s = true -> free_of P (remove_unsafe s) = true.
Proof.
  unfold free_of, remove_unsafe. induction s as [|c s IH]; cbn; [done|].
  intros [Hc Hs]%andb_true_iff. destruct (is_unsafe c); cbn; [auto|].
  by rewrite Hc, IH.
Qed.

Lemma headed_by_remove_unsafe s :
  headed_by is_delim s = true -> headed_by is_delim (remove_unsafe s) = true.
Proof.
  destruct s as [|c s]; cbn; [done|]. intros Hc.
  assert (is_unsafe c = false) as ->; [|done].
  destruct c as [[] [] [] [] [] [] [] []]; try reflexivity; discriminate.
Qed.

Lemma break_headed P h r :
  free_of P h = true -> headed_by P r = true -> break P (h ++ r) = (h, r).
Proof.
  intros Hh Hr. apply break_clean; [done|].
  destruct r as [|c r]; [by left | right]. by exists c, r.
Qed.

(** The host is the network location; what follows it is parsed on its own. *)
Lemma split_body_host sch h rest :
  free_of is_delim h = true -> headed_by is_delim rest = true ->
  split_body sch (remove_unsafe (h ++ rest)) =
  if bracket_mismatch (remove_unsafe h) then None
  else
    let '(r1, f) := cut "#" (remove_unsafe rest) in
    let '(p, q) := cut "?" r1 in
    Some (mkParseResult sch (remove_unsafe h) p [] q f).
Proof.
  intros Hh Hr. unfold split_body. rewrite remove_unsafe_app.
  rewrite break_headed;
    [done | by apply free_of_remove_unsafe | by apply headed_by_remove_unsafe].
Qed.


Lemma free_of_weaken (P Q : ascii -> bool) s :
  (∀ c, Q c = true -> P c = true) -> free_of P s = true -> free_of Q s = true.
Proof.
  intros H. unfold free_of. rewrite !forallb_forall. intros HP c Hc.
  specialize (HP c Hc). destruct (Q c) eqn:HQ; [|done].
  by rewrite (H c HQ) in HP.
Qed.

Lemma free_of_app P a b :
  free_of P (a ++ b) = free_of P a && free_of P b.
Proof. apply forallb_app. Qed.

Lemma free_of_opt P d x :
  P d = false -> free_of P x = true -> free_of P (opt d x) = true.
Proof. intros Hd Hx. destruct x; [done|]. cbn in *. by rewrite Hd. Qed.

Lemma remove_unsafe_id s : free_of is_unsafe s = true -> remove_unsafe s = s.
Proof.
  unfold free_of, remove_unsafe. induction s as [|c s IH]; cbn; [done|].
  intros [Hc Hs]%andb_true_iff. rewrite Hc. by rewrite IH.
Qed.

Lemma has_char_free c s : free_of (eqc c) s = true -> has_char c s = false.
Proof.
  unfold free_of, has_char. induction s as [|x s IH]; cbn; [done|].
  intros [Hx Hs]%andb_true_iff. apply negb_true_iff in Hx. by rewrite Hx, IH.
Qed.

Lemma cut_absent c s : free_of (eqc c) s = true -> cut c s = (s, []).
Proof.
  intros H. unfold cut. rewrite <- (app_nil_r s) at 1.
  by rewrite break_headed.
Qed.

Lemma cut_present c a b : free_of (eqc c) a = true -> cut c (a ++ c :: b) = (a, b).
Proof.
  intros H. unfold cut. rewrite break_headed; [done | done |].
  cbn. apply eqc_refl.
Qed.

Lemma cut_opt c a x : free_of (eqc c) a = true -> cut c (a ++ opt c x) = (a, x).
Proof.
  intros H. destruct x as [|y x]; cbn [opt].
  - rewrite app_nil_r. by apply cut_absent.
  - by apply cut_present.
Qed.








Lemma headed_by_weaken (P Q : ascii -> bool) s :
  (∀ c, P c = true -> Q c = true) -> headed_by P s = true ->
  headed_by Q s = true.
Proof. intros H. destruct s as [|c s]; [done|]. apply H. Qed.

Lemma headed_by_app P a b :
  headed_by P a = true -> (a = [] -> headed_by P b = true) ->
  headed_by P (a ++ b) = true.
Proof. destruct a; cbn; auto. Qed.

Lemma headed_by_opt (P : ascii -> bool) d x :
  P d = true -> headed_by P (opt d x) = true.
Proof. by destruct x. Qed.


Lemma normalize_body_prefix sch body v :
  sch = lit "http" ∨ sch = lit "https" ->
  normalize_body sch body = Some v ->
  startswith (sch ++ lit "://") v = true.
Proof.
  intros Hs. unfold normalize_body.
  destruct (split_body sch (remove_unsafe body)) as [r|]; [|done].
  destruct (if has_char ";" (path r) then _ else _) as [p prm].
  intros [= <-]. unfold urlunparse, urlunsplit.
  set (url := if nonempty prm then _ else _).
  assert (Hsn : nonempty sch = true) by (by destruct Hs as [-> | ->]).
  assert (Hun : bool_decide (sch ∈ uses_netloc) = true)
    by (destruct Hs as [-> | ->]; by vm_compute).
  rewrite Hsn, Hun. cbn [andb].
  destruct (nonempty (lower (netloc r)) || negb (startswith (lit "//") url))
    eqn:Hc.
  - destruct (nonempty (query r)); rewrite <- ?app_assoc;
      apply startswith_app; eexists; cbn [app lit String.list_ascii_of_string];
      rewrite <- ?app_assoc; reflexivity.
  - apply orb_false_iff in Hc as [_ Hc]. apply negb_false_iff in Hc.
    apply startswith_app in Hc as [t Ht]. rewrite Ht.
    destruct (nonempty (query r)); rewrite <- ?app_assoc;
      apply startswith_app; eexists; cbn [app lit String.list_ascii_of_string];
      rewrite <- ?app_assoc; reflexivity.
Qed.

End UrlFacts.

(** ** The methods of the crawler, one by one *)
Module MethodFacts.
Import Str UrlLib Crawler Trace.

Section Methods.
Context (env : Env) (cfg : Config).

Lemma count_fold_lookup (text : str) (words : list str) (m : gmap str nat) w :
  fold_left (fun word_counts word => <[word := count word text]> word_counts)
    words m !! w
  = if bool_decide (w ∈ words) then Some (count w text) else m !! w.
Proof.
  revert m. induction words as [|a words IH]; intros m; cbn [fold_left].
  - rewrite bool_decide_eq_false_2; [done | apply not_elem_of_nil].
  - rewrite IH. destruct (decide (w = a)) as [->|Hne].
    + rewrite lookup_insert_eq.
      assert (Ha : a ∈ a :: words) by left.
      rewrite (bool_decide_eq_true_2 _ Ha).
      by destruct (bool_decide (a ∈ words)).
    + rewrite lookup_insert_ne by done.
      destruct (decide (w ∈ words)) as [Hin|Hnin].
      * assert (Ha : w ∈ a :: words) by (by right).
        by rewrite (bool_decide_eq_true_2 _ Hin), (bool_decide_eq_true_2 _ Ha).
      * assert (Ha : w ∉ a :: words).
        { intros [->|?]%elem_of_cons; done. }
        by rewrite (bool_decide_eq_false_2 _ Hnin),
             (bool_decide_eq_false_2 _ Ha).
Qed.

Lemma search_content_lookup text w :
  _search_content cfg text !! w
  = if bool_decide (w ∈ search_words cfg)
    then Some (count w (lower text)) else None.
Proof.
  unfold _search_content. destruct (search_words cfg) as [|a ws] eqn:E.
  - cbn [negb]. rewrite lookup_empty.
    rewrite bool_decide_eq_false_2; [done | apply not_elem_of_nil].
  - cbn [negb]. rewrite count_fold_lookup.
    by destruct (bool_decide _).
Qed.

Lemma search_content_dom text :
  dom (_search_content cfg text) = list_to_set (search_words cfg).
Proof.
  apply set_eq. intros w.
  rewrite elem_of_dom, search_content_lookup, elem_of_list_to_set.
  destruct (decide (w ∈ search_words cfg)) as [Hin|Hnin].
  - rewrite (bool_decide_eq_true_2 _ Hin). split; eauto.
  - rewrite (bool_decide_eq_false_2 _ Hnin). split; [|done].
    by intros [? ?].
Qed.

(** Every link [_extract_links] returns passed the scope filter. *)
Lemma extract_loop_valid base hrefs links :
  (∀ u, u ∈ links -> _is_valid_url cfg u = true) ->
  ∀ u, u ∈ extract_loop env cfg base hrefs links ->
       _is_valid_url cfg u = true.
Proof.
  revert links. induction hrefs as [|h hrefs IH]; intros links Hl u; simpl.
  - apply Hl.
  - destruct (nonempty h); [|by apply IH].
    destruct (urljoin env base h) as [a|]; [|apply Hl].
    destruct (_normalize_url a) as [n|]; [|apply Hl].
    apply IH. destruct (_is_valid_url cfg n) eqn:Hv; [|done].
    intros v [Hv'| ->%elem_of_singleton]%elem_of_union; auto.
Qed.

Lemma extract_links_valid hrefs base u :
  u ∈ _extract_links env cfg hrefs base -> _is_valid_url cfg u = true.
Proof.
  apply extract_loop_valid. intros v Hv. by apply not_elem_of_empty in Hv.
Qed.

(** What one call of [_can_fetch] can do. *)
Lemma can_fetch_inv self u b self' ev :
  _can_fetch env cfg self u = (b, self', ev) ->
  visited_urls self' = visited_urls self ∧
  crawled_data self' = crawled_data self ∧
  robots_cache self ⊆ robots_cache self' ∧
  (ev = [] ∨ ∃ r, ev = [EvRobotsRead r]).
Proof.
  unfold _can_fetch. intros H.
  destruct (respect_robots cfg); simpl in H;
    [|injection H as <- <- <-; eauto].
  destruct (urlparse u) as [parsed|]; [|injection H as <- <- <-; eauto].
  destruct (robots_cache self !! netloc parsed) eqn:Hc;
    [injection H as <- <- <-; eauto|].
  destruct (robots_read env _) as [rp|]; injection H as <- <- <-; simpl.
  - repeat split; eauto. by apply insert_subseteq.
  - repeat split; eauto.
Qed.

(** What one call of [_fetch_page] can do. *)
Lemma fetch_page_inv self u res self' ev :
  _fetch_page env cfg self u = (res, self', ev) ->
  ∃ b ev0,
    _can_fetch env cfg self u = (b, self', ev0) ∧
    ev = ev0 ++ (if b then [EvGate u true; EvGet u] else [EvGate u false]) ∧
    (b = false -> res = None) ∧
    (∀ data links, res = Some (data, links) ->
       b = true ∧
       ∃ r, page_ok env u r ∧
            links = _extract_links env cfg (html_hrefs r) u ∧
            data = record_of env cfg u r) ∧
    (b = true -> ∀ r, page_ok env u r ->
       res = Some (record_of env cfg u r,
                   _extract_links env cfg (html_hrefs r) u)).
Proof.
  unfold _fetch_page, page_ok. intros H.
  destruct (_can_fetch env cfg self u) as [[b self1] ev0] eqn:Hcf.
  exists b, ev0. destruct b; cbn [negb] in H.
  - destruct (http_get env u) as [e|r] eqn:Hget.
    { injection H as <- <- <-. repeat split; try done.
      intros _ r (? & _). congruence. }
    destruct (raise_for_status r) eqn:Hst.
    { injection H as <- <- <-. repeat split; try done.
      intros _ r' (? & ? & _). congruence. }
    destruct (contains _ _) eqn:Hct; cbn [negb] in H.
    + injection H as <- <- <-. do 3 (split; [done|]). split.
      * intros data links [= <- <-]. split; [done|]. by exists r.
      * intros _ r' (Hr' & _). by simplify_eq.
    + injection H as <- <- <-. repeat split; try done.
      intros _ r' (? & ? & ?). congruence.
  - injection H as <- <- <-. repeat split; done.
Qed.

End Methods.
End MethodFacts.

(** ** The crawl loop *)
Module LoopFacts.
Import Str UrlLib Crawler Trace Invariants MethodFacts.

Section Loop.
Context (env : Env) (cfg : Config).

Lemma crawl_loop_ind (P : Loop -> Prop) l0 :
  P l0 ->
  (∀ l, P l -> loop_cond cfg l = true -> P (crawl_iteration env cfg l)) ->
  ∀ fuel, P (crawl_loop env cfg fuel l0).
Proof.
  intros H0 Hstep fuel. revert l0 H0.
  induction fuel as [|n IH]; intros l0 H0; simpl; [done|].
  destruct (loop_cond cfg l0) eqn:Hc; [|done]. apply IH. by apply Hstep.
Qed.

Lemma loop_cond_true l :
  loop_cond cfg l = true ->
  (∃ u d q, crawl_queue l = (u, d) :: q) ∧
  (pages_crawled l < max_pages cfg)%Z.
Proof.
  unfold loop_cond. intros [Hq Hp]%andb_true_iff. split; [|lia].
  destruct (crawl_queue l) as [|[u d] q]; [done|]. eauto.
Qed.

(** The two ways through the body of the loop. *)
Lemma iteration_cases l u d q :
  crawl_queue l = (u, d) :: q ->
  (((u ∈ visited_urls (self_ l)) ∨ (max_depth cfg < d)%Z) ∧
   (crawl_iteration env cfg l =
      mkLoop (self_ l) q (pages_crawled l) (trace l ++ [EvPop u d])))
  ∨
  ((u ∉ visited_urls (self_ l)) ∧ (d <= max_depth cfg)%Z ∧
   ∃ res self' ev,
     _fetch_page env cfg
       (mkState (visited_urls (self_ l) ∪ {[ u ]})
          (crawled_data (self_ l)) (robots_cache (self_ l))) u
     = (res, self', ev) ∧
     match res with
     | None =>
         crawl_iteration env cfg l =
           mkLoop self' q (pages_crawled l)
             (trace l ++ [EvPop u d; EvFetchPage u d] ++ ev ++
              rate_limit cfg q)
     | Some (data, links) =>
         let q' := if (d <? max_depth cfg)%Z
                   then enqueue_links (visited_urls self') d links q
                   else q in
         crawl_iteration env cfg l =
           mkLoop (mkState (visited_urls self') (crawled_data self' ++ [data])
                     (robots_cache self'))
             q' (pages_crawled l + 1)
             (trace l ++ [EvPop u d; EvFetchPage u d] ++ ev ++
              rate_limit cfg q')
     end).
Proof.
  intros Hq. unfold crawl_iteration, loop_body. rewrite Hq.
  destruct (decide (u ∈ visited_urls (self_ l))) as [Hin|Hnin].
  { left. rewrite (bool_decide_eq_true_2 _ Hin). split; [by left | done]. }
  rewrite (bool_decide_eq_false_2 _ Hnin).
  destruct (d >? max_depth cfg)%Z eqn:Hd.
  { left. split; [right; lia | done]. }
  right. split; [done|]. split; [lia|].
  destruct (_fetch_page env cfg _ u) as [[res self'] ev] eqn:Hf.
  exists res, self', ev. split; [done|].
  destruct res as [[data links]|]; done.
Qed.

(** The events of one [_fetch_page], seen through the projections. *)
Lemma fetch_page_events self u res self' ev :
  _fetch_page env cfg self u = (res, self', ev) ->
  visited_urls self' = visited_urls self ∧
  crawled_data self' = crawled_data self ∧
  robots_cache self ⊆ robots_cache self' ∧
  ∃ b, pops ev = [] ∧ fetch_calls ev = [] ∧ sleeps ev = [] ∧
       gates ev = [(u, b)] ∧ gets ev = (if b then [u] else []) ∧
       (b = false -> res = None).
Proof.
  intros (b & ev0 & Hcf & -> & Hres & _)%fetch_page_inv.
  apply can_fetch_inv in Hcf as (Hv & Hd & Hr & Hev).
  do 3 (split; [done|]). exists b.
  destruct Hev as [-> | [r ->]]; destruct b; done.
Qed.

Lemma rate_limit_proj q :
  pops (rate_limit cfg q) = [] ∧ fetch_calls (rate_limit cfg q) = [] ∧
  gates (rate_limit cfg q) = [] ∧ gets (rate_limit cfg q) = [].
Proof. by destruct q. Qed.

Lemma fetch_trace_proj t u d ev b q :
  pops ev = [] -> fetch_calls ev = [] -> gates ev = [(u, b)] ->
  gets ev = (if b then [u] else []) ->
  let t' := t ++ [EvPop u d; EvFetchPage u d] ++ ev ++ rate_limit cfg q in
  pops t' = pops t ++ [(u, d)] ∧
  fetch_calls t' = fetch_calls t ++ [(u, d)] ∧
  gates t' = gates t ++ [(u, b)] ∧
  gets t' = gets t ++ (if b then [u] else []).
Proof.
  intros H1 H2 H3 H4 t'. subst t'.
  destruct (rate_limit_proj q) as (R1 & R2 & R3 & R4).
  unfold pops, fetch_calls, gates, gets in *.
  rewrite !omap_app, H1, H2, H3, H4, R1, R2, R3, R4. simpl.
  by rewrite !app_nil_r.
Qed.

Lemma pop_trace_proj t u d :
  pops (t ++ [EvPop u d]) = pops t ++ [(u, d)] ∧
  fetch_calls (t ++ [EvPop u d]) = fetch_calls t ∧
  gates (t ++ [EvPop u d]) = gates t ∧
  gets (t ++ [EvPop u d]) = gets t.
Proof.
  unfold pops, fetch_calls, gates, gets. rewrite !omap_app. simpl.
  by rewrite !app_nil_r.
Qed.

Lemma basic_start : basic cfg (crawl_start cfg initial_state).
Proof.
  split; cbn; try done.
  - by right.
  - intros u. split; intros H.
    + by apply not_elem_of_empty in H.
    + by apply not_elem_of_nil in H.
  - constructor.
  - intros r H. by apply not_elem_of_nil in H.
  - intros u d H. by apply not_elem_of_nil in H.
  - intros u d Hin. apply list_elem_of_singleton in Hin. by simplify_eq.
  - intros u d Hin. apply list_elem_of_singleton in Hin. left. by simplify_eq.
  - intros r H. by apply not_elem_of_nil in H.
  - intros r H. by apply not_elem_of_nil in H.
Qed.

Lemma basic_step l :
  basic cfg l -> loop_cond cfg l = true ->
  basic cfg (crawl_iteration env cfg l).
Proof.
  intros [Hpg Hbud Hvis Hnd Hgt Hget Hres Hgate Hdep Hqd Hsq Hsc Hw] Hc.
  destruct (loop_cond_true _ Hc) as [(u & d & q & Hq) Hlt].
  assert (Hsub : ∀ x, x ∈ q -> x ∈ crawl_queue l).
  { intros x Hx. rewrite Hq. by right. }
  assert (Hhd : (u, d) ∈ crawl_queue l) by (rewrite Hq; left).
  destruct (iteration_cases l u d q Hq) as
    [[_ ->] | (Hnv & Hd & res & self' & ev & Hf & Hit)].
  - destruct (pop_trace_proj (trace l) u d) as (_ & P2 & P3 & P4).
    split; unfold results in *; cbn [self_ crawl_queue pages_crawled trace];
      rewrite ?P2, ?P3, ?P4; eauto.
  - destruct (fetch_page_events _ _ _ _ _ Hf)
      as (Hv' & Hd' & _ & b & E1 & E2 & _ & E3 & E4 & Hb).
    cbn [visited_urls crawled_data] in Hv', Hd'.
    assert (Hnew : u ∉ (fetch_calls (trace l)).*1) by (by rewrite <- Hvis).
    assert (Hvis' : ∀ v, v ∈ visited_urls self' <->
                         v ∈ (fetch_calls (trace l) ++ [(u, d)]).*1).
    { intros v. rewrite Hv', fmap_app, elem_of_app, elem_of_union, Hvis.
      cbn. rewrite list_elem_of_singleton, elem_of_singleton. done. }
    assert (Hnd' : NoDup (fetch_calls (trace l) ++ [(u, d)]).*1).
    { rewrite fmap_app. apply NoDup_app. split; [done|]. split.
      - intros v Hv ->%list_elem_of_singleton. done.
      - apply NoDup_singleton. }
    assert (Hgets' : gets (trace l) ++ (if b then [u] else [])
              `sublist_of` (fetch_calls (trace l) ++ [(u, d)]).*1).
    { rewrite fmap_app. apply sublist_app; [done|].
      destruct b; [done | apply sublist_nil_l]. }
    assert (Hdep' : ∀ v k, (v, k) ∈ fetch_calls (trace l) ++ [(u, d)] ->
                           (0 <= k <= max_depth cfg)%Z).
    { intros v k [Hin | Hin%list_elem_of_singleton]%elem_of_app; [eauto|].
      simplify_eq. split; [eauto | done]. }
    destruct res as [[data links]|].
    + cbn zeta in Hit. rewrite Hit. clear Hit.
      destruct (fetch_page_inv _ _ _ _ _ _ _ Hf)
        as (b' & ev0 & _ & _ & _ & Hsome & _).
      destruct (Hsome data links eq_refl) as (_ & r & Hok & -> & ->).
      assert (b = true) as -> by (destruct b; [done | by specialize (Hb eq_refl)]).
      match goal with |- basic _ (mkLoop _ ?q' _ ?t') =>
        destruct (fetch_trace_proj (trace l) u d ev true q' E1 E2 E3 E4)
          as (_ & P2 & P3 & P4) end.
      split; unfold results in *;
        cbn [self_ crawl_queue pages_crawled trace crawled_data visited_urls];
        rewrite ?P2, ?P3, ?P4, ?Hd'; try done.
      * rewrite length_app. cbn. lia.
      * left. lia.
      * rewrite !fmap_app. by rewrite Hgt.
      * rewrite fmap_app. apply sublist_app; [done|]. done.
      * intros r0 [Hin | Hin%list_elem_of_singleton]%elem_of_app.
        -- apply elem_of_app. left. eauto.
        -- subst r0. apply elem_of_app. right. cbn. left.
      * intros v k Hin. destruct (d <? max_depth cfg)%Z; [|eauto].
        apply elem_of_app in Hin as [Hin | Hin]; [eauto|].
        apply list_elem_of_fmap in Hin as (w & [= -> ->] & _).
        specialize (Hqd u d Hhd). lia.
      * intros v k Hin. destruct (d <? max_depth cfg)%Z; [|eauto].
        apply elem_of_app in Hin as [Hin | Hin]; [eauto|].
        apply list_elem_of_fmap in Hin as (w & [= -> ->] & Hin).
        apply list_elem_of_filter in Hin as [_ Hin].
        apply elem_of_elements in Hin. right.
        by apply (extract_links_valid env cfg _ _ _ Hin).
      * intros r0 [Hin | Hin%list_elem_of_singleton]%elem_of_app; [eauto|].
        subst r0. cbn. eauto.
      * intros r0 [Hin | Hin%list_elem_of_singleton]%elem_of_app; [eauto|].
        subst r0. cbn. apply search_content_dom.
    + rewrite Hit. clear Hit.
      destruct (fetch_trace_proj (trace l) u d ev b q E1 E2 E3 E4)
        as (_ & P2 & P3 & P4).
      split; unfold results in *;
        cbn [self_ crawl_queue pages_crawled trace crawled_data visited_urls];
        rewrite ?P2, ?P3, ?P4, ?Hd'; try done; eauto.
      * rewrite !fmap_app. by rewrite Hgt.
      * by apply sublist_inserts_r.
      * intros r0 Hin. apply elem_of_app. left. eauto.
Qed.

Lemma basic_run fuel : basic cfg (crawl_run env cfg fuel).
Proof.
  unfold crawl_run. apply crawl_loop_ind; [apply basic_start|].
  apply basic_step.
Qed.

(** *** Breadth-first order *)

Lemma sorted_const (c : Z) (l : list Z) :
  Forall (fun x => x = c) l -> StronglySorted Z.le l.
Proof.
  induction 1 as [|x l -> Hl IH]; constructor; [done|].
  eapply Forall_impl; [exact Hl|]. intros y ->. reflexivity.
Qed.

Lemma enqueue_depths visited d links q :
  (enqueue_links visited d links q).*2 =
  q.*2 ++ ((fun link => (link, (d + 1)%Z)) <$>
             filter (fun link => link ∉ visited) (elements links)).*2
  ∧ Forall (fun x => x = (d + 1)%Z)
      ((fun link : str => (link, (d + 1)%Z)) <$>
         filter (fun link => link ∉ visited) (elements links)).*2.
Proof.
  unfold enqueue_links. rewrite fmap_app. split; [done|].
  rewrite <- list_fmap_compose. apply Forall_fmap, Forall_true. done.
Qed.

Lemma bfs_start : bfs 0 (crawl_start cfg initial_state).
Proof.
  split; cbn.
  - constructor.
  - constructor.
  - constructor.
  - repeat constructor.
  - repeat constructor; lia.
Qed.

Lemma bfs_step k l :
  bfs k l -> loop_cond cfg l = true ->
  ∃ k', (k <= k')%Z ∧ bfs k' (crawl_iteration env cfg l).
Proof.
  intros [Hp Hb Hc Hq Hband] Hcond.
  destruct (loop_cond_true _ Hcond) as [(u & d & q & Hqueue) _].
  rewrite Hqueue in Hq, Hband. cbn in Hq, Hband.
  apply StronglySorted_inv in Hq as [Hq Hhd].
  apply Forall_cons in Hband as [Hd Hband].
  exists d. split; [lia|].
  assert (Hp' : StronglySorted Z.le ((pops (trace l)).*2 ++ [d])).
  { apply StronglySorted_app_2; [| done | repeat constructor].
    intros x1 x2 Hx1 ->%list_elem_of_singleton.
    rewrite Forall_forall in Hb. specialize (Hb _ Hx1). lia. }
  assert (Hb' : Forall (fun x => (x <= d)%Z) ((pops (trace l)).*2 ++ [d])).
  { apply Forall_app. split; [|repeat constructor; lia].
    eapply Forall_impl; [exact Hb|]. cbn. lia. }
  assert (Hband' : Forall (fun x => (d <= x <= d + 1)%Z) q.*2).
  { rewrite Forall_forall in Hband, Hhd. apply Forall_forall.
    intros x Hx. specialize (Hband _ Hx). specialize (Hhd _ Hx). lia. }
  destruct (iteration_cases l u d q Hqueue) as
    [[_ ->] | (Hnv & Hdm & res & self' & ev & Hf & Hit)].
  - destruct (pop_trace_proj (trace l) u d) as (P1 & P2 & _).
    split; cbn [self_ crawl_queue pages_crawled trace];
      rewrite ?P1, ?P2, ?fmap_app; try done.
    by apply sublist_inserts_r.
  - destruct (fetch_page_events _ _ _ _ _ Hf)
      as (_ & _ & _ & b & E1 & E2 & _ & E3 & E4 & _).
    assert (Hc' : fetch_calls (trace l) ++ [(u, d)]
                    `sublist_of` pops (trace l) ++ [(u, d)]).
    { by apply sublist_app. }
    destruct res as [[data links]|].
    + cbn zeta in Hit. rewrite Hit. clear Hit.
      match goal with |- bfs _ (mkLoop _ ?q' _ ?t') =>
        destruct (fetch_trace_proj (trace l) u d ev b q' E1 E2 E3 E4)
          as (P1 & P2 & _) end.
      split; cbn [self_ crawl_queue pages_crawled trace];
        rewrite ?P1, ?P2, ?fmap_app; try done.
      * destruct (d <? max_depth cfg)%Z; [|done].
        destruct (enqueue_depths (visited_urls self') d links q) as [-> Hnew].
        apply StronglySorted_app_2; [| done | by eapply sorted_const].
        intros x1 x2 Hx1 Hx2. rewrite Forall_forall in Hnew, Hband'.
        rewrite (Hnew _ Hx2). specialize (Hband' _ Hx1). lia.
      * destruct (d <? max_depth cfg)%Z; [|done].
        destruct (enqueue_depths (visited_urls self') d links q) as [-> Hnew].
        apply Forall_app. split; [done|].
        eapply Forall_impl; [exact Hnew|]. cbn. lia.
    + rewrite Hit. clear Hit.
      destruct (fetch_trace_proj (trace l) u d ev b q E1 E2 E3 E4)
        as (P1 & P2 & _).
      split; cbn [self_ crawl_queue pages_crawled trace];
        rewrite ?P1, ?P2, ?fmap_app; done.
Qed.

Lemma bfs_run fuel : ∃ k, bfs k (crawl_run env cfg fuel).
Proof.
  unfold crawl_run.
  apply (crawl_loop_ind (fun l => ∃ k, bfs k l)); [eexists; apply bfs_start|].
  intros l [k Hk] Hc. destruct (bfs_step k l Hk Hc) as (k' & _ & Hk').
  eauto.
Qed.

(** *** Termination *)

Lemma crawl_loop_S n l :
  loop_cond cfg l = true ->
  crawl_loop env cfg (S n) l = crawl_loop env cfg n (crawl_iteration env cfg l).
Proof. intros H. simpl. by rewrite H. Qed.

Lemma crawl_loop_done n l :
  loop_cond cfg l = false -> crawl_loop env cfg n l = l.
Proof. intros H. destruct n; simpl; [done | by rewrite H]. Qed.




Lemma crawl_loop_add n m l :
  crawl_loop env cfg (n + m) l = crawl_loop env cfg m (crawl_loop env cfg n l).
Proof.
  revert l. induction n as [|n IH]; intros l; cbn; [done|].
  destruct (loop_cond cfg l) eqn:Hc; [apply IH|].
  by rewrite crawl_loop_done.
Qed.

Lemma iteration_trace_prefix l :
  trace l `prefix_of` trace (crawl_iteration env cfg l).
Proof.
  unfold crawl_iteration. destruct (loop_body env cfg l) as [l' ev] eqn:Hb.
  cbn. assert (trace l' = trace l) as ->; [|by apply prefix_app_r].
  unfold loop_body in Hb. destruct (crawl_queue l) as [|[u d] q].
  { by injection Hb as <- _. }
  destruct (bool_decide _); [by injection Hb as <- _|].
  destruct (_ >? _)%Z; [by injection Hb as <- _|].
  destruct (_fetch_page _ _ _ _) as [[res s'] ev'].
  destruct res as [[data links]|]; by injection Hb as <- _.
Qed.

Lemma crawl_loop_trace_prefix n l :
  trace l `prefix_of` trace (crawl_loop env cfg n l).
Proof.
  revert l. induction n as [|n IH]; intros l; cbn; [done|].
  destruct (loop_cond cfg l); [|done].
  etrans; [apply iteration_trace_prefix | apply IH].
Qed.

End Loop.
End LoopFacts.

(** ** Crawling with and without robots respect *)
Module CompareFacts.
Import Str UrlLib Crawler Trace Invariants Compare.
Import MethodFacts LoopFacts.

Section Off.
Context (env : Env) (cfg : Config).
Hypothesis Hoff : respect_robots cfg = false.

Lemma can_fetch_off self u : _can_fetch env cfg self u = (true, self, []).
Proof. unfold _can_fetch. by rewrite Hoff. Qed.

Lemma fetch_page_off self u res self' ev :
  _fetch_page env cfg self u = (res, self', ev) ->
  gets ev = [u] ∧
  ∀ r, page_ok env u r ->
       res = Some (record_of env cfg u r,
                   _extract_links env cfg (html_hrefs r) u).
Proof.
  intros (b & ev0 & Hcf & -> & _ & _ & Hok)%fetch_page_inv.
  rewrite can_fetch_off in Hcf. injection Hcf as <- _ <-. split; [done|].
  by apply Hok.
Qed.

(** With robots respect disabled every call of the fetcher is a request. *)
Lemma gets_off fuel :
  gets (trace (crawl_run env cfg fuel))
  = (fetch_calls (trace (crawl_run env cfg fuel))).*1.
Proof.
  unfold crawl_run.
  apply (crawl_loop_ind env cfg
           (fun l => gets (trace l) = (fetch_calls (trace l)).*1)); [done|].
  intros l IH Hc. destruct (loop_cond_true _ _ Hc) as [(u & d & q & Hq) _].
  destruct (iteration_cases env cfg l u d q Hq) as
    [[_ ->] | (_ & _ & res & self' & ev & Hf & Hit)].
  - destruct (pop_trace_proj (trace l) u d) as (_ & P2 & _ & P4).
    cbn [trace]. by rewrite P2, P4.
  - destruct (fetch_page_events _ _ _ _ _ _ _ Hf)
      as (_ & _ & _ & b & E1 & E2 & _ & E3 & E4 & _).
    destruct (fetch_page_off _ _ _ _ _ Hf) as [Hg _].
    assert (b = true) as -> by (destruct b; [done | by rewrite Hg in E4]).
    destruct res as [[data links]|]; cbn zeta in Hit; rewrite Hit; cbn [trace];
      match goal with |- context [rate_limit cfg ?q'] =>
        destruct (fetch_trace_proj cfg (trace l) u d ev true q' E1 E2 E3 E4)
          as (_ & P2 & _ & P4) end;
      rewrite P2, P4, fmap_app, IH; done.
Qed.

Lemma closure_start : closure env cfg (crawl_start cfg initial_state).
Proof. intros u d r v Hin. by apply not_elem_of_nil in Hin. Qed.

Lemma closure_step k l :
  basic cfg l -> bfs k l -> closure env cfg l -> loop_cond cfg l = true ->
  closure env cfg (crawl_iteration env cfg l).
Proof.
  intros HB HF HK Hc.
  destruct (loop_cond_true _ _ Hc) as [(u0 & d0 & q & Hq) _].
  assert (Hk : (k <= d0)%Z).
  { destruct HF as [_ _ _ _ Hband]. rewrite Hq in Hband. cbn in Hband.
    apply Forall_cons in Hband as [Hd _]. lia. }
  assert (Hdeep : ∀ v d', (v, d') ∈ fetch_calls (trace l) -> (d' <= d0)%Z).
  { intros v d' Hin. destruct HF as [_ Hbelow Hcalls _ _].
    rewrite Forall_forall in Hbelow.
    assert (d' ∈ (pops (trace l)).*2).
    { apply list_elem_of_fmap. exists (v, d'). split; [done|].
      by eapply elem_of_sublist. }
    specialize (Hbelow d' H). cbn in Hbelow. lia. }
  assert (Hvis : ∀ v, v ∈ visited_urls (self_ l) ->
                      ∃ d', (v, d') ∈ fetch_calls (trace l) ∧ (d' <= d0)%Z).
  { intros v Hv. apply (b_visited _ _ HB) in Hv.
    apply list_elem_of_fmap in Hv as ([v' d'] & -> & Hin). cbn.
    exists d'. split; [done | by eapply Hdeep]. }
  destruct (iteration_cases env cfg l u0 d0 q Hq) as
    [[Hskip ->] | (Hnv & Hd0 & res & self' & ev & Hf & Hit)].
  - destruct (pop_trace_proj (trace l) u0 d0) as (_ & P2 & _).
    intros u d r v. cbn [trace crawl_queue]. rewrite P2.
    intros Hin Hd Hok Hv.
    destruct (HK u d r v Hin Hd Hok Hv) as [Hl | Hqin]; [by left|].
    rewrite Hq in Hqin. apply elem_of_cons in Hqin as [Heq | Hqin]; [|by right].
    injection Heq as -> Hd0. left. destruct Hskip as [Hin0 | Hgt]; [|lia].
    destruct (Hvis _ Hin0) as (d' & Hd' & Hle). exists d'. split; [done | lia].
  - destruct (fetch_page_events _ _ _ _ _ _ _ Hf)
      as (Hv' & _ & _ & b & E1 & E2 & _ & E3 & E4 & _).
    cbn [visited_urls] in Hv'.
    destruct (fetch_page_off _ _ _ _ _ Hf) as [_ Hok'].
    assert (Hgoal : ∀ q' : list (str * Z),
      (∀ x, x ∈ q -> x ∈ q') ->
      (∀ r v, (d0 < max_depth cfg)%Z -> page_ok env u0 r ->
              v ∈ _extract_links env cfg (html_hrefs r) u0 ->
              v ∉ visited_urls self' -> (v, (d0 + 1)%Z) ∈ q') ->
      ∀ u d r v,
        (u, d) ∈ fetch_calls (trace l) ++ [(u0, d0)] -> (d < max_depth cfg)%Z ->
        page_ok env u r -> v ∈ _extract_links env cfg (html_hrefs r) u ->
        (∃ d', (v, d') ∈ fetch_calls (trace l) ++ [(u0, d0)] ∧ (d' <= d + 1)%Z)
        ∨ (v, (d + 1)%Z) ∈ q').
    { intros q' Hsub Hnew u d r v Hin Hd Hok Hv.
      apply elem_of_app in Hin as [Hin | Hin%list_elem_of_singleton].
      - destruct (HK u d r v Hin Hd Hok Hv) as [(d' & Hd' & Hle) | Hqin].
        + left. exists d'. split; [|done]. apply elem_of_app. by left.
        + rewrite Hq in Hqin. apply elem_of_cons in Hqin as [Heq | Hqin].
          * injection Heq as -> Heq. left. exists (d + 1)%Z.
            split; [|lia]. apply elem_of_app. right. rewrite Heq. by left.
          * right. by apply Hsub.
      - injection Hin as -> ->.
        destruct (decide (v ∈ visited_urls self')) as [Hvin | Hvnin].
        + left. rewrite Hv' in Hvin.
          apply elem_of_union in Hvin as [Hvin | ->%elem_of_singleton].
          * destruct (Hvis _ Hvin) as (d' & Hd' & Hle). exists d'.
            split; [apply elem_of_app; by left | lia].
          * exists d0. split; [apply elem_of_app; right; by left | lia].
        + right. by eapply Hnew. }
    destruct res as [[data links]|].
    + cbn zeta in Hit. rewrite Hit. clear Hit.
      match goal with |- closure _ _ (mkLoop _ ?q' _ _) =>
        destruct (fetch_trace_proj cfg (trace l) u0 d0 ev b q' E1 E2 E3 E4)
          as (_ & P2 & _) end.
      unfold closure. cbn [trace crawl_queue]. rewrite P2.
      apply Hgoal.
      * intros x Hx. destruct (d0 <? max_depth cfg)%Z; [|done].
        apply elem_of_app. by left.
      * intros r v Hlt Hok Hv Hnin. specialize (Hok' r Hok).
        injection Hok' as _ ->.
        assert ((d0 <? max_depth cfg)%Z = true) as -> by lia.
        apply elem_of_app. right. apply list_elem_of_fmap. exists v.
        split; [done|]. apply list_elem_of_filter. split; [done|].
        by apply elem_of_elements.
    + rewrite Hit. clear Hit.
      destruct (fetch_trace_proj cfg (trace l) u0 d0 ev b q E1 E2 E3 E4)
        as (_ & P2 & _).
      unfold closure. cbn [trace crawl_queue]. rewrite P2.
      apply Hgoal; [done|].
      intros r v _ Hok. by specialize (Hok' r Hok).
Qed.

Lemma closure_run fuel : closure env cfg (crawl_run env cfg fuel).
Proof.
  unfold crawl_run.
  apply (crawl_loop_ind env cfg
           (fun l => basic cfg l ∧ (∃ k, bfs k l) ∧ closure env cfg l)).
  - split; [apply basic_start|]. split; [eexists; apply bfs_start|].
    apply closure_start.
  - intros l (HB & [k HF] & HK) Hc. split; [by apply basic_step|]. split.
    + destruct (bfs_step env cfg k l HF Hc) as (k' & _ & HF'). eauto.
    + by eapply closure_step.
Qed.

End Off.

Section Dominated.
Context (env : Env) (c1 c2 : Config).
Hypothesis Hdepth : max_depth c1 = max_depth c2.
Hypothesis Hlinks :
  ∀ hrefs u, _extract_links env c1 hrefs u = _extract_links env c2 hrefs u.
Variable final : Loop.
Hypothesis Hclosed : closure env c2 final.
Hypothesis Hempty : crawl_queue final = [].

Lemma dominated_step l :
  basic c1 l -> dominated c1 final l -> loop_cond c1 l = true ->
  dominated c1 final (crawl_iteration env c1 l).
Proof.
  intros HB [Hfc Hqu] Hc.
  destruct (loop_cond_true _ _ Hc) as [(u0 & d0 & q & Hq) Hlt].
  assert (Hpos : (0 < max_pages c1)%Z).
  { pose proof (b_pages _ _ HB). lia. }
  specialize (Hqu Hpos).
  destruct (iteration_cases env c1 l u0 d0 q Hq) as
    [[_ ->] | (_ & Hd0 & res & self' & ev & Hf & Hit)].
  - destruct (pop_trace_proj (trace l) u0 d0) as (_ & P2 & _).
    split; cbn [trace crawl_queue]; rewrite ?P2; [done|].
    intros _ u d Hin. apply Hqu. rewrite Hq. by right.
  - assert (Hcov : covered final u0 d0).
    { apply Hqu; [rewrite Hq; by left | done]. }
    destruct (fetch_page_events _ _ _ _ _ _ _ Hf)
      as (_ & _ & _ & b & E1 & E2 & _ & E3 & E4 & _).
    assert (Hfc' : ∀ u d, (u, d) ∈ fetch_calls (trace l) ++ [(u0, d0)] ->
                          covered final u d).
    { intros u d [Hin | Hin%list_elem_of_singleton]%elem_of_app; [eauto|].
      by injection Hin as -> ->. }
    destruct res as [[data links]|].
    + cbn zeta in Hit. rewrite Hit. clear Hit.
      match goal with |- dominated _ _ (mkLoop _ ?q' _ _) =>
        destruct (fetch_trace_proj c1 (trace l) u0 d0 ev b q' E1 E2 E3 E4)
          as (_ & P2 & _) end.
      split; cbn [trace crawl_queue]; rewrite ?P2; [done|].
      intros _ u d Hin Hd.
      assert (Hold : (u, d) ∈ q -> covered final u d).
      { intros Hin'. apply Hqu; [rewrite Hq; by right | done]. }
      destruct (d0 <? max_depth c1)%Z eqn:Hd0lt; [|by apply Hold].
      apply elem_of_app in Hin as [Hin | Hin]; [by apply Hold|].
      apply list_elem_of_fmap in Hin as (v & [= -> ->] & Hin).
      apply list_elem_of_filter in Hin as [_ Hin]. apply elem_of_elements in Hin.
      destruct (fetch_page_inv _ _ _ _ _ _ _ Hf)
        as (b' & ev0 & _ & _ & _ & Hsome & _).
      destruct (Hsome data links eq_refl) as (_ & r & Hok & -> & _).
      rewrite Hlinks in Hin. destruct Hcov as (d' & Hd' & Hle).
      destruct (Hclosed u0 d' r v Hd' ltac:(lia) Hok Hin)
        as [(d'' & Hd'' & Hle') | Hqin].
      * exists d''. split; [done | lia].
      * rewrite Hempty in Hqin. by apply not_elem_of_nil in Hqin.
    + rewrite Hit. clear Hit.
      destruct (fetch_trace_proj c1 (trace l) u0 d0 ev b q E1 E2 E3 E4)
        as (_ & P2 & _).
      split; cbn [trace crawl_queue]; rewrite ?P2; [done|].
      intros _ u d Hin. apply Hqu. rewrite Hq. by right.
Qed.

Lemma dominated_run fuel :
  dominated c1 final (crawl_start c1 initial_state) ->
  dominated c1 final (crawl_run env c1 fuel).
Proof.
  intros H0. unfold crawl_run.
  apply (crawl_loop_ind env c1 (fun l => basic c1 l ∧ dominated c1 final l)).
  - split; [apply basic_start | done].
  - intros l [HB HD] Hc. split; [by apply basic_step | by apply dominated_step].
Qed.

End Dominated.

Lemma fetch_calls_prefix t1 t2 x :
  t1 `prefix_of` t2 -> x ∈ fetch_calls t1 -> x ∈ fetch_calls t2.
Proof.
  intros [k ->] Hx. unfold fetch_calls in *. rewrite omap_app.
  apply elem_of_app. by left.
Qed.

(** A crawl that ran at all, with a depth limit that admits the seed, handed
    the seed to the fetcher. *)
Lemma seed_fetched env cfg n :
  crawl_queue (crawl_run env cfg n) = [] ->
  (0 < max_pages cfg)%Z -> (0 <= max_depth cfg)%Z ->
  (start_url cfg, 0%Z) ∈ fetch_calls (trace (crawl_run env cfg n)).
Proof.
  intros Hq Hp Hd. destruct n as [|n]; [done|].
  unfold crawl_run in *.
  set (l0 := crawl_start cfg initial_state) in *.
  assert (Hc : loop_cond cfg l0 = true).
  { unfold loop_cond. cbn. lia. }
  rewrite crawl_loop_S in * by done.
  eapply fetch_calls_prefix; [apply crawl_loop_trace_prefix|].
  destruct (iteration_cases env cfg l0 (start_url cfg) 0%Z [] eq_refl) as
    [[[Hin | Hgt] _] | (_ & _ & res & self' & ev & Hf & Hit)].
  - by apply not_elem_of_empty in Hin.
  - lia.
  - destruct (fetch_page_events _ _ _ _ _ _ _ Hf)
      as (_ & _ & _ & b & E1 & E2 & _ & E3 & E4 & _).
    destruct res as [[data links]|]; cbn zeta in Hit; rewrite Hit; cbn [trace];
      match goal with |- context [rate_limit cfg ?q'] =>
        destruct (fetch_trace_proj cfg (trace l0) (start_url cfg) 0%Z ev b q'
                    E1 E2 E3 E4) as (_ & P2 & _) end;
      rewrite P2; apply elem_of_app; right; by left.
Qed.

End CompareFacts.

(** ** The claims of the specification *)
Module Claims.
Import Str UrlLib Crawler Trace ScopeSpec Invariants CountSpec Scenarios.
Import UrlShape Compare Domain.
Import StrFacts UrlFacts MethodFacts LoopFacts CompareFacts.

Lemma NoDup_fst_functional {A B} (l : list (A * B)) x y1 y2 :
  NoDup l.*1 -> (x, y1) ∈ l -> (x, y2) ∈ l -> y1 = y2.
Proof.
  induction l as [|[a b] l IH]; cbn; intros Hnd H1 H2.
  - by apply not_elem_of_nil in H1.
  - apply NoDup_cons in Hnd as [Hna Hnd].
    apply elem_of_cons in H1 as [H1|H1], H2 as [H2|H2]; simplify_eq; auto.
    + exfalso. apply Hna. apply list_elem_of_fmap. by exists (a, y2).
    + exfalso. apply Hna. apply list_elem_of_fmap. by exists (a, y1).
Qed.

Lemma StronglySorted_lookup_lt {A} (R : relation A) (l : list A) i j a b :
  StronglySorted R l -> i < j -> l !! i = Some a -> l !! j = Some b -> R a b.
Proof.
  intros Hs. revert i j. induction Hs as [|x l Hs IH Hall]; intros i j Hij Hi Hj.
  - done.
  - destruct j as [|j]; [lia|]. destruct i as [|i]; cbn in *.
    + simplify_eq. rewrite Forall_forall in Hall. apply Hall.
      by eapply list_elem_of_lookup_2.
    + apply (IH i j); [lia | done | done].
Qed.

Lemma init_inv seed md dl mp rr allowed words cfg :
  __init__ seed md dl mp rr allowed words = Some cfg ->
  max_depth cfg = md ∧ max_pages cfg = mp ∧ delay cfg = dl ∧
  respect_robots cfg = rr ∧
  search_words cfg = match words with Some ws => map lower ws | None => [] end.
Proof.
  unfold __init__. destruct (_normalize_url seed); [|done].
  destruct (urlparse _); [|done]. by intros [= <-].
Qed.

Lemma crawl_result env cfg fuel rs :
  crawl env cfg fuel = Some rs -> rs = results (crawl_run env cfg fuel).
Proof.
  unfold crawl, crawl_run, results. destruct (loop_cond _ _); [done|].
  by intros [= <-].
Qed.

(** C6 (amended): the result holds at most [max (0, max_pages)] records,
    that is at most [max_pages] for a page budget that is not negative, and
    every record was fetched from a queue entry of depth at most
    [max_depth]; that depth is unique. *)
Theorem results_within_limits env cfg fuel :
  let l := crawl_run env cfg fuel in
  (Z.of_nat (length (results l)) <= Z.max 0 (max_pages cfg))%Z ∧
  ((0 <= max_pages cfg)%Z ->
   (Z.of_nat (length (results l)) <= max_pages cfg)%Z) ∧
  ∀ r, r ∈ results l ->
    ∃ d, (url r, d) ∈ fetch_calls (trace l) ∧ (0 <= d <= max_depth cfg)%Z ∧
         ∀ d', (url r, d') ∈ fetch_calls (trace l) -> d' = d.
Proof.
  intros l. pose proof (basic_run env cfg fuel) as HB. fold l in HB.
  destruct HB as [Hpg Hbud _ Hnd _ Hget Hres _ Hdep _ _ _ _].
  split; [lia|]. split; [lia|]. intros r Hr.
  assert (Hin : url r ∈ (fetch_calls (trace l)).*1).
  { eapply elem_of_sublist; [|exact Hget].
    eapply elem_of_sublist; [|exact Hres]. by apply list_elem_of_fmap_2. }
  apply list_elem_of_fmap in Hin as ([u d] & Hu & Hin). cbn in Hu. subst u.
  exists d. split; [done|]. split; [eauto|].
  intros d' Hd'. by eapply NoDup_fst_functional.
Qed.

Lemma results_within_limits_witness :
  (0 <= max_pages diamond_cfg)%Z ∧
  (Z.of_nat (length (results (crawl_run diamond diamond_cfg 3)))
   <= max_pages diamond_cfg)%Z.
Proof.
  assert (H : (0 <= max_pages diamond_cfg)%Z) by (vm_compute; discriminate).
  split; [exact H|].
  exact (proj1 (proj2 (results_within_limits diamond diamond_cfg 3)) H).
Defined.

(** C6 (as stated) fails for a negative page budget: the loop never runs,
    and the empty result is longer than the budget. *)
Lemma negative_budget_exceeded :
  ∃ rs, crawl diamond negative_budget_cfg 0 = Some rs ∧
        ¬ (Z.of_nat (length rs) <= max_pages negative_budget_cfg)%Z.
Proof.
  exists []. split; [vm_compute; reflexivity|]. vm_compute. intros H. by apply H.
Qed.

(** C7: no URL is handed to the fetcher twice, no URL is requested twice,
    and no URL occurs twice in the result. *)
Theorem fetched_at_most_once env cfg fuel :
  let l := crawl_run env cfg fuel in
  NoDup (fetch_calls (trace l)).*1 ∧
  NoDup (gets (trace l)) ∧
  NoDup (url <$> results l).
Proof.
  intros l. pose proof (basic_run env cfg fuel) as HB. fold l in HB.
  destruct HB as [_ _ _ Hnd _ Hget Hres _ _ _ _ _ _].
  assert (NoDup (gets (trace l))) by (by eapply sublist_NoDup).
  split; [done|]. split; [done|]. by eapply sublist_NoDup.
Qed.

(** C4: the depths of the entries popped from the queue never decrease, so
    an entry of depth [d] is popped before every entry of depth [d + 1]. *)
Theorem breadth_first_order env cfg fuel :
  let t := trace (crawl_run env cfg fuel) in
  StronglySorted Z.le (pops t).*2 ∧
  ∀ i j u v d,
    pops t !! i = Some (u, d) -> pops t !! j = Some (v, (d + 1)%Z) -> i < j.
Proof.
  intros t. destruct (bfs_run env cfg fuel) as [k [Hs _ _ _ _]]. fold t in Hs.
  split; [done|]. intros i j u v d Hi Hj.
  destruct (decide (i < j)) as [|Hge]; [done|]. exfalso.
  assert (Hi' : (pops t).*2 !! i = Some d) by (by rewrite list_lookup_fmap, Hi).
  assert (Hj' : (pops t).*2 !! j = Some (d + 1)%Z)
    by (by rewrite list_lookup_fmap, Hj).
  destruct (decide (i = j)) as [->|Hne]; [rewrite Hi' in Hj'; simplify_eq; lia|].
  pose proof (StronglySorted_lookup_lt Z.le _ j i _ _ Hs ltac:(lia) Hj' Hi').
  lia.
Qed.

Lemma breadth_first_order_witness :
  let t := trace (crawl_run diamond diamond_cfg 3) in
  pops t !! 0 = Some (lit "https://example.com", 0%Z) ∧
  pops t !! 1 = Some (lit "https://example.com/b", (0 + 1)%Z) ∧
  0 < 1.
Proof.
  split; [vm_compute; reflexivity|]. split; [vm_compute; reflexivity|].
  apply (proj2 (breadth_first_order diamond diamond_cfg 3) 0 1
           (lit "https://example.com") (lit "https://example.com/b") 0%Z);
    vm_compute; reflexivity.
Defined.

Lemma endswith_spec p s : endswith p s = true <-> ends_with p s.
Proof.
  unfold endswith, ends_with. rewrite andb_true_iff, Nat.leb_le. split.
  - intros [Hle [t Ht]%startswith_app].
    exists (take (length s - length p) s).
    assert (Hlen : length (drop (length s - length p) s) = length p)
      by (rewrite length_drop; lia).
    rewrite Ht, length_app in Hlen. destruct t; [|cbn in Hlen; lia].
    rewrite app_nil_r in Ht.
    rewrite <- (take_drop (length s - length p) s) at 1. by rewrite Ht.
  - intros [pre ->]. rewrite length_app. split; [lia|].
    replace (length pre + length p - length p) with (length pre) by lia.
    rewrite drop_app_length. apply startswith_app. exists [].
    by rewrite app_nil_r.
Qed.

(** [_is_valid_url] is the Scope Filter. *)
Lemma is_valid_url_spec cfg u : _is_valid_url cfg u = true <-> in_scope cfg u.
Proof.
  unfold _is_valid_url, in_scope. destruct (urlparse u) as [p|];
    [|split; [done | by intros (? & ? & _)]].
  destruct (decide (scheme p ∈ [lit "http"; lit "https"])) as [Hs|Hs].
  2:{ rewrite (bool_decide_eq_false_2 _ Hs). cbn [negb]. split; [done|].
      intros (p' & [= <-] & Hp & _). exfalso. apply Hs.
      destruct Hp as [-> | ->]; [left | right; left]. }
  rewrite (bool_decide_eq_true_2 _ Hs). cbn [negb].
  destruct (decide (netloc p ∈ allowed_domains cfg)) as [Hn|Hn].
  2:{ rewrite (bool_decide_eq_false_2 _ Hn). cbn [negb]. split; [done|].
      by intros (p' & [= <-] & _ & Hp & _). }
  rewrite (bool_decide_eq_true_2 _ Hn). cbn [negb].
  rewrite negb_true_iff, <- not_true_iff_false, existsb_exists. split.
  - intros Hno. exists p. split; [done|]. split.
    { apply elem_of_cons in Hs as [?|Hs]; [by left|].
      apply list_elem_of_singleton in Hs. by right. }
    split; [done|]. intros ext Hext Hend. apply Hno. exists ext.
    split; [by apply list_elem_of_In | by apply endswith_spec].
  - intros (p' & [= <-] & _ & _ & Hno) (ext & Hext & Hend).
    apply (Hno ext); [by apply list_elem_of_In | by apply endswith_spec].
Qed.

(** C1 (amended): every URL in the result other than the seed passed the
    Scope Filter, and every URL in the result, the seed included, was
    let through by the Robots Gate in the one call that fetched it. *)
Theorem results_in_scope env cfg fuel r :
  let l := crawl_run env cfg fuel in
  r ∈ results l ->
  (url r = start_url cfg ∨ in_scope cfg (url r)) ∧
  (url r, true) ∈ gates (trace l) ∧
  (url r, false) ∉ gates (trace l).
Proof.
  intros l Hr. pose proof (basic_run env cfg fuel) as HB. fold l in HB.
  destruct HB as [_ _ _ Hnd Hgt _ _ Hgate _ _ _ Hsc _].
  split; [|split].
  - destruct (Hsc r Hr) as [?|?]; [by left | right; by apply is_valid_url_spec].
  - by apply Hgate.
  - intros Hf. rewrite <- Hgt in Hnd.
    pose proof (NoDup_fst_functional _ _ _ _ Hnd (Hgate r Hr) Hf). done.
Qed.

Lemma results_in_scope_witness :
  let l := crawl_run offsite_web offsite_cfg 2 in
  ∃ r, r ∈ results l ∧ url r = lit "https://www.example.com/" ∧
       (url r = start_url offsite_cfg ∨ in_scope offsite_cfg (url r)) ∧
       (url r, true) ∈ gates (trace l) ∧
       (url r, false) ∉ gates (trace l).
Proof.
  intros l.
  assert (Hr : record_of offsite_web offsite_cfg (lit "https://www.example.com/")
                 (html "Cat cat CATs" []) ∈ results l).
  { vm_compute. right. left. }
  eexists. split; [exact Hr|]. split; [reflexivity|].
  exact (results_in_scope offsite_web offsite_cfg 2 _ Hr).
Defined.

(** C1 (as stated) fails for the seed: a seed outside the allowed domains
    is fetched and recorded. *)
Lemma seed_outside_scope :
  ∃ rs r, crawl offsite_web offsite_cfg 3 = Some rs ∧ r ∈ rs ∧
          url r = start_url offsite_cfg ∧
          _is_valid_url offsite_cfg (url r) = false ∧
          ¬ in_scope offsite_cfg (url r).
Proof.
  eexists. exists (record_of offsite_web offsite_cfg (lit "https://example.com")
            (html "" ["https://www.example.com/"%string])).
  split; [vm_compute; reflexivity|]. split; [left|].
  split; [vm_compute; reflexivity|].
  assert (Hv : _is_valid_url offsite_cfg (lit "https://example.com") = false)
    by (vm_compute; reflexivity).
  split; [exact Hv|]. intros Hin%is_valid_url_spec. cbn [url record_of] in Hin.
  congruence.
Qed.

(** C5 (amended): an iteration that discards its entry emits no sleep; an
    iteration that calls the fetcher sleeps for the configured delay, as
    its last action, exactly when the frontier is non-empty after it. *)
Theorem sleep_only_after_fetch env cfg l :
  loop_cond cfg l = true ->
  let l' := fst (loop_body env cfg l) in
  let ev := snd (loop_body env cfg l) in
  (fetch_calls ev = [] -> sleeps ev = []) ∧
  (crawl_queue l' = [] -> sleeps ev = []) ∧
  (fetch_calls ev ≠ [] -> crawl_queue l' ≠ [] ->
     sleeps ev = [delay cfg] ∧ last ev = Some (EvSleep (delay cfg))).
Proof.
  intros Hc. destruct (loop_cond_true _ _ Hc) as [(u & d & q & Hq) _].
  unfold loop_body. rewrite Hq.
  destruct (bool_decide _); [cbn; done|].
  destruct (_ >? _)%Z; [cbn; done|].
  destruct (_fetch_page _ _ _ _) as [[res self'] ev0] eqn:Hf.
  destruct (fetch_page_events _ _ _ _ _ _ _ Hf)
    as (_ & _ & _ & b & _ & _ & Hsl & _).
  assert (Hgen : ∀ q', sleeps ([EvPop u d; EvFetchPage u d] ++ ev0 ++
                       rate_limit cfg q') = sleeps (rate_limit cfg q')).
  { intros q'. unfold sleeps in *. by rewrite !omap_app, Hsl. }
  assert (Hlast : ∀ q', q' ≠ [] ->
            last ([EvPop u d; EvFetchPage u d] ++ ev0 ++ rate_limit cfg q')
            = Some (EvSleep (delay cfg))).
  { intros q' Hq'. destruct q' as [|x q']; [done|]. cbn [rate_limit].
    by rewrite !app_assoc, last_snoc. }
  destruct res as [[data links]|]; cbn [fst snd crawl_queue];
    rewrite Hgen; (split; [done|]); split.
  - by intros ->.
  - intros _ Hne. split; [|by apply Hlast].
    by destruct (if (d <? max_depth cfg)%Z then _ else _).
  - by intros ->.
  - intros _ Hne. split; [|by apply Hlast]. by destruct q.
Qed.

Lemma sleep_only_after_fetch_witness :
  loop_cond diamond_cfg (crawl_run diamond diamond_cfg 1) = true ∧
  sleeps (snd (loop_body diamond diamond_cfg (crawl_run diamond diamond_cfg 1)))
  = [delay diamond_cfg].
Proof.
  assert (H : loop_cond diamond_cfg (crawl_run diamond diamond_cfg 1) = true)
    by (vm_compute; reflexivity).
  split; [exact H|].
  apply (proj2 (proj2 (sleep_only_after_fetch diamond diamond_cfg _ H)));
    vm_compute; discriminate.
Defined.

(** C5 (as stated) fails: the sixth iteration on the diamond pops a
    duplicate, leaves a non-empty frontier, and does not sleep. *)
Lemma discard_skips_sleep :
  let l := crawl_run diamond diamond_cfg 5 in
  loop_cond diamond_cfg l = true ∧
  crawl_queue (fst (loop_body diamond diamond_cfg l)) ≠ [] ∧
  sleeps (snd (loop_body diamond diamond_cfg l)) = [].
Proof.
  vm_compute. split; [reflexivity|]. split; [discriminate | reflexivity].
Qed.

(** The robots.txt URL [_can_fetch] reads for a parsed URL. *)
Lemma can_fetch_cached env cfg self u parsed rp :
  respect_robots cfg = true -> urlparse u = Some parsed ->
  robots_cache self !! netloc parsed = Some rp ->
  _can_fetch env cfg self u = (can_fetch rp user_agent u, self, []).
Proof. intros Hr Hp Hc. unfold _can_fetch. by rewrite Hr, Hp, Hc. Qed.

Lemma iteration_cache env cfg l :
  robots_cache (self_ l) ⊆ robots_cache (self_ (crawl_iteration env cfg l)).
Proof.
  destruct (crawl_queue l) as [|[u d] q] eqn:Hq.
  { unfold crawl_iteration, loop_body. by rewrite Hq. }
  destruct (iteration_cases env cfg l u d q Hq) as
    [[_ ->] | (_ & _ & res & self' & ev & Hf & Hit)]; [done|].
  apply fetch_page_events in Hf as (_ & _ & Hsub & _).
  destruct res as [[data links]|]; cbn zeta in Hit; by rewrite Hit.
Qed.

Lemma crawl_loop_cache env cfg n l :
  robots_cache (self_ l) ⊆ robots_cache (self_ (crawl_loop env cfg n l)).
Proof.
  revert l. induction n as [|n IH]; intros l; cbn; [done|].
  destruct (loop_cond cfg l); [|done].
  etrans; [apply iteration_cache | apply IH].
Qed.

(** C2 (amended): when reading robots.txt raises, the gate answers true
    and leaves the object as it was, so nothing is cached and the next
    query for the host reads again; a read that returns is cached; a cached
    policy answers without a read; cache entries stay as they are to the
    end of the crawl. *)
Theorem robots_failure_not_cached env cfg self u parsed :
  respect_robots cfg = true ->
  urlparse u = Some parsed ->
  let robots_url :=
    scheme parsed ++ lit "://" ++ netloc parsed ++ lit "/robots.txt" in
  (robots_cache self !! netloc parsed = None ->
   robots_read env robots_url = None ->
   _can_fetch env cfg self u = (true, self, [EvRobotsRead robots_url])) ∧
  (∀ rp, robots_cache self !! netloc parsed = None ->
         robots_read env robots_url = Some rp ->
         _can_fetch env cfg self u =
         (can_fetch rp user_agent u,
          mkState (visited_urls self) (crawled_data self)
            (<[netloc parsed := rp]> (robots_cache self)),
          [EvRobotsRead robots_url])) ∧
  (∀ rp, robots_cache self !! netloc parsed = Some rp ->
         _can_fetch env cfg self u = (can_fetch rp user_agent u, self, [])) ∧
  (∀ n m host rp,
     robots_cache (self_ (crawl_run env cfg n)) !! host = Some rp ->
     robots_cache (self_ (crawl_run env cfg (n + m))) !! host = Some rp).
Proof.
  intros Hr Hp robots_url. split; [|split; [|split]].
  - intros Hc Hread. unfold _can_fetch. rewrite Hr, Hp, Hc. cbn [negb].
    fold robots_url. by rewrite Hread.
  - intros rp Hc Hread. unfold _can_fetch. rewrite Hr, Hp, Hc. cbn [negb].
    fold robots_url. by rewrite Hread.
  - intros rp Hc. by apply (can_fetch_cached env cfg self u parsed).
  - intros n m host rp Hc. unfold crawl_run. rewrite crawl_loop_add.
    eapply lookup_weaken; [exact Hc | apply crawl_loop_cache].
Qed.

Lemma robots_failure_not_cached_witness :
  _can_fetch (web [] None) (budget_cfg true) initial_state
    (lit "https://example.com/")
  = (true, initial_state,
     [EvRobotsRead (lit "https://example.com/robots.txt")]).
Proof.
  refine (proj1 (robots_failure_not_cached (web [] None) (budget_cfg true)
            initial_state (lit "https://example.com/")
            (mkParseResult (lit "https") (lit "example.com") (lit "/") [] [] [])
            _ _) _ _); vm_compute; reflexivity.
Defined.

(** C2 (as stated) fails: after a failed read nothing is cached for the
    host, and the second query reads robots.txt again. *)
Lemma robots_failure_retried :
  let env := web [] None in
  let cfg := budget_cfg true in
  let u := lit "https://example.com/" in
  let '(_, self1, _) := _can_fetch env cfg initial_state u in
  robots_cache self1 !! lit "example.com" = None ∧
  _can_fetch env cfg self1 u
  = (true, self1, [EvRobotsRead (lit "https://example.com/robots.txt")]).
Proof. vm_compute. split; reflexivity. Qed.

(** C10: the keys of [word_matches] of every record are exactly the
    configured terms, lower-cased; without terms the mapping is empty. *)
Theorem word_matches_keys env seed md dl mp rr allowed words cfg fuel r :
  __init__ seed md dl mp rr allowed words = Some cfg ->
  r ∈ results (crawl_run env cfg fuel) ->
  dom (word_matches r) = list_to_set (map lower (default [] words)) ∧
  (default [] words = [] -> word_matches r = ∅).
Proof.
  intros (_ & _ & _ & _ & Hw)%init_inv Hr.
  destruct (basic_run env cfg fuel) as [_ _ _ _ _ _ _ _ _ _ _ _ Hdom].
  specialize (Hdom r Hr).
  assert (Hsw : search_words cfg = map lower (default [] words))
    by (rewrite Hw; by destruct words).
  rewrite Hsw in Hdom. split; [done|].
  intros He. rewrite He in Hdom. cbn in Hdom. by apply dom_empty_inv_L.
Qed.

Lemma word_matches_keys_witness :
  ∃ r, r ∈ results (crawl_run offsite_web offsite_cfg 2) ∧
       dom (word_matches r) = list_to_set (map lower [lit "Cat"]).
Proof.
  assert (Hr : record_of offsite_web offsite_cfg (lit "https://example.com")
                 (html "" ["https://www.example.com/"%string])
               ∈ results (crawl_run offsite_web offsite_cfg 2)).
  { vm_compute. left. }
  eexists. split; [exact Hr|].
  refine (proj1 (word_matches_keys offsite_web (lit "example.com") 2 0 10 true
            (Some [lit "www.example.com"]) (Some [lit "Cat"]) offsite_cfg 2 _
            _ Hr)).
  vm_compute. reflexivity.
Defined.

(** C9 (amended): for ASCII text and ASCII terms.  Without configured
    terms the Content Searcher returns the empty mapping; otherwise it maps
    every configured term, lower-cased, to the number [str.count] finds in
    the lower-cased text, which is the largest number of non-overlapping
    occurrences of the term in the text up to letter case. *)
Theorem search_content_counts seed md dl mp rr allowed words cfg text :
  __init__ seed md dl mp rr allowed words = Some cfg ->
  is_ascii text = true ->
  Forall (fun w => is_ascii w = true) (default [] words) ->
  let found := _search_content cfg text in
  (default [] words = [] -> found = ∅) ∧
  (∀ w, w ∈ default [] words ->
     ∃ k, found !! lower w = Some k ∧ nonoverlapping_count_ci w text k) ∧
  (∀ w k, found !! w = Some k -> ∃ w0, w0 ∈ default [] words ∧ w = lower w0).
Proof.
  intros (_ & _ & _ & _ & Hw)%init_inv _ _ found.
  assert (Hsw : search_words cfg = map lower (default [] words))
    by (rewrite Hw; by destruct words).
  split; [|split].
  - intros He. subst found. unfold _search_content. by rewrite Hsw, He.
  - intros w Hin. exists (count (lower w) (lower text)).
    split; [|apply count_lower_ci].
    subst found. rewrite search_content_lookup, Hsw.
    rewrite bool_decide_eq_true_2; [done|].
    apply list_elem_of_In, in_map, list_elem_of_In, Hin.
  - intros w k. subst found. rewrite search_content_lookup, Hsw.
    destruct (decide (w ∈ map lower (default [] words))) as [Hin|Hnin].
    + intros _. apply list_elem_of_In, in_map_iff in Hin as (w0 & <- & Hin).
      exists w0. split; [by apply list_elem_of_In | done].
    + by rewrite (bool_decide_eq_false_2 _ Hnin).
Qed.

Lemma search_content_counts_witness :
  __init__ (lit "example.com") 2 0 10 true (Some [lit "www.example.com"])
    (Some [lit "Cat"]) = Some offsite_cfg ∧
  is_ascii (lit "Cat cat CATs") = true ∧
  ∃ k, _search_content offsite_cfg (lit "Cat cat CATs") !! lower (lit "Cat")
       = Some k ∧
       nonoverlapping_count_ci (lit "Cat") (lit "Cat cat CATs") k.
Proof.
  assert (H : __init__ (lit "example.com") 2 0 10 true
                (Some [lit "www.example.com"]) (Some [lit "Cat"])
              = Some offsite_cfg) by (vm_compute; reflexivity).
  assert (Ht : is_ascii (lit "Cat cat CATs") = true) by reflexivity.
  assert (Hw : Forall (fun w => is_ascii w = true)
                 (default [] (Some [lit "Cat"]))).
  { repeat constructor. }
  split; [exact H|]. split; [exact Ht|].
  apply (proj1 (proj2 (search_content_counts _ _ _ _ _ _ _ _
                         (lit "Cat cat CATs") H Ht Hw))).
  left.
Defined.

(** C9 (as stated) fails beyond ASCII, where [str.lower] does not act
    letter by letter.  The text is a capital alpha followed by a capital
    sigma, the term a capital sigma: the term occurs in the text as it is,
    but the sigma of the text is lowered to the final sigma and that of the
    term is not, and the count is 0. *)
Lemma final_sigma_not_counted :
  let text := [913; 931]%N in
  let term := [931]%N in
  text = [913%N] ++ term ++ [] ∧
  Wide.lower text = [945; 962]%N ∧
  Wide.search_words_of [term] = [[963%N]] ∧
  Wide._search_content (Wide.search_words_of [term]) text
    !! Wide.lower term = Some 0.
Proof.
  cbv zeta. split; [reflexivity|]. split; [reflexivity|].
  split; [reflexivity|]. vm_compute. reflexivity.
Qed.

(** The example of the spec: "cat" in "Cat cat CATs" counts 3. *)
Example search_cat_example :
  _search_content offsite_cfg (lit "Cat cat CATs") !! lit "cat" = Some 3.
Proof. vm_compute. reflexivity. Qed.







Example normalize_example :
  _normalize_url (lit "Example.COM/Path;v=1?Q=2#Frag")
  = Some (lit "https://example.com/Path;v=1?Q=2").
Proof. vm_compute. reflexivity. Qed.


(** A scheme prefix in another letter case is not recognised: the
    normalizer takes such a URL for one without scheme prefix, and its host
    ends up in the path, where letter case is kept. *)
Lemma uppercase_scheme_keeps_host_case :
  _normalize_url (lit "HTTP://Example.com/")
  = Some (lit "https://http://Example.com/") ∧
  _normalize_url (lit "HTTP://example.com/")
  = Some (lit "https://http://example.com/") ∧
  _normalize_url (lit "HTTP://Example.com/")
  ≠ _normalize_url (lit "HTTP://example.com/").
Proof.
  split; [vm_compute; reflexivity|]. split; [vm_compute; reflexivity|].
  vm_compute. discriminate.
Qed.

(** C3 (amended): when the crawl with robots respect disabled ends with an
    empty frontier, it has called the fetcher, and requested pages, at
    least as often as the crawl with robots respect enabled, however long
    that one has run. *)
Theorem robots_off_fetches_no_less env cfg n m :
  let off := crawl_run env (with_robots false cfg) n in
  let on := crawl_run env (with_robots true cfg) m in
  crawl_queue off = [] ->
  length (gets (trace on)) <= length (gets (trace off)) ∧
  length (fetch_calls (trace on)) <= length (fetch_calls (trace off)).
Proof.
  intros off on Hempty.
  assert (Hclosed : closure env (with_robots false cfg) off)
    by (by apply closure_run).
  assert (Hdom : dominated (with_robots true cfg) off on).
  { apply (dominated_run env (with_robots true cfg) (with_robots false cfg));
      try done.
    split; [intros u d Hin; by apply not_elem_of_nil in Hin|].
    intros Hp u d [= -> ->]%list_elem_of_singleton Hd. exists 0%Z.
    split; [|done].
    by apply (seed_fetched env (with_robots false cfg) n). }
  pose proof (basic_run env (with_robots true cfg) m) as HBon. fold on in HBon.
  pose proof (basic_run env (with_robots false cfg) n) as HBoff.
  fold off in HBoff.
  assert (Hcalls : length (fetch_calls (trace on))
                   <= length (fetch_calls (trace off))).
  { rewrite <- (length_fmap fst (fetch_calls (trace on))),
            <- (length_fmap fst (fetch_calls (trace off))).
    apply submseteq_length, NoDup_submseteq; [apply (b_calls _ _ HBon)|].
    intros u ([u' d] & -> & Hin)%list_elem_of_fmap.
    destruct (proj1 Hdom u' d Hin) as (d' & Hd' & _).
    apply list_elem_of_fmap. by exists (u', d'). }
  split; [|done].
  unfold off. rewrite (gets_off env (with_robots false cfg) eq_refl n).
  fold off. rewrite length_fmap.
  etrans; [|exact Hcalls].
  rewrite <- (length_fmap fst (fetch_calls (trace on))).
  apply sublist_length, (b_gets _ _ HBon).
Qed.

Lemma robots_off_fetches_no_less_witness :
  crawl_queue (crawl_run diamond (with_robots false diamond_cfg) 9) = [] ∧
  length (gets (trace (crawl_run diamond (with_robots true diamond_cfg) 9)))
  <= length (gets (trace (crawl_run diamond (with_robots false diamond_cfg) 9))).
Proof.
  assert (H : crawl_queue (crawl_run diamond (with_robots false diamond_cfg) 9)
              = []) by (vm_compute; reflexivity).
  split; [exact H|].
  exact (proj1 (robots_off_fetches_no_less diamond diamond_cfg 9 9 H)).
Defined.

(** C3 (as stated) fails: on the budget web the crawl with robots respect
    disabled reaches its page budget after three requests, while the crawl
    with robots respect enabled, kept from one page, goes on to request
    four. *)
Lemma robots_off_fewer_fetches :
  let on := crawl_run budget_web (budget_cfg true) 5 in
  let off := crawl_run budget_web (budget_cfg false) 3 in
  loop_cond (budget_cfg true) on = false ∧
  loop_cond (budget_cfg false) off = false ∧
  length (gets (trace on)) = 4 ∧ length (gets (trace off)) = 3 ∧
  length (fetch_calls (trace on)) = 5 ∧ length (fetch_calls (trace off)) = 3.
Proof. vm_compute. repeat split. Qed.

End Claims.

(** ** One iteration of the crawl, in full *)
Module RunFacts.
Import Str UrlLib Crawler Trace Invariants Observations MethodFacts LoopFacts.

Section Run.
Context (env : Env) (cfg : Config).

(** The paths through [_can_fetch]. *)
Lemma can_fetch_cases self u b self' ev :
  _can_fetch env cfg self u = (b, self', ev) ->
  (b = true ∧ self' = self ∧ ev = [] ∧
   (respect_robots cfg = false ∨ urlparse u = None))
  ∨ (∃ parsed, respect_robots cfg = true ∧ urlparse u = Some parsed ∧
       ((∃ rp, robots_cache self !! netloc parsed = Some rp ∧
               b = can_fetch rp user_agent u ∧ self' = self ∧ ev = [])
        ∨ (robots_cache self !! netloc parsed = None ∧
           ∃ r, ev = [EvRobotsRead r] ∧
             ((robots_read env r = None ∧ b = true ∧ self' = self)
              ∨ (∃ rp, robots_read env r = Some rp ∧
                       b = can_fetch rp user_agent u ∧
                       self' = mkState (visited_urls self) (crawled_data self)
                                 (<[netloc parsed := rp]>
                                    (robots_cache self))))))).
Proof.
  unfold _can_fetch. intros H.
  destruct (respect_robots cfg); cbn [negb] in H;
    [|injection H as <- <- <-; left; eauto].
  destruct (urlparse u) as [parsed|];
    [|injection H as <- <- <-; left; eauto].
  right. exists parsed. do 2 (split; [done|]).
  destruct (robots_cache self !! netloc parsed) as [rp|] eqn:Hc.
  { injection H as <- <- <-. left. eauto. }
  right. split; [done|].
  destruct (robots_read env _) as [rp|] eqn:Hr; injection H as <- <- <-;
    eexists; (split; [reflexivity|]); [right | left]; eauto.
Qed.

(** One pass through the loop body: what it pops, what it asks the robots
    gate, what it records and what it enqueues. *)
Lemma iteration_summary l :
  loop_cond cfg l = true ->
  ∃ u d q,
    crawl_queue l = (u, d) :: q ∧ (pages_crawled l < max_pages cfg)%Z ∧
    ((((u ∈ visited_urls (self_ l)) ∨ (max_depth cfg < d)%Z) ∧
      crawl_iteration env cfg l =
        mkLoop (self_ l) q (pages_crawled l) (trace l ++ [EvPop u d]))
     ∨
     ((u ∉ visited_urls (self_ l)) ∧ (d <= max_depth cfg)%Z ∧
      ∃ b self' ev0 new q',
        _can_fetch env cfg
          (mkState (visited_urls (self_ l) ∪ {[ u ]})
             (crawled_data (self_ l)) (robots_cache (self_ l))) u
        = (b, self', ev0) ∧
        crawl_iteration env cfg l =
          mkLoop (mkState (visited_urls (self_ l) ∪ {[ u ]})
                    (crawled_data (self_ l) ++ new) (robots_cache self'))
            q' (pages_crawled l + Z.of_nat (length new))
            (trace l ++ [EvPop u d; EvFetchPage u d] ++ ev0 ++
             gate_events u b ++ rate_limit cfg q') ∧
        ((new = [] ∧ q' = q ∧ (b = true -> ∀ r, ¬ page_ok env u r))
         ∨ (∃ r, b = true ∧ page_ok env u r ∧
                 new = [record_of env cfg u r] ∧
                 q' = if (d <? max_depth cfg)%Z
                      then enqueue_links (visited_urls (self_ l) ∪ {[ u ]}) d
                             (_extract_links env cfg (html_hrefs r) u) q
                      else q)))).
Proof.
  intros Hc. destruct (loop_cond_true _ _ Hc) as [(u & d & q & Hq) Hlt].
  exists u, d, q. do 2 (split; [done|]).
  destruct (iteration_cases env cfg l u d q Hq) as
    [[Hskip ->] | (Hnv & Hd & res & self' & ev & Hf & Hit)]; [by left|].
  right. do 2 (split; [done|]).
  destruct (fetch_page_inv _ _ _ _ _ _ _ Hf)
    as (b & ev0 & Hcf & -> & Hno & Hsome & Hall).
  destruct (can_fetch_inv _ _ _ _ _ _ _ Hcf) as (Hv & Hdt & _ & _).
  cbn [visited_urls crawled_data] in Hv, Hdt.
  destruct self' as [v' c' r']. cbn in Hv, Hdt. subst v' c'.
  destruct res as [[data links]|].
  - destruct (Hsome data links eq_refl) as (-> & r & Hok & -> & ->).
    cbn zeta in Hit. cbn [visited_urls crawled_data robots_cache] in Hit.
    eexists true, _, ev0, [record_of env cfg u r], _.
    split; [exact Hcf|]. split.
    + rewrite Hit. cbn [length]. unfold gate_events.
      rewrite <- !app_assoc. reflexivity.
    + right. exists r. done.
  - exists b, (mkState (visited_urls (self_ l) ∪ {[ u ]})
                 (crawled_data (self_ l)) r'), ev0, [], q.
    split; [exact Hcf|]. split.
    + rewrite Hit. cbn [length robots_cache]. rewrite app_nil_r, Z.add_0_r.
      unfold gate_events. rewrite <- !app_assoc. reflexivity.
    + left. do 2 (split; [done|]). intros -> r Hok.
      by specialize (Hall eq_refl r Hok).
Qed.

Lemma rate_limit_last q :
  rate_limit cfg q = match q with [] => [] | _ => [EvSleep (delay cfg)] end.
Proof. by destruct q. Qed.

(** The projections of the events of a fetching iteration. *)
Lemma fetch_trace_all t u d ev0 b q :
  (ev0 = [] ∨ ∃ r, ev0 = [EvRobotsRead r]) ->
  let t' := t ++ [EvPop u d; EvFetchPage u d] ++ ev0 ++
            gate_events u b ++ rate_limit cfg q in
  pops t' = pops t ++ [(u, d)] ∧
  fetch_calls t' = fetch_calls t ++ [(u, d)] ∧
  gates t' = gates t ++ [(u, b)] ∧
  gets t' = gets t ++ (if b then [u] else []) ∧
  robots_fetches t' = robots_fetches t ++ robots_fetches ev0.
Proof.
  intros Hev t'. subst t'.
  unfold pops, fetch_calls, gates, gets, robots_fetches.
  rewrite !omap_app.
  destruct Hev as [-> | [r ->]]; destruct b; destruct q; cbn;
    rewrite ?app_nil_r; done.
Qed.

Lemma pop_trace_reads t u d :
  robots_fetches (t ++ [EvPop u d]) = robots_fetches t.
Proof. unfold robots_fetches. rewrite omap_app. cbn. by rewrite app_nil_r. Qed.

(** *** Invariants read off the summary *)

(** Every record was built from a response that passed the checks of
    [_fetch_page]. *)
Lemma records_ok fuel r :
  r ∈ results (crawl_run env cfg fuel) ->
  ∃ resp, page_ok env (url r) resp ∧ r = record_of env cfg (url r) resp.
Proof.
  revert r. unfold crawl_run.
  apply (crawl_loop_ind env cfg (fun l => ∀ r, r ∈ results l ->
    ∃ resp, page_ok env (url r) resp ∧ r = record_of env cfg (url r) resp)).
  { intros r Hr. by apply not_elem_of_nil in Hr. }
  intros l IH Hc r.
  destruct (iteration_summary l Hc) as (u & d & q & Hq & _ & Hcase).
  destruct Hcase as [[_ ->] | (_ & _ & b & self' & ev0 & new & q' & _ & -> & Hnew)];
    [apply IH|].
  unfold results. cbn [self_ crawled_data].
  intros [Hr | Hr]%elem_of_app; [by apply IH|].
  destruct Hnew as [(-> & _) | (resp & _ & Hok & -> & _)].
  { by apply not_elem_of_nil in Hr. }
  apply list_elem_of_singleton in Hr. subst r. by exists resp.
Qed.

(** Induction over the run, with the bookkeeping invariant at hand. *)
Lemma crawl_run_ind (P : Loop -> Prop) :
  P (crawl_start cfg initial_state) ->
  (∀ l, basic cfg l -> P l -> loop_cond cfg l = true ->
        P (crawl_iteration env cfg l)) ->
  ∀ fuel, P (crawl_run env cfg fuel).
Proof.
  intros H0 Hstep fuel.
  enough (basic cfg (crawl_run env cfg fuel) ∧ P (crawl_run env cfg fuel))
    as [_ ?]; [done|].
  unfold crawl_run.
  apply (crawl_loop_ind env cfg (fun l => basic cfg l ∧ P l)).
  - split; [apply basic_start | done].
  - intros l [HB HP] Hc. split; [by apply basic_step | by apply Hstep].
Qed.

(** Every URL handed to the fetcher is the seed or passed the scope
    filter. *)
Lemma fetch_calls_scope fuel u d :
  (u, d) ∈ fetch_calls (trace (crawl_run env cfg fuel)) ->
  u = start_url cfg ∨ _is_valid_url cfg u = true.
Proof.
  revert u d.
  apply (crawl_run_ind (fun l => ∀ u d, (u, d) ∈ fetch_calls (trace l) ->
    u = start_url cfg ∨ _is_valid_url cfg u = true)).
  { intros u d H. by apply not_elem_of_nil in H. }
  intros l HB IH Hc u d.
  destruct (iteration_summary l Hc) as (u0 & d0 & q & Hq & _ & Hcase).
  destruct Hcase as
    [[_ ->] | (_ & _ & b & self' & ev0 & new & q' & Hcf & -> & _)];
    cbn [trace].
  { destruct (pop_trace_proj (trace l) u0 d0) as (_ & -> & _). apply IH. }
  destruct (can_fetch_inv _ _ _ _ _ _ _ Hcf) as (_ & _ & _ & Hev).
  destruct (fetch_trace_all (trace l) u0 d0 ev0 b q' Hev) as (_ & -> & _).
  intros [Hin | Hin%list_elem_of_singleton]%elem_of_app; [by eapply IH|].
  simplify_eq. apply (b_scope_queue _ _ HB u0 d0). rewrite Hq. left.
Qed.

(** The gate's verdict decides the request: the URLs requested are the
    URLs the gate let through, in order. *)
Lemma gets_are_approved fuel :
  gets (trace (crawl_run env cfg fuel)) =
  (filter (fun p => p.2 = true) (gates (trace (crawl_run env cfg fuel)))).*1.
Proof.
  apply (crawl_run_ind (fun l =>
    gets (trace l) = (filter (fun p => p.2 = true) (gates (trace l))).*1)).
  { done. }
  intros l _ IH Hc.
  destruct (iteration_summary l Hc) as (u0 & d0 & q & Hq & _ & Hcase).
  destruct Hcase as
    [[_ ->] | (_ & _ & b & self' & ev0 & new & q' & Hcf & -> & _)];
    cbn [trace].
  { by destruct (pop_trace_proj (trace l) u0 d0) as (_ & _ & -> & ->). }
  destruct (can_fetch_inv _ _ _ _ _ _ _ Hcf) as (_ & _ & _ & Hev).
  destruct (fetch_trace_all (trace l) u0 d0 ev0 b q' Hev)
    as (_ & _ & -> & -> & _).
  rewrite filter_app, fmap_app, <- IH. by destruct b.
Qed.

(** A crawl of depth 0: the queue holds the seed or nothing, and the seed
    is all that is ever handed to the fetcher. *)
Lemma depth_zero_inv fuel :
  max_depth cfg = 0%Z ->
  let l := crawl_run env cfg fuel in
  (crawl_queue l = [(start_url cfg, 0%Z)] ∧ fetch_calls (trace l) = [])
  ∨ (crawl_queue l = [] ∧
     (fetch_calls (trace l) = [] ∨
      fetch_calls (trace l) = [(start_url cfg, 0%Z)])).
Proof.
  intros Hmd. cbv zeta.
  apply (crawl_run_ind (fun l =>
    (crawl_queue l = [(start_url cfg, 0%Z)] ∧ fetch_calls (trace l) = [])
    ∨ (crawl_queue l = [] ∧
       (fetch_calls (trace l) = [] ∨
        fetch_calls (trace l) = [(start_url cfg, 0%Z)])))).
  { by left. }
  intros l _ IH Hc.
  destruct (iteration_summary l Hc) as (u0 & d0 & q & Hq & _ & Hcase).
  destruct IH as [[Hqueue Hfc] | [Hqueue _]]; [|congruence].
  rewrite Hq in Hqueue. injection Hqueue as -> -> ->.
  destruct Hcase as
    [[_ ->] | (_ & _ & b & self' & ev0 & new & q' & Hcf & -> & Hnew)];
    cbn [trace crawl_queue]; right.
  { destruct (pop_trace_proj (trace l) (start_url cfg) 0%Z) as (_ & -> & _).
    eauto. }
  destruct (can_fetch_inv _ _ _ _ _ _ _ Hcf) as (_ & _ & _ & Hev).
  destruct (fetch_trace_all (trace l) (start_url cfg) 0%Z ev0 b q' Hev)
    as (_ & -> & _).
  rewrite Hfc. split; [|by right].
  destruct Hnew as [(_ & -> & _) | (r & _ & _ & _ & ->)]; [done|].
  by rewrite Hmd.
Qed.

(** What an iteration leaves in place: the results, the visited set, the
    robots cache and the trace are only added to. *)
Lemma iteration_grows l :
  loop_cond cfg l = true ->
  let l' := crawl_iteration env cfg l in
  results l `prefix_of` results l' ∧
  visited_urls (self_ l) ⊆ visited_urls (self_ l') ∧
  robots_cache (self_ l) ⊆ robots_cache (self_ l') ∧
  (pages_crawled l <= pages_crawled l')%Z.
Proof.
  intros Hc. cbv zeta.
  destruct (iteration_summary l Hc) as (u0 & d0 & q & Hq & _ & Hcase).
  destruct Hcase as
    [[_ ->] | (_ & _ & b & self' & ev0 & new & q' & Hcf & -> & _)];
    unfold results; cbn [self_ crawled_data visited_urls robots_cache
                         pages_crawled].
  { done. }
  destruct (can_fetch_inv _ _ _ _ _ _ _ Hcf) as (_ & _ & Hsub & _).
  split; [by apply prefix_app_r|]. split; [set_solver|].
  split; [exact Hsub | lia].
Qed.

Lemma crawl_loop_grows n l :
  let l' := crawl_loop env cfg n l in
  results l `prefix_of` results l' ∧
  visited_urls (self_ l) ⊆ visited_urls (self_ l') ∧
  robots_cache (self_ l) ⊆ robots_cache (self_ l') ∧
  (pages_crawled l <= pages_crawled l')%Z.
Proof.
  cbv zeta. revert l. induction n as [|n IH]; intros l; cbn [crawl_loop].
  { done. }
  destruct (loop_cond cfg l) eqn:Hc; [|done].
  destruct (iteration_grows l Hc) as (H1 & H2 & H3 & H4).
  destruct (IH (crawl_iteration env cfg l)) as (G1 & G2 & G3 & G4).
  split; [by etrans|]. split; [by etrans|]. split; [by etrans | lia].
Qed.

(** The robots cache and the robots.txt requests. *)
Lemma robots_reads_bounds fuel :
  let l := crawl_run env cfg fuel in
  size (robots_cache (self_ l)) <= length (robots_fetches (trace l)) ∧
  length (robots_fetches (trace l)) <= length (fetch_calls (trace l)) ∧
  ((∀ r, robots_read env r ≠ None) ->
   length (robots_fetches (trace l)) = size (robots_cache (self_ l))) ∧
  (respect_robots cfg = false -> robots_fetches (trace l) = []).
Proof.
  cbv zeta.
  apply (crawl_run_ind (fun l =>
    size (robots_cache (self_ l)) <= length (robots_fetches (trace l)) ∧
    length (robots_fetches (trace l)) <= length (fetch_calls (trace l)) ∧
    ((∀ r, robots_read env r ≠ None) ->
     length (robots_fetches (trace l)) = size (robots_cache (self_ l))) ∧
    (respect_robots cfg = false -> robots_fetches (trace l) = []))).
  { cbn. rewrite map_size_empty. done. }
  intros l _ (I1 & I2 & I3 & I4) Hc.
  destruct (iteration_summary l Hc) as (u0 & d0 & q & Hq & _ & Hcase).
  destruct Hcase as
    [[_ ->] | (_ & _ & b & self' & ev0 & new & q' & Hcf & -> & _)];
    cbn [trace self_ robots_cache].
  { rewrite pop_trace_reads.
    by destruct (pop_trace_proj (trace l) u0 d0) as (_ & -> & _). }
  destruct (can_fetch_inv _ _ _ _ _ _ _ Hcf) as (_ & _ & _ & Hev).
  destruct (fetch_trace_all (trace l) u0 d0 ev0 b q' Hev)
    as (_ & -> & _ & _ & ->).
  rewrite !length_app. cbn [length].
  destruct (can_fetch_cases _ _ _ _ _ Hcf) as
    [(_ & -> & -> & _) | (parsed & Hrr & _ & Hcache)].
  { cbn. rewrite app_nil_r. split; [lia|]. split; [lia|]. split; [|done].
    intros H. rewrite <- (I3 H). lia. }
  destruct Hcache as
    [(rp & _ & _ & -> & ->) | (Hnone & r & -> & Hread)].
  { cbn. rewrite app_nil_r. split; [lia|]. split; [lia|].
    split; [|congruence]. intros H. rewrite <- (I3 H). lia. }
  cbn in Hnone.
  change (robots_fetches [EvRobotsRead r]) with [r]. cbn [length].
  destruct Hread as [(Hr & _ & ->) | (rp & Hr & _ & ->)];
    cbn [robots_cache].
  - split; [lia|]. split; [lia|]. split; [|congruence].
    intros H. by destruct (H r).
  - rewrite (map_size_insert_None _ _ _ Hnone).
    split; [lia|]. split; [lia|]. split; [|congruence].
    intros H. rewrite (I3 H). lia.
Qed.

(** The last event of the trace and the state of the queue. *)
Lemma last_event_inv fuel :
  let l := crawl_run env cfg fuel in
  (crawl_queue l = [] -> ∀ d, last (trace l) ≠ Some (EvSleep d)) ∧
  ((0 < max_pages cfg)%Z -> (max_pages cfg <= pages_crawled l)%Z ->
   crawl_queue l ≠ [] -> last (trace l) = Some (EvSleep (delay cfg))).
Proof.
  cbv zeta.
  apply (crawl_run_ind (fun l =>
    (crawl_queue l = [] -> ∀ d, last (trace l) ≠ Some (EvSleep d)) ∧
    ((0 < max_pages cfg)%Z -> (max_pages cfg <= pages_crawled l)%Z ->
     crawl_queue l ≠ [] -> last (trace l) = Some (EvSleep (delay cfg))))).
  { cbn. split; [done | lia]. }
  intros l _ _ Hc.
  destruct (iteration_summary l Hc) as (u0 & d0 & q & Hq & Hlt & Hcase).
  destruct Hcase as
    [[_ ->] | (_ & _ & b & self' & ev0 & new & q' & Hcf & -> & Hnew)];
    cbn [trace crawl_queue pages_crawled].
  { split; [|lia]. intros _ d. by rewrite last_snoc. }
  split.
  - intros -> d. cbn [rate_limit]. rewrite app_nil_r.
    rewrite !app_assoc. unfold gate_events.
    destruct b; rewrite ?app_assoc; [change [EvGate u0 true; EvGet u0]
      with ([EvGate u0 true] ++ [EvGet u0]); rewrite !app_assoc|];
      by rewrite last_snoc.
  - intros _ _ Hne. rewrite rate_limit_last.
    destruct q' as [|x q']; [done|].
    rewrite !app_assoc. by rewrite last_snoc.
Qed.

(** The robots.txt address [_can_fetch] reads for a URL that parses. *)
Lemma can_fetch_read self u b self' ev parsed :
  _can_fetch env cfg self u = (b, self', ev) ->
  respect_robots cfg = true ->
  urlparse u = Some parsed ->
  let r := scheme parsed ++ lit "://" ++ netloc parsed ++ lit "/robots.txt" in
  match robots_cache self !! netloc parsed with
  | Some rp => b = can_fetch rp user_agent u ∧ self' = self
  | None =>
      match robots_read env r with
      | Some rp =>
          b = can_fetch rp user_agent u ∧
          robots_cache self' = <[netloc parsed := rp]> (robots_cache self)
      | None => b = true ∧ self' = self
      end
  end.
Proof.
  unfold _can_fetch. intros H Hrr Hp. rewrite Hrr, Hp in H. cbn [negb] in H.
  cbv zeta. destruct (robots_cache self !! netloc parsed) as [rp|].
  { by injection H as <- <- _. }
  destruct (robots_read env _) as [rp|]; by injection H as <- <- _.
Qed.

(** A host whose robots.txt can be read and denies [u] keeps [u] from ever
    being requested. *)
Lemma denied_inv u parsed fuel :
  respect_robots cfg = true ->
  urlparse u = Some parsed ->
  (∀ sch, ∃ rp,
     robots_read env (sch ++ lit "://" ++ netloc parsed ++ lit "/robots.txt")
       = Some rp ∧
     can_fetch rp user_agent u = false) ->
  let l := crawl_run env cfg fuel in
  (∀ rp, robots_cache (self_ l) !! netloc parsed = Some rp ->
         can_fetch rp user_agent u = false) ∧
  (u, true) ∉ gates (trace l).
Proof.
  intros Hrr Hparse Hdeny. cbv zeta.
  apply (crawl_run_ind (fun l =>
    (∀ rp, robots_cache (self_ l) !! netloc parsed = Some rp ->
           can_fetch rp user_agent u = false) ∧
    (u, true) ∉ gates (trace l))).
  { cbn. split; [|apply not_elem_of_nil]. intros rp H.
    by rewrite lookup_empty in H. }
  intros l _ [I1 I2] Hc.
  destruct (iteration_summary l Hc) as (u0 & d0 & q & Hq & _ & Hcase).
  destruct Hcase as
    [[_ ->] | (_ & _ & b & self' & ev0 & new & q' & Hcf & -> & _)];
    cbn [trace self_ robots_cache].
  { by destruct (pop_trace_proj (trace l) u0 d0) as (_ & _ & -> & _). }
  destruct (can_fetch_inv _ _ _ _ _ _ _ Hcf) as (_ & _ & _ & Hev).
  destruct (fetch_trace_all (trace l) u0 d0 ev0 b q' Hev)
    as (_ & _ & -> & _).
  split.
  - intros rp.
    destruct (can_fetch_cases _ _ _ _ _ Hcf) as
      [(_ & -> & _) | (p & _ & Hp0 & _)]; [apply I1|].
    pose proof (can_fetch_read _ _ _ _ _ p Hcf Hrr Hp0) as Hread.
    cbv zeta in Hread. cbn [robots_cache] in Hread.
    destruct (robots_cache (self_ l) !! netloc p) as [rp0|] eqn:Hl.
    { destruct Hread as [_ ->]. apply I1. }
    destruct (robots_read env _) as [rp0|] eqn:Hr.
    2:{ destruct Hread as [_ ->]. apply I1. }
    destruct Hread as [_ ->].
    destruct (decide (netloc p = netloc parsed)) as [He|Hne].
    + rewrite He, lookup_insert_eq. intros [= <-].
      rewrite He in Hr. destruct (Hdeny (scheme p)) as (rp' & Hr' & Hd).
      rewrite Hr in Hr'. by injection Hr' as ->.
    + rewrite lookup_insert_ne by done. apply I1.
  - intros [Hin | Hin%list_elem_of_singleton]%elem_of_app; [done|].
    injection Hin as <- <-.
    pose proof (can_fetch_read _ _ _ _ _ parsed Hcf Hrr Hparse) as Hread.
    cbv zeta in Hread. cbn [robots_cache] in Hread.
    destruct (robots_cache (self_ l) !! netloc parsed) as [rp0|] eqn:Hl.
    { destruct Hread as [Hb _]. rewrite (I1 _ eq_refl) in Hb. done. }
    destruct (Hdeny (scheme parsed)) as (rp' & Hr' & Hd).
    rewrite Hr' in Hread. destruct Hread as [Hb _]. congruence.
Qed.

(** When reading robots.txt always raises, the gate lets everything
    through and nothing is cached. *)
Lemma unreadable_inv fuel :
  (∀ r, robots_read env r = None) ->
  let l := crawl_run env cfg fuel in
  robots_cache (self_ l) = ∅ ∧
  gets (trace l) = (fetch_calls (trace l)).*1 ∧
  Forall (fun p => p.2 = true) (gates (trace l)).
Proof.
  intros Hread. cbv zeta.
  apply (crawl_run_ind (fun l =>
    robots_cache (self_ l) = ∅ ∧
    gets (trace l) = (fetch_calls (trace l)).*1 ∧
    Forall (fun p => p.2 = true) (gates (trace l)))).
  { cbn. done. }
  intros l _ (I1 & I2 & I3) Hc.
  destruct (iteration_summary l Hc) as (u0 & d0 & q & Hq & _ & Hcase).
  destruct Hcase as
    [[_ ->] | (_ & _ & b & self' & ev0 & new & q' & Hcf & -> & _)];
    cbn [trace self_ robots_cache].
  { by destruct (pop_trace_proj (trace l) u0 d0) as (_ & -> & -> & ->). }
  destruct (can_fetch_inv _ _ _ _ _ _ _ Hcf) as (_ & _ & _ & Hev).
  destruct (fetch_trace_all (trace l) u0 d0 ev0 b q' Hev)
    as (_ & -> & -> & -> & _).
  assert (b = true ∧ robots_cache self' = ∅) as [-> ->].
  { destruct (can_fetch_cases _ _ _ _ _ Hcf) as
      [(-> & -> & _) | (p & _ & _ & Hcache)]; [done|].
    destruct Hcache as
      [(rp & Hl & _) | (_ & r & _ & [(_ & -> & ->) | (rp & Hr & _)])].
    - cbn in Hl. rewrite I1, lookup_empty in Hl. done.
    - done.
    - rewrite Hread in Hr. done. }
  split; [done|]. split.
  - by rewrite fmap_app, I2.
  - apply Forall_app. split; [done|]. by repeat constructor.
Qed.

(** With robots respect disabled the gate lets everything through. *)
Lemma robots_off_inv fuel :
  respect_robots cfg = false ->
  let l := crawl_run env cfg fuel in
  gets (trace l) = (fetch_calls (trace l)).*1 ∧
  Forall (fun p => p.2 = true) (gates (trace l)).
Proof.
  intros Hoff. cbv zeta.
  apply (crawl_run_ind (fun l =>
    gets (trace l) = (fetch_calls (trace l)).*1 ∧
    Forall (fun p => p.2 = true) (gates (trace l)))).
  { cbn. done. }
  intros l _ (I2 & I3) Hc.
  destruct (iteration_summary l Hc) as (u0 & d0 & q & Hq & _ & Hcase).
  destruct Hcase as
    [[_ ->] | (_ & _ & b & self' & ev0 & new & q' & Hcf & -> & _)];
    cbn [trace].
  { by destruct (pop_trace_proj (trace l) u0 d0) as (_ & -> & -> & ->). }
  destruct (can_fetch_inv _ _ _ _ _ _ _ Hcf) as (_ & _ & _ & Hev).
  destruct (fetch_trace_all (trace l) u0 d0 ev0 b q' Hev)
    as (_ & -> & -> & -> & _).
  assert (b = true) as ->.
  { destruct (can_fetch_cases _ _ _ _ _ Hcf) as
      [(-> & _) | (p & ? & _)]; [done | congruence]. }
  split.
  - by rewrite fmap_app, I2.
  - apply Forall_app. split; [done|]. by repeat constructor.
Qed.

End Run.
End RunFacts.

(** ** Link extraction and counting *)
Module LinkFacts.
Import Str UrlLib Crawler Trace StrFacts MethodFacts.

Section Links.
Context (env : Env) (cfg : Config).

Lemma extract_loop_mono base hrefs links :
  links ⊆ extract_loop env cfg base hrefs links.
Proof.
  revert links. induction hrefs as [|h hrefs IH]; intros links; cbn; [done|].
  destruct (nonempty h); [|apply IH].
  destruct (urljoin env base h) as [a|]; [|done].
  destruct (_normalize_url a) as [n|]; [|done].
  etrans; [|apply IH]. destruct (_is_valid_url cfg n); set_solver.
Qed.

(** Where a link of the result comes from. *)
Lemma extract_loop_sound base hrefs links u :
  u ∈ extract_loop env cfg base hrefs links ->
  u ∈ links ∨
  ∃ href a, href ∈ hrefs ∧ href ≠ [] ∧ urljoin env base href = Some a ∧
            _normalize_url a = Some u ∧ _is_valid_url cfg u = true.
Proof.
  revert links. induction hrefs as [|h hrefs IH]; intros links; cbn.
  { by left. }
  assert (Hfwd : ∀ X : gset str, (u ∈ X ∨
      ∃ href a, href ∈ hrefs ∧ href ≠ [] ∧ urljoin env base href = Some a ∧
                _normalize_url a = Some u ∧ _is_valid_url cfg u = true) ->
      u ∈ X ∨
      ∃ href a, href ∈ h :: hrefs ∧ href ≠ [] ∧
                urljoin env base href = Some a ∧
                _normalize_url a = Some u ∧ _is_valid_url cfg u = true).
  { intros X [?|(href & a & Hin & ?)]; [by left|].
    right. exists href, a. split; [by right | done]. }
  destruct (nonempty h) eqn:Hne; [|intros H; apply Hfwd, IH, H].
  destruct (urljoin env base h) as [a|] eqn:Hj; [|by left].
  destruct (_normalize_url a) as [n|] eqn:Hn; [|by left].
  destruct (_is_valid_url cfg n) eqn:Hv; [|intros H; apply Hfwd, IH, H].
  intros [[Hin | ->%elem_of_singleton]%elem_of_union | H]%IH.
  - by left.
  - right. exists h, a. split; [left|]. split; [by destruct h|]. done.
  - apply Hfwd. by right.
Qed.

Lemma extract_loop_size base hrefs links :
  size (extract_loop env cfg base hrefs links) <= size links + length hrefs.
Proof.
  revert links. induction hrefs as [|h hrefs IH]; intros links; cbn; [lia|].
  destruct (nonempty h); [|specialize (IH links); lia].
  destruct (urljoin env base h) as [a|]; [|lia].
  destruct (_normalize_url a) as [n|]; [|lia].
  destruct (_is_valid_url cfg n).
  - specialize (IH (links ∪ {[ n ]})).
    assert (size (links ∪ {[ n ]}) <= size links + 1); [|lia].
    rewrite size_union_alt.
    assert (Hs : size (({[ n ]} : gset str) ∖ links)
                 <= size ({[ n ]} : gset str))
      by (apply subseteq_size, subseteq_difference_l; done).
    rewrite size_singleton in Hs. lia.
  - specialize (IH links). lia.
Qed.

(** When no href makes [urljoin] or the normalizer raise, every in-scope
    link of the page is in the result. *)
Lemma extract_loop_complete base hrefs links :
  (∀ href, href ∈ hrefs -> href ≠ [] ->
     ∃ a n, urljoin env base href = Some a ∧ _normalize_url a = Some n) ->
  ∀ href a u, href ∈ hrefs -> href ≠ [] ->
    urljoin env base href = Some a -> _normalize_url a = Some u ->
    _is_valid_url cfg u = true ->
    u ∈ extract_loop env cfg base hrefs links.
Proof.
  revert links. induction hrefs as [|h hrefs IH]; intros links Hall href a u Hin.
  { by apply not_elem_of_nil in Hin. }
  intros Hne Hj Hn Hv. cbn.
  assert (Hall' : ∀ href, href ∈ hrefs -> href ≠ [] ->
     ∃ a n, urljoin env base href = Some a ∧ _normalize_url a = Some n).
  { intros x Hx. apply Hall. by right. }
  apply elem_of_cons in Hin as [<- | Hin].
  - destruct href as [|c href]; [done|]. cbn [nonempty].
    rewrite Hj, Hn, Hv. apply extract_loop_mono. set_solver.
  - destruct (nonempty h) eqn:Hh; [|by eapply IH].
    destruct (Hall h) as (a' & n' & -> & ->); [left | by destruct h |].
    by eapply IH.
Qed.

(** An href on which [urljoin] or the normalizer raises ends the loop:
    the hrefs after it are not looked at. *)
Lemma extract_loop_stops base h1 bad h2 links :
  bad ≠ [] ->
  (urljoin env base bad = None ∨
   ∃ a, urljoin env base bad = Some a ∧ _normalize_url a = None) ->
  extract_loop env cfg base (h1 ++ bad :: h2) links
  = extract_loop env cfg base h1 links.
Proof.
  intros Hne Hbad. revert links.
  induction h1 as [|h h1 IH]; intros links; cbn.
  - destruct bad as [|c bad]; [done|]. cbn [nonempty].
    destruct Hbad as [-> | (a & -> & ->)]; done.
  - destruct (nonempty h); [|apply IH].
    destruct (urljoin env base h) as [a|]; [|done].
    destruct (_normalize_url a) as [n|]; [|done]. apply IH.
Qed.

End Links.

(** *** [str.count] *)

Lemma startswith_length p s : startswith p s = true -> length p <= length s.
Proof.
  intros (t & ->)%startswith_app. rewrite length_app. lia.
Qed.

Lemma contains_nil w : w ≠ [] -> contains w [] = false.
Proof. by destruct w. Qed.

Lemma count_scan_zero w s k :
  w ≠ [] -> (count_scan w s k = 0 <-> contains w (drop k s) = false).
Proof.
  intros Hw. revert k. induction s as [|c s IH]; intros k.
  - rewrite drop_nil, contains_nil by done. done.
  - destruct k as [|k]; cbn [count_scan drop].
    + change (drop 0 (c :: s)) with (c :: s). cbn [contains].
      destruct (startswith w (c :: s)); cbn [orb]; [done|].
      rewrite (IH 0). by rewrite drop_0.
    + apply IH.
Qed.

Lemma count_scan_bound w s k :
  w ≠ [] -> k <= length s -> count_scan w s k * length w + k <= length s.
Proof.
  intros Hw. assert (0 < length w) by (destruct w; [done | cbn; lia]).
  revert k. induction s as [|c s IH]; intros k Hk; cbn [count_scan length] in *.
  { lia. }
  destruct k as [|k].
  - destruct (startswith w (c :: s)) eqn:Hs.
    + apply startswith_length in Hs. cbn in Hs.
      specialize (IH (length w - 1)). cbn [Init.Nat.mul]. lia.
    + specialize (IH 0). lia.
  - specialize (IH k). lia.
Qed.

Lemma count_zero w s : w ≠ [] -> (count w s = 0 <-> contains w s = false).
Proof.
  intros Hw. unfold count. destruct w as [|a w]; [done|].
  by rewrite count_scan_zero, drop_0.
Qed.

Lemma count_bound w s : count w s * length w <= length s.
Proof.
  destruct w as [|a w]; [cbn; lia|]. unfold count.
  assert (Hne : a :: w ≠ []) by done.
  pose proof (count_scan_bound (a :: w) s 0 Hne). lia.
Qed.

End LinkFacts.

(** ** Parsing a normalized URL again *)
Module ReparseFacts.
Import Str UrlLib Crawler UrlShape PathParams StrFacts UrlFacts.

Lemma break_fst_free P s : free_of P (fst (break P s)) = true.
Proof.
  induction s as [|c s IH]; cbn; [done|].
  destruct (P c) eqn:Hc; [done|].
  destruct (break P s) as [a b]. cbn in *. by rewrite Hc.
Qed.

Lemma break_snd_headed P s : headed_by P (snd (break P s)) = true.
Proof.
  induction s as [|c s IH]; cbn; [done|].
  destruct (P c) eqn:Hc; [done|].
  by destruct (break P s) as [a b].
Qed.

Lemma break_eq P s : s = fst (break P s) ++ snd (break P s).
Proof. pose proof (break_app P s) as H. by destruct (break P s). Qed.

Lemma free_of_cons P c s : free_of P (c :: s) = negb (P c) && free_of P s.
Proof. done. Qed.

Lemma free_of_drop P n s : free_of P s = true -> free_of P (drop n s) = true.
Proof.
  intros H. rewrite <- (take_drop n s), free_of_app in H.
  by apply andb_true_iff in H as [_ H].
Qed.

Lemma free_of_take P n s : free_of P s = true -> free_of P (take n s) = true.
Proof.
  intros H. rewrite <- (take_drop n s), free_of_app in H.
  by apply andb_true_iff in H as [H _].
Qed.

Lemma free_of_removed s : free_of is_unsafe (remove_unsafe s) = true.
Proof.
  unfold free_of, remove_unsafe. induction s as [|c s IH]; cbn; [done|].
  destruct (is_unsafe c) eqn:Hc; cbn; [done|]. by rewrite Hc.
Qed.

Lemma free_of_lower (P : ascii -> bool) s :
  (∀ c, P (lower_char c) = P c) -> free_of P (lower s) = free_of P s.
Proof.
  intros H. unfold free_of. apply forallb_lower. intros c. by rewrite H.
Qed.

(** What [cut] returns. *)
Lemma cut_parts c s a b :
  cut c s = (a, b) ->
  free_of (eqc c) a = true ∧ ((s = a ∧ b = []) ∨ s = a ++ c :: b).
Proof.
  unfold cut. pose proof (break_fst_free (eqc c) s) as Hf.
  pose proof (break_snd_headed (eqc c) s) as Hh.
  pose proof (break_eq (eqc c) s) as He.
  destruct (break (eqc c) s) as [a' b']. cbn in *. intros [= <- <-].
  split; [done|]. destruct b' as [|x b']; cbn.
  - left. by rewrite app_nil_r in He.
  - right. cbn in Hh. apply eqc_true in Hh. by subst x.
Qed.

Lemma free_of_cut P c s a b :
  cut c s = (a, b) -> free_of P s = true ->
  free_of P a = true ∧ free_of P b = true.
Proof.
  intros [_ [[-> ->] | ->]]%cut_parts H; [done|].
  rewrite free_of_app, free_of_cons in H.
  by apply andb_true_iff in H as [? [_ ?]%andb_true_iff].
Qed.

Lemma headed_by_prefix (P Q : ascii -> bool) a b :
  headed_by P (a ++ b) = true -> free_of Q a = true ->
  headed_by (fun c => P c && negb (Q c)) a = true.
Proof.
  destruct a as [|x a]; cbn; [done|]. intros ->.
  by intros [-> _]%andb_true_iff.
Qed.

(** The parts [urlsplit] finds behind "scheme://". *)
Lemma split_body_parts sch B r :
  free_of is_unsafe B = true ->
  split_body sch B = Some r ->
  scheme r = sch ∧ params r = [] ∧
  netloc r = fst (break is_delim B) ∧
  free_of is_delim (netloc r) = true ∧
  free_of is_unsafe (netloc r) = true ∧
  bracket_mismatch (netloc r) = false ∧
  headed_by (eqc "/") (path r) = true ∧
  free_of (eqc "?") (path r) = true ∧
  free_of (eqc "#") (path r) = true ∧
  free_of is_unsafe (path r) = true ∧
  free_of (eqc "#") (query r) = true ∧
  free_of is_unsafe (query r) = true.
Proof.
  intros HB. unfold split_body.
  pose proof (break_fst_free is_delim B) as HN.
  pose proof (break_snd_headed is_delim B) as HR.
  pose proof (break_eq is_delim B) as HE.
  destruct (break is_delim B) as [N R]. cbn [fst snd] in *.
  rewrite HE, free_of_app in HB. apply andb_true_iff in HB as [HNs HRs].
  destruct (bracket_mismatch N) eqn:Hbm; [done|].
  destruct (cut "#" R) as [R1 F] eqn:Hc1.
  destruct (cut "?" R1) as [P0 Q] eqn:Hc2.
  intros [= <-]. cbn [scheme params netloc path query].
  destruct (free_of_cut is_unsafe _ _ _ _ Hc1 HRs) as [HR1s _].
  destruct (free_of_cut is_unsafe _ _ _ _ Hc2 HR1s) as [HPs HQs].
  destruct (cut_parts _ _ _ _ Hc1) as [HR1h HR1].
  destruct (free_of_cut (eqc "#") _ _ _ _ Hc2 HR1h) as [HPh HQh].
  destruct (cut_parts _ _ _ _ Hc2) as [HPq HP].
  do 6 (split; [done|]). split; [|done].
  assert (HR1d : headed_by is_delim R1 = true).
  { destruct HR1 as [[-> _] | ->]; [done|].
    destruct R1; [done | exact HR]. }
  assert (HPd : headed_by is_delim P0 = true).
  { destruct HP as [[-> _] | ->]; [done|].
    destruct P0; [done | exact HR1d]. }
  destruct P0 as [|x P0]; [done|].
  rewrite free_of_cons in HPh, HPq.
  apply andb_true_iff in HPh as [Hx1 _]. apply andb_true_iff in HPq as [Hx2 _].
  change (is_delim x = true) in HPd. change (eqc "/" x = true).
  unfold is_delim in HPd.
  destruct (eqc "/" x); [done|]. destruct (eqc "?" x); [done|].
  by destruct (eqc "#" x).
Qed.

(** *** The params of the last path segment *)

Lemma rfind_free c s : free_of (eqc c) s = true -> rfind c s = None.
Proof.
  induction s as [|x s IH]; cbn; [done|].
  intros [Hx Hs]%andb_true_iff. rewrite (IH Hs).
  by apply negb_true_iff in Hx as ->.
Qed.

Lemma rfind_last c a b :
  free_of (eqc c) b = true -> rfind c (a ++ c :: b) = Some (length a).
Proof.
  intros Hb. induction a as [|x a IH]; cbn.
  - by rewrite (rfind_free _ _ Hb), eqc_refl.
  - by rewrite IH.
Qed.

Lemma find_None_free c s : find c s = None <-> free_of (eqc c) s = true.
Proof.
  induction s as [|x s IH]; cbn; [done|].
  destruct (eqc c x); cbn; [done|].
  rewrite <- IH. by destruct (find c s).
Qed.

Lemma find_Some_parts c s k :
  find c s = Some k ->
  free_of (eqc c) (take k s) = true ∧ s = take k s ++ c :: drop (S k) s.
Proof.
  revert k. induction s as [|x s IH]; intros k; cbn; [done|].
  destruct (eqc c x) eqn:Hx.
  - intros [= <-]. cbn. apply eqc_true in Hx. by subst x.
  - destruct (find c s) as [k'|]; [|done]. cbn. intros [= <-].
    destruct (IH k' eq_refl) as [H1 H2]. cbn [take drop].
    rewrite free_of_cons, Hx, H1. split; [done|]. cbn. by rewrite <- H2.
Qed.

Lemma has_char_free_iff c s : has_char c s = false <-> free_of (eqc c) s = true.
Proof.
  unfold has_char, free_of. induction s as [|y s IH]; cbn; [done|].
  rewrite orb_false_iff, andb_true_iff, negb_true_iff. by rewrite IH.
Qed.

Lemma has_char_last c s :
  has_char c s = true ->
  ∃ a b, s = a ++ c :: b ∧ free_of (eqc c) b = true.
Proof.
  induction s as [|x s IH]; [done|].
  change (has_char c (x :: s)) with (eqc c x || has_char c s).
  destruct (has_char c s) eqn:Hs.
  - intros _. destruct (IH eq_refl) as (a & b & -> & Hb).
    by exists (x :: a), b.
  - rewrite orb_false_r. intros ->%eqc_true. exists [], s. split; [done|].
    by apply has_char_free_iff.
Qed.

Lemma has_char_app c a b : has_char c (a ++ b) = has_char c a || has_char c b.
Proof. unfold has_char. apply existsb_app. Qed.

(** [_splitparams] on a path whose last '/' is known. *)
Lemma splitparams_slash a b :
  free_of (eqc "/") b = true ->
  _splitparams (a ++ "/"%char :: b) =
  match find ";" b with
  | None => (a ++ "/"%char :: b, [])
  | Some k => (a ++ "/"%char :: take k b, drop (S k) b)
  end.
Proof.
  intros Hb. unfold _splitparams.
  assert (has_char "/" (a ++ "/"%char :: b) = true) as ->.
  { rewrite has_char_app. cbn. by rewrite orb_true_r. }
  rewrite (rfind_last _ _ _ Hb). unfold find_from.
  rewrite drop_app_length. cbn [find]. change (eqc ";" "/") with false.
  cbn match. destruct (find ";" b) as [k|]; cbn [fmap option_fmap option_map];
    [|done].
  replace (length a + S k) with (length (a ++ ["/"%char]) + k)
    by (rewrite length_app; cbn; lia).
  replace (S (length (a ++ ["/"%char]) + k))
    with (length (a ++ ["/"%char]) + S k) by lia.
  replace (a ++ "/"%char :: b) with ((a ++ ["/"%char]) ++ b)
    by (by rewrite <- app_assoc).
  rewrite take_app_add, drop_app_add. by rewrite <- app_assoc.
Qed.

(** Joining what the split returned and splitting again changes nothing. *)
Lemma psplit_join P0 p prm :
  headed_by (eqc "/") P0 = true ->
  psplit_of P0 = (p, prm) ->
  psplit_of (pjoin_of p prm) = (p, prm) ∧
  (pjoin_of p prm = P0 ∨ P0 = pjoin_of p prm ++ lit ";").
Proof.
  intros Hh. unfold psplit_of at 1.
  destruct (has_char ";" P0) eqn:Hsemi.
  2:{ intros [= <- <-]. unfold pjoin_of. cbn [nonempty].
      unfold psplit_of. rewrite Hsemi. by split; [|left]. }
  assert (Hslash : has_char "/" P0 = true).
  { destruct P0 as [|x P0]; [done|]. cbn in *. by rewrite Hh. }
  destruct (has_char_last _ _ Hslash) as (a & b & -> & Hb).
  rewrite (splitparams_slash a b Hb).
  destruct (find ";" b) as [k|] eqn:Hf.
  2:{ intros [= <- <-]. unfold pjoin_of. cbn [nonempty].
      unfold psplit_of. rewrite Hsemi, (splitparams_slash a b Hb), Hf.
      by split; [|left]. }
  destruct (find_Some_parts _ _ _ Hf) as [Hb1 Hbeq].
  intros [= <- <-]. unfold pjoin_of.
  destruct (drop (S k) b) as [|m prm] eqn:Hdrop; cbn [nonempty].
  - split.
    + unfold psplit_of.
      destruct (has_char ";" (a ++ "/"%char :: take k b)); [|done].
      rewrite splitparams_slash by (by apply free_of_take).
      by rewrite (proj2 (find_None_free ";" (take k b)) Hb1).
    + right. rewrite Hbeq at 1. by rewrite <- app_assoc.
  - assert (Heq : (a ++ "/"%char :: take k b) ++ lit ";" ++ m :: prm
                  = a ++ "/"%char :: b).
    { rewrite Hbeq at 2. by rewrite <- app_assoc. }
    rewrite Heq. split; [|by left].
    unfold psplit_of. rewrite Hsemi, (splitparams_slash a b Hb), Hf, Hdrop.
    done.
Qed.

Lemma pjoin_free P0 p prm (P : ascii -> bool) :
  (pjoin_of p prm = P0 ∨ P0 = pjoin_of p prm ++ lit ";") ->
  free_of P P0 = true -> free_of P (pjoin_of p prm) = true.
Proof.
  intros [<- | ->]; [done|]. rewrite free_of_app.
  by intros [? _]%andb_true_iff.
Qed.

Lemma pjoin_headed P0 p prm (P : ascii -> bool) :
  (pjoin_of p prm = P0 ∨ P0 = pjoin_of p prm ++ lit ";") ->
  headed_by P P0 = true -> headed_by P (pjoin_of p prm) = true.
Proof.
  intros [<- | ->]; [done|]. by destruct (pjoin_of p prm).
Qed.

Lemma scheme_facts sch :
  sch = lit "http" ∨ sch = lit "https" ->
  nonempty sch = true ∧ bool_decide (sch ∈ uses_netloc) = true ∧
  bool_decide (sch ∈ uses_params) = true ∧
  bool_decide (sch ∈ [lit "http"; lit "https"]) = true.
Proof. intros [-> | ->]; by vm_compute. Qed.

(** [urlparse] behind "scheme://". *)
Lemma urlparse_prefixed sch body :
  sch = lit "http" ∨ sch = lit "https" ->
  urlparse (sch ++ lit "://" ++ body) =
  match split_body sch (remove_unsafe body) with
  | None => None
  | Some r =>
      let '(p, prm) := psplit_of (path r) in
      Some (mkParseResult sch (netloc r) p prm (query r) (fragment r))
  end.
Proof.
  intros Hs. unfold urlparse. rewrite urlsplit_prefixed by done.
  destruct (split_body sch (remove_unsafe body)) as [r|] eqn:Hr; [|done].
  rewrite (split_body_scheme _ _ _ Hr).
  destruct (scheme_facts sch Hs) as (_ & _ & -> & _). cbn [andb].
  unfold psplit_of. destruct (has_char ";" (path r)).
  - by destruct (_splitparams (path r)).
  - pose proof (split_body_scheme _ _ _ Hr).
    pose proof (split_body_params _ _ _ Hr).
    destruct r; cbn in *. by subst.
Qed.

Lemma normalize_body_parts sch body :
  normalize_body sch body =
  match split_body sch (remove_unsafe body) with
  | None => None
  | Some r =>
      let '(p, prm) := psplit_of (path r) in
      Some (urlunparse sch (lower (netloc r)) p prm (query r) [])
  end.
Proof. done. Qed.

(** The canonical string when the host is not empty. *)
Lemma urlunparse_host sch N p prm Q :
  nonempty sch = true -> N ≠ [] ->
  headed_by (eqc "/") (pjoin_of p prm) = true ->
  urlunparse sch N p prm Q []
  = sch ++ lit "://" ++ N ++ pjoin_of p prm ++ opt "?" Q.
Proof.
  intros Hs HN Hh. unfold urlunparse, urlunsplit. fold (pjoin_of p prm).
  rewrite Hs. assert (nonempty N = true) as -> by (by destruct N).
  cbn [orb nonempty].
  assert (nonempty (pjoin_of p prm)
          && negb (startswith (lit "/") (pjoin_of p prm)) = false) as ->.
  { destruct (pjoin_of p prm) as [|x Y]; [done|]. cbn in *. by rewrite Hh. }
  destruct Q; cbn [nonempty opt]; rewrite <- ?app_assoc, ?app_nil_r; done.
Qed.

(** Parsing the canonical string gives its parts back. *)
Lemma reparse_body sch body r p prm :
  sch = lit "http" ∨ sch = lit "https" ->
  split_body sch (remove_unsafe body) = Some r ->
  netloc r ≠ [] ->
  psplit_of (path r) = (p, prm) ->
  let v := urlunparse sch (lower (netloc r)) p prm (query r) [] in
  urlparse v = Some (mkParseResult sch (lower (netloc r)) p prm (query r) [])
  ∧ v = sch ++ lit "://" ++ lower (netloc r) ++ pjoin_of p prm ++
        opt "?" (query r).
Proof.
  intros Hs Hr HN Hps v.
  destruct (split_body_parts _ _ _ (free_of_removed body) Hr)
    as (_ & _ & _ & Hnd & Hns & Hbm & Hph & Hpq & Pph & Hpu & Hqh & Hqu).
  destruct (psplit_join _ _ _ Hph Hps) as [Hj1 Hj2].
  set (Y := pjoin_of p prm) in *.
  assert (HYh : headed_by (eqc "/") Y = true) by (by eapply pjoin_headed).
  assert (HYq : free_of (eqc "?") Y = true) by (by eapply pjoin_free).
  assert (HYf : free_of (eqc "#") Y = true) by (by eapply pjoin_free).
  assert (HYu : free_of is_unsafe Y = true) by (by eapply pjoin_free).
  destruct (scheme_facts sch Hs) as (Hsn & _ & _ & _).
  assert (HlN : lower (netloc r) ≠ []) by (by destruct (netloc r)).
  assert (Hv : v = sch ++ lit "://" ++ lower (netloc r) ++ Y ++
                   opt "?" (query r)).
  { subst v. by apply urlunparse_host. }
  split; [|done]. rewrite Hv, urlparse_prefixed by done.
  assert (Hrest_u : free_of is_unsafe (Y ++ opt "?" (query r)) = true).
  { rewrite free_of_app, HYu. by apply free_of_opt. }
  assert (Hrest_f : free_of (eqc "#") (Y ++ opt "?" (query r)) = true).
  { rewrite free_of_app, HYf. by apply free_of_opt. }
  rewrite split_body_host.
  - rewrite remove_unsafe_id
      by (by rewrite (free_of_lower _ _ is_unsafe_lower)).
    rewrite bracket_mismatch_lower, Hbm.
    rewrite (remove_unsafe_id _ Hrest_u), (cut_absent _ _ Hrest_f).
    rewrite cut_opt by done. cbn [path netloc query fragment].
    by rewrite Hj1.
  - by rewrite (free_of_lower _ _ is_delim_lower).
  - apply headed_by_app.
    + eapply headed_by_weaken; [|exact HYh].
      intros c Hc. unfold is_delim. by rewrite Hc.
    + intros _. by apply headed_by_opt.
Qed.

Lemma prefixed_form u :
  ∃ sch body, (sch = lit "http" ∨ sch = lit "https") ∧
    (if has_scheme_prefix u then u else lit "https://" ++ u)
    = sch ++ lit "://" ++ body ∧
    _normalize_url u = normalize_body sch body.
Proof.
  destruct (has_scheme_prefix u) eqn:Hp.
  - destruct (has_scheme_prefix_inv u Hp) as (sch & body & Hs & ->).
    exists sch, body. do 2 (split; [done|]). by apply normalize_prefixed.
  - exists (lit "https"), u. split; [by right|]. split; [done|].
    by apply normalize_unprefixed.
Qed.

(** The round trip: the normalized URL parses into the parts of the input,
    with the host in lower case and no fragment, and normalizing it again
    changes nothing. *)
Lemma normalize_reparse u parsed :
  urlparse (if has_scheme_prefix u then u else lit "https://" ++ u)
    = Some parsed ->
  netloc parsed ≠ [] ->
  ∃ v, _normalize_url u = Some v ∧
       urlparse v = Some (mkParseResult (scheme parsed)
                            (lower (netloc parsed)) (path parsed)
                            (params parsed) (query parsed) []) ∧
       has_scheme_prefix v = true ∧
       _normalize_url v = Some v.
Proof.
  destruct (prefixed_form u) as (sch & body & Hs & -> & ->).
  rewrite urlparse_prefixed, normalize_body_parts by done.
  destruct (split_body sch (remove_unsafe body)) as [r|] eqn:Hr; [|done].
  destruct (psplit_of (path r)) as [p prm] eqn:Hps.
  intros [= <-]. cbn [scheme netloc path params query]. intros HN.
  destruct (reparse_body sch body r p prm Hs Hr HN Hps) as [Hparse Hv].
  cbv zeta in Hparse, Hv.
  set (v := urlunparse sch (lower (netloc r)) p prm (query r) []) in *.
  exists v. do 2 (split; [done|]).
  assert (Hpre : has_scheme_prefix v = true).
  { rewrite Hv. unfold has_scheme_prefix.
    destruct Hs as [-> | ->]; cbn; by rewrite ?eqc_refl. }
  split; [done|].
  unfold _normalize_url. rewrite Hpre. cbn [negb]. rewrite Hparse.
  cbn [scheme netloc path params query]. by rewrite lower_idem.
Qed.

(** No character of the canonical string satisfies [P], when none of its
    parts does. *)
Lemma urlunparse_free (P : ascii -> bool) sch N p prm Q :
  P ":"%char = false -> P "/"%char = false -> P "?"%char = false ->
  free_of P sch = true -> free_of P N = true ->
  free_of P (pjoin_of p prm) = true -> free_of P Q = true ->
  free_of P (urlunparse sch N p prm Q []) = true.
Proof.
  intros H1 H2 H3 Hs HN HY HQ. unfold urlunparse, urlunsplit.
  fold (pjoin_of p prm). change (nonempty []) with false. cbv iota.
  repeat match goal with
         | |- context [if ?b then _ else _] => destruct b
         end;
    rewrite ?free_of_app, ?Hs, ?HN, ?HY, ?HQ;
    cbn; rewrite ?H1, ?H2, ?H3, ?HN, ?HY, ?HQ; done.
Qed.

(** What every normalized URL is free of. *)
Lemma normalize_free (P : ascii -> bool) u v :
  P ":"%char = false -> P "/"%char = false -> P "?"%char = false ->
  free_of P (lit "https") = true ->
  (∀ c, P (lower_char c) = P c) ->
  (∀ sch B r, free_of is_unsafe B = true -> split_body sch B = Some r ->
     free_of P (netloc r) = true ∧ free_of P (path r) = true ∧
     free_of P (query r) = true) ->
  _normalize_url u = Some v -> free_of P v = true.
Proof.
  intros H1 H2 H3 Hs Hl HB.
  destruct (prefixed_form u) as (sch & body & Hsch & _ & ->).
  rewrite normalize_body_parts.
  destruct (split_body sch (remove_unsafe body)) as [r|] eqn:Hr; [|done].
  destruct (psplit_of (path r)) as [p prm] eqn:Hps. intros [= <-].
  destruct (split_body_parts _ _ _ (free_of_removed body) Hr)
    as (_ & _ & _ & _ & _ & _ & Hph & _).
  destruct (psplit_join _ _ _ Hph Hps) as [_ Hj2].
  destruct (HB _ _ _ (free_of_removed body) Hr) as (HN & HP0 & HQ).
  apply urlunparse_free; try done.
  - destruct Hsch as [-> | ->]; [|done].
    change (lit "https") with (lit "http" ++ lit "s") in Hs.
    rewrite free_of_app in Hs. by apply andb_true_iff in Hs as [? _].
  - by rewrite free_of_lower.
  - by eapply pjoin_free.
Qed.

Lemma eqc_hash_lower c : eqc "#" (lower_char c) = eqc "#" c.
Proof.
  destruct c as [[] [] [] [] [] [] [] []]; vm_compute; reflexivity.
Qed.

Lemma normalize_no_fragment u v :
  _normalize_url u = Some v -> free_of (eqc "#") v = true.
Proof.
  apply normalize_free; try done.
  - apply eqc_hash_lower.
  - intros sch B r HB Hr.
    destruct (split_body_parts _ _ _ HB Hr)
      as (_ & _ & _ & Hnd & _ & _ & _ & _ & Hp & _ & Hq & _).
    split; [|done]. eapply free_of_weaken; [|exact Hnd].
    intros c Hc. unfold is_delim. rewrite Hc. by rewrite !orb_true_r.
Qed.

Lemma normalize_no_unsafe u v :
  _normalize_url u = Some v -> free_of is_unsafe v = true.
Proof.
  apply normalize_free; try done.
  - apply is_unsafe_lower.
  - intros sch B r HB Hr.
    by destruct (split_body_parts _ _ _ HB Hr)
      as (_ & _ & _ & _ & Hn & _ & _ & _ & _ & Hp & _ & Hq).
Qed.

Lemma normalize_has_prefix u v :
  _normalize_url u = Some v -> has_scheme_prefix v = true.
Proof.
  destruct (prefixed_form u) as (sch & body & Hs & _ & ->). intros Hv.
  pose proof (normalize_body_prefix sch body v Hs Hv) as Hpre.
  apply startswith_app in Hpre as [t ->]. unfold has_scheme_prefix.
  destruct Hs as [-> | ->]; cbn; by rewrite ?eqc_refl.
Qed.

End ReparseFacts.

(** ** Comma-separated options *)
Module ListFacts.
Import Str UrlLib Crawler UrlShape Main StrFacts UrlFacts ReparseFacts.

Lemma split_nonempty c s : split c s ≠ [].
Proof.
  destruct s as [|a s]; cbn; [done|].
  destruct (eqc c a); [done|]. by destruct (split c s).
Qed.

Lemma join_cons sep w ws :
  ws ≠ [] -> join sep (w :: ws) = w ++ sep ++ join sep ws.
Proof. by destruct ws. Qed.

(** Joining the pieces with the separator gives the string back. *)
Lemma join_split c s : join [c] (split c s) = s.
Proof.
  induction s as [|a s IH]; cbn [split]; [done|].
  destruct (eqc c a) eqn:Hc.
  - apply eqc_true in Hc as <-.
    rewrite join_cons by apply split_nonempty. cbn. by rewrite IH.
  - pose proof (split_nonempty c s) as Hne.
    destruct (split c s) as [|w ws]; [done|].
    destruct ws as [|w' ws]; cbn in *; by rewrite <- IH.
Qed.

Lemma split_free c s : Forall (fun w => free_of (eqc c) w = true) (split c s).
Proof.
  induction s as [|a s IH]; cbn [split]; [by repeat constructor|].
  destruct (eqc c a) eqn:Hc; [by constructor|].
  destruct (split c s) as [|w ws]; [repeat constructor; cbn; by rewrite Hc|].
  apply Forall_cons in IH as [Hw Hws]. constructor; [|done].
  rewrite free_of_cons, Hc. done.
Qed.

Lemma split_length c s :
  length (split c s) = S (length (List.filter (eqc c) s)).
Proof.
  induction s as [|a s IH]; cbn [split List.filter]; [done|].
  destruct (eqc c a); cbn [length]; [by rewrite IH|].
  pose proof (split_nonempty c s). destruct (split c s); [done|].
  cbn in *. lia.
Qed.

Lemma split_app_sep c w t :
  free_of (eqc c) w = true -> split c (w ++ c :: t) = w :: split c t.
Proof.
  induction w as [|a w IH]; intros Hw.
  - cbn [app split]. by rewrite eqc_refl.
  - rewrite free_of_cons in Hw. apply andb_true_iff in Hw as [Ha Hw].
    apply negb_true_iff in Ha. cbn [app split]. by rewrite Ha, (IH Hw).
Qed.

Lemma split_single c w : free_of (eqc c) w = true -> split c w = [w].
Proof.
  induction w as [|a w IH]; intros Hw; [done|].
  rewrite free_of_cons in Hw. apply andb_true_iff in Hw as [Ha Hw].
  apply negb_true_iff in Ha. cbn [split]. by rewrite Ha, (IH Hw).
Qed.

(** Splitting what was joined gives the pieces back. *)
Lemma split_join c ws :
  ws ≠ [] -> Forall (fun w => free_of (eqc c) w = true) ws ->
  split c (join [c] ws) = ws.
Proof.
  intros Hne Hall. induction Hall as [|w ws Hw Hws IH]; [done|].
  destruct ws as [|w' ws]; [by apply split_single|].
  rewrite join_cons by done. specialize (IH ltac:(done)).
  change ([c] ++ ?x) with (c :: x). by rewrite split_app_sep, IH.
Qed.

(** *** [strip] *)

Lemma lstrip_space_headed s :
  headed_by (fun c => negb (is_space c)) (lstrip_space s) = true.
Proof.
  induction s as [|c s IH]; cbn; [done|].
  destruct (is_space c) eqn:Hc; [done|]. cbn. by rewrite Hc.
Qed.

Lemma lstrip_space_id s :
  headed_by (fun c => negb (is_space c)) s = true -> lstrip_space s = s.
Proof.
  destruct s as [|c s]; cbn; [done|]. by intros ->%negb_true_iff.
Qed.

Lemma lstrip_space_suffix s :
  ∃ a, s = a ++ lstrip_space s ∧ forallb is_space a = true.
Proof.
  induction s as [|c s (a & IH & Ha)]; cbn; [by exists []|].
  destruct (is_space c) eqn:Hc.
  - exists (c :: a). cbn. rewrite Hc, Ha. split; [by rewrite <- IH | done].
  - by exists [].
Qed.

Lemma rstrip_space_prefix s :
  ∃ b, s = rstrip_space s ++ b ∧ forallb is_space b = true.
Proof.
  unfold rstrip_space.
  destruct (lstrip_space_suffix (rev s)) as (a & Ha & Hsp).
  exists (rev a). split.
  - rewrite <- (rev_involutive s), Ha at 1. by rewrite rev_app_distr.
  - rewrite forallb_forall in *. intros x Hx. apply Hsp.
    by apply in_rev.
Qed.

Lemma strip_trimmed s : trimmed_ends (strip s).
Proof.
  unfold strip, trimmed_ends. split.
  - destruct (rstrip_space_prefix (lstrip_space s)) as (b & Hb & _).
    pose proof (lstrip_space_headed s) as Hh. rewrite Hb in Hh.
    by destruct (rstrip_space (lstrip_space s)).
  - unfold rstrip_space. rewrite rev_involutive. apply lstrip_space_headed.
Qed.

Lemma strip_id w : trimmed_ends w -> strip w = w.
Proof.
  intros [H1 H2]. unfold strip, rstrip_space.
  rewrite (lstrip_space_id w H1), (lstrip_space_id (rev w) H2).
  apply rev_involutive.
Qed.

Lemma strip_idem s : strip (strip s) = strip s.
Proof. apply strip_id, strip_trimmed. Qed.

(** [strip] cuts white space off both ends and nothing else. *)
Lemma strip_parts s :
  ∃ a b, s = a ++ strip s ++ b ∧
         forallb is_space a = true ∧ forallb is_space b = true.
Proof.
  destruct (lstrip_space_suffix s) as (a & Ha & Hsa).
  destruct (rstrip_space_prefix (lstrip_space s)) as (b & Hb & Hsb).
  exists a, b. split; [|done]. unfold strip. by rewrite <- Hb.
Qed.

Lemma strip_free P s : free_of P s = true -> free_of P (strip s) = true.
Proof.
  destruct (strip_parts s) as (a & b & Hs & _). rewrite Hs at 1.
  rewrite !free_of_app.
  by intros [_ [? _]%andb_true_iff]%andb_true_iff.
Qed.

Lemma strip_space_left w :
  strip (" "%char :: w) = strip w.
Proof. done. Qed.

(** *** The list comprehension *)

Lemma comma_list_nonempty s : comma_list s ≠ [].
Proof.
  unfold comma_list. pose proof (split_nonempty "," s).
  by destruct (split "," s).
Qed.

Lemma comma_list_length s :
  length (comma_list s) = S (length (List.filter (eqc ",") s)).
Proof. unfold comma_list. by rewrite length_map, split_length. Qed.

Lemma comma_list_items s w :
  w ∈ comma_list s -> free_of (eqc ",") w = true ∧ trimmed_ends w.
Proof.
  unfold comma_list. intros (x & -> & Hx)%list_elem_of_fmap. split.
  - apply strip_free. pose proof (split_free "," s) as H.
    rewrite Forall_forall in H. by apply H.
  - apply strip_trimmed.
Qed.

Lemma join_pad c pad w ws :
  join (c :: pad) (w :: ws) = join [c] (w :: map (fun x => pad ++ x) ws).
Proof.
  revert w. induction ws as [|w' ws IH]; intros w; [done|].
  rewrite (join_cons (c :: pad) w) by done. cbn [map].
  rewrite (join_cons [c] w) by done. rewrite IH.
  assert (Hhead : ∀ xs, join [c] ((pad ++ w') :: xs)
                        = pad ++ join [c] (w' :: xs)).
  { intros [|x xs]; [done|]. rewrite !join_cons by done.
    by rewrite <- app_assoc. }
  by rewrite Hhead.
Qed.

Lemma comma_list_join ws :
  ws ≠ [] ->
  Forall (fun w => free_of (eqc ",") w = true ∧ trimmed_ends w) ws ->
  comma_list (join (lit ",") ws) = ws ∧
  comma_list (join (lit ", ") ws) = ws.
Proof.
  intros Hne Hall.
  assert (Hfree : Forall (fun w => free_of (eqc ",") w = true) ws).
  { eapply Forall_impl; [exact Hall|]. by intros w [? _]. }
  assert (Hstrip : map strip ws = ws).
  { clear -Hall. induction Hall as [|w ws [_ Hw] _ IH]; [done|].
    cbn. by rewrite (strip_id w Hw), IH. }
  unfold comma_list. split.
  - change (lit ",") with [","%char]. by rewrite split_join.
  - destruct ws as [|w ws]; [done|].
    change (lit ", ") with (","%char :: lit " "). rewrite join_pad.
    rewrite split_join; [| done |].
    + cbn [map]. injection Hstrip as Hw Hws. rewrite Hw. f_equal.
      rewrite map_map. rewrite <- Hws at 2. apply map_ext.
      intros x. apply strip_space_left.
    + apply Forall_cons in Hfree as [Hw Hws]. constructor; [done|].
      apply Forall_forall. intros x (y & -> & Hy)%list_elem_of_fmap.
      rewrite Forall_forall in Hws. cbn. by apply Hws.
Qed.

End ListFacts.

(** ** Validation and construction *)
Module SetupFacts.
Import Str UrlLib Crawler Trace Invariants UrlShape PathParams Main WebApp.
Import StrFacts UrlFacts MethodFacts LoopFacts RunFacts ReparseFacts.

Lemma prefixed_scheme u parsed :
  urlparse (if has_scheme_prefix u then u else lit "https://" ++ u)
    = Some parsed ->
  scheme parsed = lit "http" ∨ scheme parsed = lit "https".
Proof.
  destruct (prefixed_form u) as (sch & body & Hs & -> & _).
  rewrite urlparse_prefixed by done.
  destruct (split_body sch (remove_unsafe body)) as [r|]; [|done].
  destruct (psplit_of (path r)). by intros [= <-].
Qed.

(** [validate_url] accepts exactly the non-empty strings whose network
    location, read behind the scheme prefix, is not empty. *)
Lemma validate_url_spec u :
  validate_url u = true <->
  u ≠ [] ∧
  ∃ parsed,
    urlparse (if has_scheme_prefix u then u else lit "https://" ++ u)
      = Some parsed ∧
    netloc parsed ≠ [].
Proof.
  unfold validate_url. destruct u as [|c u]; cbn [nonempty negb].
  { split; [done | by intros [? _]]. }
  set (w := c :: u).
  replace (if negb (has_scheme_prefix w) then lit "https://" ++ w else w)
    with (if has_scheme_prefix w then w else lit "https://" ++ w)
    by (by destruct (has_scheme_prefix w)).
  destruct (urlparse _) as [parsed|] eqn:Hp.
  - pose proof (prefixed_scheme w parsed Hp) as Hs.
    assert (nonempty (scheme parsed) = true) as ->
      by (by destruct Hs as [-> | ->]).
    cbn [andb]. split.
    + intros Hn. split; [done|]. exists parsed. split; [done|].
      by destruct (netloc parsed).
    + intros (_ & p & [= <-] & Hn). by destruct (netloc parsed).
  - split; [done|]. by intros (_ & p & ? & _).
Qed.

(** What [__init__] makes of a seed whose network location is not empty. *)
Lemma init_of_parsed seed parsed md dl mp rr allowed words :
  urlparse (if has_scheme_prefix seed then seed else lit "https://" ++ seed)
    = Some parsed ->
  netloc parsed ≠ [] ->
  ∃ v,
    _normalize_url seed = Some v ∧
    _normalize_url v = Some v ∧
    __init__ seed md dl mp rr allowed words =
      Some (mkConfig v md dl mp rr
              (match words with Some ws => map lower ws | None => [] end)
              (lower (netloc parsed))
              (match allowed with
               | None => {[ lower (netloc parsed) ]}
               | Some ds => list_to_set ds
               end)).
Proof.
  intros Hp Hn.
  destruct (normalize_reparse seed parsed Hp Hn) as (v & Hv & Hpv & _ & Hid).
  exists v. do 2 (split; [done|]). unfold __init__. by rewrite Hv, Hpv.
Qed.

Lemma init_fields seed md dl mp rr allowed words cfg :
  __init__ seed md dl mp rr allowed words = Some cfg ->
  _normalize_url seed = Some (start_url cfg) ∧
  (∃ parsed, urlparse (start_url cfg) = Some parsed ∧
             start_domain cfg = netloc parsed) ∧
  max_depth cfg = md ∧ max_pages cfg = mp ∧ delay cfg = dl ∧
  respect_robots cfg = rr ∧
  search_words cfg = match words with Some ws => map lower ws | None => [] end ∧
  allowed_domains cfg = match allowed with
                        | None => {[ start_domain cfg ]}
                        | Some ds => list_to_set ds
                        end.
Proof.
  unfold __init__. destruct (_normalize_url seed) as [v|]; [|done].
  destruct (urlparse v) as [parsed|] eqn:Hp; [|done]. intros [= <-]. cbn.
  split; [done|]. split; [by exists parsed|]. done.
Qed.

(** The scheme of a normalized URL is the one the normalizer left or put
    in front. *)
Lemma normalized_scheme u v parsed :
  _normalize_url u = Some v -> urlparse v = Some parsed ->
  scheme parsed = lit "http" ∨ scheme parsed = lit "https".
Proof.
  destruct (prefixed_form u) as (sch & body & Hs & _ & ->). intros Hv.
  pose proof (normalize_body_prefix sch body v Hs Hv) as Hpre.
  apply startswith_app in Hpre as [t ->]. rewrite <- app_assoc.
  rewrite urlparse_prefixed by done.
  destruct (split_body sch (remove_unsafe t)) as [r|]; [|done].
  destruct (psplit_of (path r)). by intros [= <-].
Qed.

(** The scope filter, on a URL that parses. *)
Lemma is_valid_url_parsed cfg v parsed :
  urlparse v = Some parsed ->
  _is_valid_url cfg v =
  bool_decide (scheme parsed ∈ [lit "http"; lit "https"]) &&
  bool_decide (netloc parsed ∈ allowed_domains cfg) &&
  negb (existsb (fun ext => endswith ext (lower (path parsed)))
          skip_extensions).
Proof.
  intros Hp. unfold _is_valid_url. rewrite Hp.
  destruct (bool_decide (scheme parsed ∈ _)); [|done].
  by destruct (bool_decide (netloc parsed ∈ _)).
Qed.

Lemma scheme_allowed sch :
  sch = lit "http" ∨ sch = lit "https" ->
  bool_decide (sch ∈ [lit "http"; lit "https"]) = true.
Proof. intros [-> | ->]; by vm_compute. Qed.

(** *** The web front end *)

Lemma sum_values_lookup (m : gmap str nat) k n :
  m !! k = Some n -> sum_values m = n + sum_values (delete k m).
Proof.
  intros H. unfold sum_values.
  apply (map_fold_delete_L (fun _ v acc => v + acc) 0 k n m); [|done].
  intros. lia.
Qed.

Lemma sum_values_le (m : gmap str nat) k n :
  m !! k = Some n -> n <= sum_values m.
Proof. intros H. rewrite (sum_values_lookup m k n H). lia. Qed.

Lemma run_crawler_inv env fuel job out :
  run_crawler env fuel job = Some out ->
  (out = JobError ∧
   __init__ (job_url job) (job_depth job) (job_delay job) (job_max_pages job)
     (job_respect_robots job) (job_allowed_domains job)
     (job_search_words job) = None)
  ∨ ∃ cfg,
      __init__ (job_url job) (job_depth job) (job_delay job)
        (job_max_pages job) (job_respect_robots job)
        (job_allowed_domains job) (job_search_words job) = Some cfg ∧
      loop_cond cfg (crawl_run env cfg fuel) = false ∧
      out = JobCompleted
              (map (process_page (job_search_type job))
                 (results (crawl_run env cfg fuel)))
              (length (results (crawl_run env cfg fuel)))
              (size (visited_urls (self_ (crawl_run env cfg fuel)))).
Proof.
  unfold run_crawler. destruct (__init__ _ _ _ _ _ _ _) as [cfg|].
  - fold (crawl_run env cfg fuel).
    destruct (loop_cond cfg (crawl_run env cfg fuel)) eqn:Hc; [done|].
    intros [= <-]. right. exists cfg. do 2 (split; [done|]).
    by rewrite length_map.
  - intros [= <-]. by left.
Qed.

Lemma results_le_visited env cfg fuel :
  length (results (crawl_run env cfg fuel))
  <= size (visited_urls (self_ (crawl_run env cfg fuel))).
Proof.
  pose proof (basic_run env cfg fuel) as HB.
  set (l := crawl_run env cfg fuel) in *.
  assert (Heq : visited_urls (self_ l)
                = list_to_set (fetch_calls (trace l)).*1).
  { apply set_eq. intros u. rewrite elem_of_list_to_set.
    apply (b_visited _ _ HB). }
  rewrite Heq, size_list_to_set by apply (b_calls _ _ HB).
  assert (Hsub : url <$> results l `sublist_of` (fetch_calls (trace l)).*1).
  { etrans; [apply (b_results _ _ HB) | apply (b_gets _ _ HB)]. }
  apply sublist_length in Hsub. by rewrite length_fmap in Hsub.
Qed.

End SetupFacts.

(** ** Further properties of the crawler *)
Module Further.
Import Str UrlLib Crawler Trace ScopeSpec Invariants Scenarios.
Import UrlShape Observations Crawls PathParams Main WebApp Inputs Domain.
Import StrFacts UrlFacts MethodFacts LoopFacts RunFacts LinkFacts.
Import ReparseFacts ListFacts SetupFacts.

Lemma sleep_accepts_raises d : sleep_accepts d <-> sleep_raises d = false.
Proof.
  unfold sleep_accepts, sleep_raises.
  rewrite negb_false_iff, andb_true_iff, !Qle_bool_iff. done.
Qed.

Lemma sleeps_prefix (t t' : list Event) :
  t `prefix_of` t' -> sleeps t ≠ [] -> sleeps t' ≠ [].
Proof.
  intros [k ->] Hne. unfold sleeps in *. rewrite omap_app.
  by destruct (omap _ t).
Qed.


(** With a delay that [time.sleep] does not accept, the first sleep ends
    [crawl()] by its exception. *)
Lemma crawl_ending_raises env cfg k m :
  ¬ sleep_accepts (delay cfg) ->
  sleeps (trace (crawl_run env cfg k)) ≠ [] ->
  crawl_ending env cfg (k + m) = Some Raises.
Proof.
  intros Hbad Hs.
  assert (Hr : sleep_raises (delay cfg) = true).
  { destruct (sleep_raises (delay cfg)) eqn:E; [done|].
    by apply sleep_accepts_raises in E. }
  unfold crawl_ending. rewrite Hr. cbn [andb].
  fold (crawl_run env cfg (k + m)).
  assert (Hs' : sleeps (trace (crawl_run env cfg (k + m))) ≠ []).
  { eapply sleeps_prefix; [|exact Hs].
    unfold crawl_run. rewrite crawl_loop_add.
    apply crawl_loop_trace_prefix. }
  by destruct (sleeps (trace (crawl_run env cfg (k + m)))).
Qed.

(** On the diamond a negative delay ends [crawl()] in its first iteration:
    the seed is recorded, its two links are queued, and the sleep raises. *)
Example negative_delay_raises :
  let cfg := mkConfig (lit "https://example.com") 2 (-1) 10 false [] []
               {[ lit "example.com" ]} in
  ¬ sleep_accepts (delay cfg) ∧
  ∀ m, crawl_ending diamond cfg (1 + m) = Some Raises.
Proof.
  intros cfg.
  assert (H : ¬ sleep_accepts (delay cfg)).
  { intros [H _]. vm_compute in H. by apply H. }
  split; [exact H|]. intros m.
  apply crawl_ending_raises; [exact H|].
  vm_compute. discriminate.
Qed.



(** X2: with [max_depth = 0] nothing but the seed is ever handed to the
    fetcher, no link is enqueued, and the result holds at most the record
    of the seed. *)
Theorem depth_zero_fetches_seed_only env cfg fuel :
  max_depth cfg = 0%Z ->
  let l := crawl_run env cfg fuel in
  (∀ x, x ∈ fetch_calls (trace l) -> x = (start_url cfg, 0%Z)) ∧
  (∀ x, x ∈ crawl_queue l -> x = (start_url cfg, 0%Z)) ∧
  length (fetch_calls (trace l)) <= 1 ∧
  length (results l) <= 1 ∧
  ∀ r, r ∈ results l -> url r = start_url cfg.
Proof.
  intros Hmd l. pose proof (depth_zero_inv env cfg fuel Hmd) as Hinv.
  pose proof (basic_run env cfg fuel) as HB. fold l in HB, Hinv.
  cbv zeta in Hinv.
  assert (Hfc : ∀ x, x ∈ fetch_calls (trace l) -> x = (start_url cfg, 0%Z)).
  { intros x Hx.
    destruct Hinv as [[_ H] | [_ [H | H]]]; rewrite H in Hx.
    - by apply not_elem_of_nil in Hx.
    - by apply not_elem_of_nil in Hx.
    - by apply list_elem_of_singleton in Hx. }
  assert (Hlen : length (fetch_calls (trace l)) <= 1).
  { destruct Hinv as [[_ H] | [_ [H | H]]]; rewrite H; cbn; lia. }
  assert (Hsub : url <$> results l `sublist_of` (fetch_calls (trace l)).*1).
  { etrans; [apply (b_results _ _ HB) | apply (b_gets _ _ HB)]. }
  split; [done|]. split; [|split; [done|split]].
  - intros x Hx.
    destruct Hinv as [[H _] | [H _]]; rewrite H in Hx.
    + by apply list_elem_of_singleton in Hx.
    + by apply not_elem_of_nil in Hx.
  - apply sublist_length in Hsub. rewrite !length_fmap in Hsub. lia.
  - intros r Hr.
    assert (Hin : url r ∈ (fetch_calls (trace l)).*1).
    { eapply elem_of_sublist; [|exact Hsub]. by apply list_elem_of_fmap_2. }
    apply list_elem_of_fmap in Hin as ([u d] & Hu & Hin).
    apply Hfc in Hin. by simplify_eq.
Qed.

Lemma depth_zero_fetches_seed_only_witness :
  max_depth seed_only_cfg = 0%Z ∧
  length (results (crawl_run diamond seed_only_cfg 4)) <= 1.
Proof.
  assert (H : max_depth seed_only_cfg = 0%Z) by (vm_compute; reflexivity).
  split; [exact H|].
  exact (proj1 (proj2 (proj2 (proj2
           (depth_zero_fetches_seed_only diamond seed_only_cfg 4 H))))).
Defined.

(** X3: with a negative [max_depth] the seed is popped and dropped: the
    fetcher is never called, nothing is requested, and [crawl()] returns
    the empty list after at most one iteration. *)
Theorem negative_depth_crawls_nothing env cfg fuel :
  (max_depth cfg < 0)%Z ->
  fetch_calls (trace (crawl_run env cfg fuel)) = [] ∧
  gets (trace (crawl_run env cfg fuel)) = [] ∧
  visited_urls (self_ (crawl_run env cfg fuel)) = ∅ ∧
  crawl env cfg (S fuel) = Some [].
Proof.
  intros Hmd.
  assert (Hfc : ∀ n, fetch_calls (trace (crawl_run env cfg n)) = []).
  { intros n. pose proof (basic_run env cfg n) as HB.
    destruct (fetch_calls (trace (crawl_run env cfg n))) as [|[u d] t] eqn:E;
      [done|].
    assert (Hin : (u, d) ∈ fetch_calls (trace (crawl_run env cfg n)))
      by (rewrite E; left).
    apply (b_depth _ _ HB) in Hin. lia. }
  assert (Hgets : ∀ n, gets (trace (crawl_run env cfg n)) = []).
  { intros n. pose proof (b_gets _ _ (basic_run env cfg n)) as H.
    rewrite Hfc in H. by apply sublist_nil_r in H. }
  assert (Hres : ∀ n, results (crawl_run env cfg n) = []).
  { intros n. pose proof (b_results _ _ (basic_run env cfg n)) as H.
    rewrite Hgets in H. apply sublist_nil_r in H.
    by apply fmap_nil_inv in H. }
  split; [apply Hfc|]. split; [apply Hgets|]. split.
  - apply set_eq. intros u.
    rewrite (b_visited _ _ (basic_run env cfg fuel)), Hfc. cbn.
    split; intros H; [by apply not_elem_of_nil in H | set_solver].
  - unfold crawl. fold (crawl_run env cfg (S fuel)).
    fold (results (crawl_run env cfg (S fuel))). rewrite Hres.
    enough (loop_cond cfg (crawl_run env cfg (S fuel)) = false) as -> by done.
    unfold crawl_run. cbn [crawl_loop].
    destruct (loop_cond cfg (crawl_start cfg initial_state)) eqn:Hc; [|done].
    destruct (iteration_cases env cfg (crawl_start cfg initial_state)
                (start_url cfg) 0%Z [] eq_refl) as
      [[_ ->] | (_ & Hd & _)]; [|lia].
    by rewrite crawl_loop_done.
Qed.

Lemma negative_depth_crawls_nothing_witness :
  (max_depth negative_depth_cfg < 0)%Z ∧
  crawl diamond negative_depth_cfg 3 = Some [].
Proof.
  assert (H : (max_depth negative_depth_cfg < 0)%Z)
    by (vm_compute; reflexivity).
  split; [exact H|].
  exact (proj2 (proj2 (proj2
           (negative_depth_crawls_nothing diamond negative_depth_cfg 2 H)))).
Defined.

(** X4: the robots gate decides every request.  The URLs requested are,
    in order, the URLs on which [_can_fetch] answered [True]; a URL it
    turned down is never requested. *)
Theorem requests_are_approved env cfg fuel :
  let l := crawl_run env cfg fuel in
  gets (trace l) = (filter (fun p => p.2 = true) (gates (trace l))).*1 ∧
  (∀ u, u ∈ gets (trace l) <-> (u, true) ∈ gates (trace l)) ∧
  (∀ u, (u, false) ∈ gates (trace l) -> u ∉ gets (trace l)).
Proof.
  intros l. pose proof (gets_are_approved env cfg fuel) as Hg. fold l in Hg.
  pose proof (basic_run env cfg fuel) as HB. fold l in HB.
  assert (Hiff : ∀ u, u ∈ gets (trace l) <-> (u, true) ∈ gates (trace l)).
  { intros u. rewrite Hg, list_elem_of_fmap. split.
    - intros ([v b] & -> & [Hb Hin]%list_elem_of_filter). cbn in *.
      by subst b.
    - intros Hin. exists (u, true). split; [done|].
      by apply list_elem_of_filter. }
  split; [done|]. split; [done|].
  intros u Hf Hin. apply Hiff in Hin.
  pose proof (b_calls _ _ HB) as Hnd. rewrite <- (b_gates _ _ HB) in Hnd.
  clear -Hnd Hf Hin. induction (gates (trace l)) as [|[a b] g IH].
  - by apply not_elem_of_nil in Hf.
  - cbn in Hnd. apply NoDup_cons in Hnd as [Hna Hnd].
    apply elem_of_cons in Hf as [Hf|Hf], Hin as [Hin|Hin]; simplify_eq; auto.
    + apply Hna. apply list_elem_of_fmap. by exists (a, true).
    + apply Hna. apply list_elem_of_fmap. by exists (a, false).
Qed.

(** X5: apart from the seed, every URL handed to the fetcher, and so every
    URL requested, passed the scope filter: the crawl never leaves the
    allowed domains. *)
Theorem fetches_in_scope env cfg fuel u :
  let l := crawl_run env cfg fuel in
  u ∈ (fetch_calls (trace l)).*1 ∨ u ∈ gets (trace l) ->
  u = start_url cfg ∨ _is_valid_url cfg u = true.
Proof.
  intros l H.
  assert (Hin : u ∈ (fetch_calls (trace l)).*1).
  { destruct H as [H|H]; [done|].
    eapply elem_of_sublist; [exact H|]. apply (b_gets _ _ (basic_run env cfg fuel)). }
  apply list_elem_of_fmap in Hin as ([v d] & -> & Hin).
  by apply (fetch_calls_scope env cfg fuel v d).
Qed.

Lemma fetches_in_scope_witness :
  let u := lit "https://example.com/a" in
  u ∈ gets (trace (crawl_run diamond diamond_cfg 3)) ∧
  (u = start_url diamond_cfg ∨ _is_valid_url diamond_cfg u = true).
Proof.
  intros u.
  assert (H : u ∈ gets (trace (crawl_run diamond diamond_cfg 3))).
  { vm_compute. do 2 right. left. }
  split; [exact H|].
  exact (fetches_in_scope diamond diamond_cfg 3 u (or_intror H)).
Defined.

(** X6: every record of the result was built from the response to a GET
    of its URL that carried no 4xx or 5xx status and an HTML content
    type; title, description, status and size are those of the response,
    [links_found] is the number of distinct in-scope links of the page, and
    [word_matches] is the search of its text. *)
Theorem records_come_from_pages env cfg fuel r :
  r ∈ results (crawl_run env cfg fuel) ->
  ∃ resp,
    http_get env (url r) = Returned resp ∧
    ((status_code resp < 400)%Z ∨ (600 <= status_code resp)%Z) ∧
    contains (lit "text/html") (lower (content_type resp)) = true ∧
    title r = html_title resp ∧
    description r = html_description resp ∧
    page_status_code r = status_code resp ∧
    content_length r = content_len resp ∧
    links_found r = size (_extract_links env cfg (html_hrefs resp) (url r)) ∧
    word_matches r = _search_content cfg (html_text resp) ∧
    timestamp r = strftime env (url r).
Proof.
  intros (resp & (Hget & Hst & Hct) & Hr)%records_ok. exists resp.
  split; [done|]. split.
  { unfold raise_for_status in Hst. lia. }
  split; [done|]. destruct r as [u t d s c lf wm ts].
  unfold record_of in Hr. cbn [url] in Hr. cbn.
  by injection Hr as -> -> -> -> -> -> ->.
Qed.

Lemma records_come_from_pages_witness :
  ∃ r, r ∈ results (crawl_run diamond diamond_cfg 1) ∧
       ∃ resp, http_get diamond (url r) = Returned resp ∧
               page_status_code r = status_code resp.
Proof.
  assert (Hr : record_of diamond diamond_cfg (lit "https://example.com")
                 (html "" ["https://example.com/a"; "https://example.com/b"]%string)
               ∈ results (crawl_run diamond diamond_cfg 1)).
  { vm_compute. left. }
  eexists. split; [exact Hr|].
  destruct (records_come_from_pages diamond diamond_cfg 1 _ Hr)
    as (resp & H1 & _ & _ & _ & _ & H2 & _).
  exists resp. split; [exact H1 | exact H2].
Defined.

(** X7: the visited set is exactly the set of URLs handed to the fetcher,
    one call each; it holds the URL of every record, so the number of
    records never exceeds its size. *)
Theorem visited_is_fetched env cfg fuel :
  let l := crawl_run env cfg fuel in
  visited_urls (self_ l) = list_to_set (fetch_calls (trace l)).*1 ∧
  size (visited_urls (self_ l)) = length (fetch_calls (trace l)) ∧
  length (results l) <= size (visited_urls (self_ l)) ∧
  ∀ r, r ∈ results l -> url r ∈ visited_urls (self_ l).
Proof.
  intros l. pose proof (basic_run env cfg fuel) as HB. fold l in HB.
  assert (Heq : visited_urls (self_ l)
                = list_to_set (fetch_calls (trace l)).*1).
  { apply set_eq. intros u. rewrite elem_of_list_to_set.
    apply (b_visited _ _ HB). }
  assert (Hsz : size (visited_urls (self_ l))
                = length (fetch_calls (trace l))).
  { rewrite Heq, size_list_to_set by apply (b_calls _ _ HB).
    by rewrite length_fmap. }
  assert (Hsub : url <$> results l `sublist_of` (fetch_calls (trace l)).*1).
  { etrans; [apply (b_results _ _ HB) | apply (b_gets _ _ HB)]. }
  split; [done|]. split; [done|]. split.
  - rewrite Hsz. apply sublist_length in Hsub.
    by rewrite !length_fmap in Hsub.
  - intros r Hr. apply (b_visited _ _ HB).
    eapply elem_of_sublist; [|exact Hsub]. by apply list_elem_of_fmap_2.
Qed.

(** X8: running the loop further only adds: the records so far stay a
    prefix of the result, in the same order, and the visited set and the
    robots cache keep what they hold. *)
Theorem results_only_grow env cfg n m :
  let l := crawl_run env cfg n in
  let l' := crawl_run env cfg (n + m) in
  results l `prefix_of` results l' ∧
  visited_urls (self_ l) ⊆ visited_urls (self_ l') ∧
  robots_cache (self_ l) ⊆ robots_cache (self_ l') ∧
  trace l `prefix_of` trace l'.
Proof.
  intros l l'. subst l l'. unfold crawl_run. rewrite crawl_loop_add.
  destruct (crawl_loop_grows env cfg m
              (crawl_loop env cfg n (crawl_start cfg initial_state)))
    as (H1 & H2 & H3 & _).
  do 3 (split; [done|]). apply crawl_loop_trace_prefix.
Qed.

(** X9: with robots respect disabled no robots.txt is ever read, the
    robots cache stays empty, and every URL handed to the fetcher is
    requested. *)
Theorem robots_off_reads_nothing env cfg fuel :
  respect_robots cfg = false ->
  let l := crawl_run env cfg fuel in
  robots_fetches (trace l) = [] ∧
  robots_cache (self_ l) = ∅ ∧
  gets (trace l) = (fetch_calls (trace l)).*1.
Proof.
  intros Hoff l.
  destruct (robots_reads_bounds env cfg fuel) as (H1 & _ & _ & H4).
  fold l in H1, H4. specialize (H4 Hoff).
  split; [done|]. split.
  - rewrite H4 in H1. cbn in H1. apply map_size_empty_iff. lia.
  - apply (robots_off_inv env cfg fuel Hoff).
Qed.

Lemma robots_off_reads_nothing_witness :
  respect_robots diamond_cfg = false ∧
  robots_fetches (trace (crawl_run diamond diamond_cfg 5)) = [].
Proof.
  assert (H : respect_robots diamond_cfg = false) by (vm_compute; reflexivity).
  split; [exact H|].
  exact (proj1 (robots_off_reads_nothing diamond diamond_cfg 5 H)).
Defined.

(** X10: robots.txt is read at most once per call of the fetcher, and
    every host in the robots cache cost at least one read. *)
Theorem robots_reads_bounded env cfg fuel :
  let l := crawl_run env cfg fuel in
  size (robots_cache (self_ l)) <= length (robots_fetches (trace l)) ∧
  length (robots_fetches (trace l)) <= length (fetch_calls (trace l)).
Proof.
  intros l. destruct (robots_reads_bounds env cfg fuel) as (H1 & H2 & _).
  done.
Qed.

(** X11: when reading robots.txt never raises, it is read once per host:
    the number of reads is the number of hosts in the robots cache. *)
Theorem robots_read_once_per_host env cfg fuel :
  (∀ r, robots_read env r ≠ None) ->
  let l := crawl_run env cfg fuel in
  length (robots_fetches (trace l)) = size (robots_cache (self_ l)).
Proof.
  intros H l. destruct (robots_reads_bounds env cfg fuel) as (_ & _ & H3 & _).
  by apply H3.
Qed.

Lemma robots_read_once_per_host_witness :
  (∀ r, robots_read budget_web r ≠ None) ∧
  length (robots_fetches (trace (crawl_run budget_web (budget_cfg true) 5)))
  = size (robots_cache (self_ (crawl_run budget_web (budget_cfg true) 5))).
Proof.
  assert (H : ∀ r, robots_read budget_web r ≠ None) by (intros r; discriminate).
  split; [exact H|].
  exact (robots_read_once_per_host budget_web (budget_cfg true) 5 H).
Defined.

(** X12: with robots respect enabled, a URL is never requested and never
    recorded when the robots.txt of its host, under whatever scheme it is
    asked for, can be read and disallows the URL for the crawler's user
    agent. *)
Theorem disallowed_never_requested env cfg fuel u parsed :
  respect_robots cfg = true ->
  urlparse u = Some parsed ->
  (∀ sch, ∃ rp,
     robots_read env (sch ++ lit "://" ++ netloc parsed ++ lit "/robots.txt")
       = Some rp ∧
     can_fetch rp user_agent u = false) ->
  let l := crawl_run env cfg fuel in
  (u ∉ gets (trace l)) ∧ ∀ r, r ∈ results l -> url r ≠ u.
Proof.
  intros Hrr Hp Hdeny l.
  destruct (denied_inv env cfg u parsed fuel Hrr Hp Hdeny) as [_ Hg].
  fold l in Hg.
  pose proof (gets_are_approved env cfg fuel) as Ha. fold l in Ha.
  assert (Hget : u ∉ gets (trace l)).
  { rewrite Ha. intros ([v b] & -> & [Hb Hin]%list_elem_of_filter)%list_elem_of_fmap.
    cbn in *. by subst b. }
  split; [done|]. intros r Hr <-. apply Hget.
  eapply elem_of_sublist; [|apply (b_results _ _ (basic_run env cfg fuel))].
  by apply list_elem_of_fmap_2.
Qed.

Lemma disallowed_never_requested_witness :
  let u := lit "https://example.com/a" in
  let parsed :=
    mkParseResult (lit "https") (lit "example.com") (lit "/a") [] [] [] in
  respect_robots (budget_cfg true) = true ∧
  urlparse u = Some parsed ∧
  u ∉ gets (trace (crawl_run budget_web (budget_cfg true) 5)).
Proof.
  intros u parsed.
  assert (H1 : respect_robots (budget_cfg true) = true)
    by (vm_compute; reflexivity).
  assert (H2 : urlparse u = Some parsed) by (vm_compute; reflexivity).
  assert (H3 : ∀ sch, ∃ rp,
            robots_read budget_web
              (sch ++ lit "://" ++ netloc parsed ++ lit "/robots.txt")
              = Some rp ∧
            can_fetch rp user_agent u = false).
  { intros sch. eexists. split; [reflexivity|]. vm_compute. reflexivity. }
  split; [exact H1|]. split; [exact H2|].
  exact (proj1 (disallowed_never_requested budget_web (budget_cfg true) 5 u
                  parsed H1 H2 H3)).
Defined.

(** X13: when reading robots.txt always raises, the gate fails open:
    every URL handed to the fetcher is requested, and nothing is cached. *)
Theorem unreadable_robots_allow_all env cfg fuel :
  (∀ r, robots_read env r = None) ->
  let l := crawl_run env cfg fuel in
  gets (trace l) = (fetch_calls (trace l)).*1 ∧
  robots_cache (self_ l) = ∅ ∧
  ∀ u b, (u, b) ∈ gates (trace l) -> b = true.
Proof.
  intros H l. destruct (unreadable_inv env cfg fuel H) as (H1 & H2 & H3).
  fold l in H1, H2, H3. split; [done|]. split; [done|].
  intros u b Hin. rewrite Forall_forall in H3. apply (H3 _ Hin).
Qed.

Lemma unreadable_robots_allow_all_witness :
  (∀ r, robots_read diamond r = None) ∧
  gets (trace (crawl_run diamond polite_cfg 5))
  = (fetch_calls (trace (crawl_run diamond polite_cfg 5))).*1.
Proof.
  assert (H : ∀ r, robots_read diamond r = None) by (intros r; reflexivity).
  split; [exact H|].
  exact (proj1 (unreadable_robots_allow_all diamond polite_cfg 5 H)).
Defined.



(** X15: when the page budget stops the crawl while the queue still holds
    entries, the crawler has slept once more after its last request. *)
Theorem budget_stop_ends_with_sleep env cfg fuel :
  let l := crawl_run env cfg fuel in
  (0 < max_pages cfg)%Z ->
  (max_pages cfg <= pages_crawled l)%Z ->
  crawl_queue l ≠ [] ->
  loop_cond cfg l = false ∧ last (trace l) = Some (EvSleep (delay cfg)).
Proof.
  intros l H1 H2 H3. destruct (last_event_inv env cfg fuel) as [_ H].
  split; [|by apply H].
  unfold loop_cond. apply andb_false_iff. right. fold l. lia.
Qed.

Lemma budget_stop_ends_with_sleep_witness :
  let l := crawl_run diamond one_page_cfg 5 in
  (0 < max_pages one_page_cfg)%Z ∧
  (max_pages one_page_cfg <= pages_crawled l)%Z ∧
  crawl_queue l ≠ [] ∧
  last (trace l) = Some (EvSleep (delay one_page_cfg)).
Proof.
  intros l.
  assert (H1 : (0 < max_pages one_page_cfg)%Z) by (vm_compute; reflexivity).
  assert (H2 : (max_pages one_page_cfg <= pages_crawled l)%Z)
    by (vm_compute; discriminate).
  assert (H3 : crawl_queue l ≠ []) by (vm_compute; discriminate).
  do 3 (split; [assumption|]).
  exact (proj2 (budget_stop_ends_with_sleep diamond one_page_cfg 5 H1 H2 H3)).
Defined.

(** X16: every link [_extract_links] returns is the normalized absolute
    form of a non-empty href of the page, and passed the scope filter. *)
Theorem extract_links_sound env cfg hrefs base u :
  u ∈ _extract_links env cfg hrefs base ->
  ∃ href a, href ∈ hrefs ∧ href ≠ [] ∧ urljoin env base href = Some a ∧
            _normalize_url a = Some u ∧ _is_valid_url cfg u = true.
Proof.
  intros [H | H]%extract_loop_sound; [|done].
  by apply not_elem_of_empty in H.
Qed.

Lemma extract_links_sound_witness :
  let u := lit "https://example.com/a" in
  u ∈ _extract_links diamond diamond_cfg [lit "https://Example.com/a#top"]
        (lit "https://example.com") ∧
  ∃ href a, href ∈ [lit "https://Example.com/a#top"] ∧ href ≠ [] ∧
            urljoin diamond (lit "https://example.com") href = Some a ∧
            _normalize_url a = Some u ∧ _is_valid_url diamond_cfg u = true.
Proof.
  intros u.
  assert (H : u ∈ _extract_links diamond diamond_cfg
                    [lit "https://Example.com/a#top"]
                    (lit "https://example.com")).
  { apply (bool_decide_unpack _). vm_compute. exact I. }
  split; [exact H|].
  exact (extract_links_sound diamond diamond_cfg _ _ u H).
Defined.

(** X17: a page yields at most as many links as it has anchors with an
    href. *)
Theorem extract_links_bounded env cfg hrefs base :
  size (_extract_links env cfg hrefs base) <= length hrefs.
Proof.
  pose proof (extract_loop_size env cfg base hrefs ∅) as H.
  rewrite size_empty in H. exact H.
Qed.

(** X18: when neither [urljoin] nor the normalizer raises on an href of the
    page, the links returned are exactly the normalized absolute forms of
    the non-empty hrefs that pass the scope filter. *)
Theorem extract_links_complete env cfg hrefs base u :
  (∀ href, href ∈ hrefs -> href ≠ [] ->
     ∃ a n, urljoin env base href = Some a ∧ _normalize_url a = Some n) ->
  u ∈ _extract_links env cfg hrefs base <->
  ∃ href a, href ∈ hrefs ∧ href ≠ [] ∧ urljoin env base href = Some a ∧
            _normalize_url a = Some u ∧ _is_valid_url cfg u = true.
Proof.
  intros Hall. split.
  - intros [H | H]%extract_loop_sound; [|done].
    by apply not_elem_of_empty in H.
  - intros (href & a & Hin & Hne & Hj & Hn & Hv).
    by eapply extract_loop_complete.
Qed.

Lemma extract_links_complete_witness :
  let hrefs := [lit "https://example.com/a"; lit "https://example.com/b"] in
  (∀ href, href ∈ hrefs -> href ≠ [] ->
     ∃ a n, urljoin diamond (lit "https://example.com") href = Some a ∧
            _normalize_url a = Some n) ∧
  lit "https://example.com/b"
    ∈ _extract_links diamond diamond_cfg hrefs (lit "https://example.com").
Proof.
  intros hrefs.
  assert (H : ∀ href, href ∈ hrefs -> href ≠ [] ->
     ∃ a n, urljoin diamond (lit "https://example.com") href = Some a ∧
            _normalize_url a = Some n).
  { intros href Hin _. exists href. cbn.
    apply elem_of_cons in Hin as [-> | Hin];
      [eexists; split; [reflexivity | vm_compute; reflexivity]|].
    apply list_elem_of_singleton in Hin as ->.
    eexists; split; [reflexivity | vm_compute; reflexivity]. }
  split; [exact H|].
  apply (proj2 (extract_links_complete diamond diamond_cfg hrefs
                  (lit "https://example.com") (lit "https://example.com/b") H)).
  exists (lit "https://example.com/b"), (lit "https://example.com/b").
  split; [right; left|]. split; [discriminate|].
  split; [reflexivity|]. split; vm_compute; reflexivity.
Defined.

(** X19: an href on which [urljoin] or the normalizer raises ends the
    extraction: the links gathered before it are returned, the hrefs after
    it are never looked at. *)
Theorem extract_links_stops_at_exception env cfg before bad after base :
  bad ≠ [] ->
  (urljoin env base bad = None ∨
   ∃ a, urljoin env base bad = Some a ∧ _normalize_url a = None) ->
  _extract_links env cfg (before ++ bad :: after) base
  = _extract_links env cfg before base.
Proof. intros Hne Hbad. by apply extract_loop_stops. Qed.

Lemma extract_links_stops_at_exception_witness :
  let base := lit "https://example.com" in
  let bad := lit "https://[example.com/x" in
  bad ≠ [] ∧
  (urljoin diamond base bad = None ∨
   ∃ a, urljoin diamond base bad = Some a ∧ _normalize_url a = None) ∧
  _extract_links diamond diamond_cfg
    ([lit "https://example.com/a"] ++ bad :: [lit "https://example.com/b"])
    base
  = _extract_links diamond diamond_cfg [lit "https://example.com/a"] base.
Proof.
  intros base bad.
  assert (H1 : bad ≠ []) by discriminate.
  assert (H2 : urljoin diamond base bad = None ∨
               ∃ a, urljoin diamond base bad = Some a ∧
                    _normalize_url a = None).
  { right. exists bad. split; [reflexivity | vm_compute; reflexivity]. }
  split; [exact H1|]. split; [exact H2|].
  exact (extract_links_stops_at_exception diamond diamond_cfg
           [lit "https://example.com/a"] bad [lit "https://example.com/b"]
           base H1 H2).
Defined.

(** X20: for ASCII text, the count [_search_content] reports for a term is
    zero exactly when the term does not occur in the lower-cased text; the
    occurrences counted fit into the text; the empty term is counted once
    more than the text has characters. *)
Theorem search_counts_bounds cfg text w n :
  is_ascii text = true ->
  _search_content cfg text !! w = Some n ->
  w ∈ search_words cfg ∧
  n * length w <= length text ∧
  (w ≠ [] -> (n = 0 <-> contains w (lower text) = false)) ∧
  (w = [] -> n = S (length text)).
Proof.
  intros _. rewrite search_content_lookup.
  destruct (decide (w ∈ search_words cfg)) as [Hin|Hnin].
  2: { by rewrite (bool_decide_eq_false_2 _ Hnin). }
  rewrite (bool_decide_eq_true_2 _ Hin). intros [= <-].
  split; [done|]. split; [|split].
  - rewrite <- (lower_length text). apply count_bound.
  - intros Hw. by apply count_zero.
  - intros ->. cbn. by rewrite lower_length.
Qed.

Lemma search_counts_bounds_witness :
  is_ascii (lit "Cat cat CATs") = true ∧
  _search_content offsite_cfg (lit "Cat cat CATs") !! lit "cat" = Some 3 ∧
  3 * length (lit "cat") <= length (lit "Cat cat CATs").
Proof.
  assert (Ht : is_ascii (lit "Cat cat CATs") = true) by reflexivity.
  assert (H : _search_content offsite_cfg (lit "Cat cat CATs") !! lit "cat"
              = Some 3) by (vm_compute; reflexivity).
  split; [exact Ht|]. split; [exact H|].
  exact (proj1 (proj2 (search_counts_bounds offsite_cfg _ _ _ Ht H))).
Defined.

(** X21: the round trip of the normalizer.  When the URL, read behind its
    scheme prefix, has a network location, the normalized URL parses into
    the parts of the input, with the host in lower case and without
    fragment; and normalizing it once more changes nothing. *)
Theorem normalize_round_trip u parsed :
  urlparse (if has_scheme_prefix u then u else lit "https://" ++ u)
    = Some parsed ->
  netloc parsed ≠ [] ->
  ∃ v, _normalize_url u = Some v ∧
       urlparse v = Some (mkParseResult (scheme parsed)
                            (lower (netloc parsed)) (path parsed)
                            (params parsed) (query parsed) []) ∧
       _normalize_url v = Some v.
Proof.
  intros Hp Hn.
  destruct (normalize_reparse u parsed Hp Hn) as (v & H1 & H2 & _ & H3).
  by exists v.
Qed.

Lemma normalize_round_trip_witness :
  let u := lit "Example.COM/a;p?q=1#top" in
  let v := lit "https://example.com/a;p?q=1" in
  _normalize_url u = Some v ∧ _normalize_url v = Some v.
Proof.
  intros u v.
  assert (Hp : urlparse (if has_scheme_prefix u then u
                         else lit "https://" ++ u)
               = Some (mkParseResult (lit "https") (lit "Example.COM")
                         (lit "/a") (lit "p") (lit "q=1") (lit "top")))
    by (vm_compute; reflexivity).
  assert (Hn : netloc (mkParseResult (lit "https") (lit "Example.COM")
                         (lit "/a") (lit "p") (lit "q=1") (lit "top")) ≠ [])
    by discriminate.
  destruct (normalize_round_trip u _ Hp Hn) as (w & H1 & _ & H3).
  assert (Hw : w = v).
  { assert (H : _normalize_url u = Some v) by (vm_compute; reflexivity).
    rewrite H in H1. by injection H1. }
  rewrite Hw in H1, H3. split; [exact H1 | exact H3].
Defined.

(** Without a network location the second pass can differ from the first:
    the host-like text that the first pass leaves in the path is taken for
    the host by the second, and lower-cased. *)
Example normalize_twice_differs :
  _normalize_url (lit "https:////Example.com/y")
  = Some (lit "https://Example.com/y") ∧
  _normalize_url (lit "https://Example.com/y")
  = Some (lit "https://example.com/y").
Proof. split; vm_compute; reflexivity. Qed.

(** X22: whatever the input, a normalized URL begins with "http://" or
    "https://", holds no '#', and holds no tab, line feed or carriage
    return. *)
Theorem normalized_url_shape u v :
  _normalize_url u = Some v ->
  has_scheme_prefix v = true ∧
  has_char "#" v = false ∧
  free_of is_unsafe v = true.
Proof.
  intros Hv. split; [by eapply normalize_has_prefix|]. split.
  - apply has_char_free. by eapply normalize_no_fragment.
  - by eapply normalize_no_unsafe.
Qed.

Lemma normalized_url_shape_witness :
  _normalize_url (lit "example.com/a#b#c") = Some (lit "https://example.com/a")
  ∧ has_char "#" (lit "https://example.com/a") = false.
Proof.
  assert (H : _normalize_url (lit "example.com/a#b#c")
              = Some (lit "https://example.com/a"))
    by (vm_compute; reflexivity).
  split; [exact H|].
  exact (proj1 (proj2 (normalized_url_shape _ _ H))).
Defined.

(** X23: the scope filter on a normalized link.  For a link with a network
    location, the filter lets the normalized URL through exactly when the
    lower-cased host is one of the allowed domains, as they were given,
    and the lower-cased path does not end in an excluded extension;
    params, query and fragment play no part. *)
Theorem normalized_link_scope cfg a parsed :
  urlparse (if has_scheme_prefix a then a else lit "https://" ++ a)
    = Some parsed ->
  netloc parsed ≠ [] ->
  ∃ v, _normalize_url a = Some v ∧
       _is_valid_url cfg v =
       bool_decide (lower (netloc parsed) ∈ allowed_domains cfg) &&
       negb (existsb (fun ext => endswith ext (lower (path parsed)))
               skip_extensions).
Proof.
  intros Hp Hn.
  destruct (normalize_reparse a parsed Hp Hn) as (v & H1 & H2 & _).
  exists v. split; [done|].
  rewrite (is_valid_url_parsed cfg v _ H2). cbn [scheme netloc path].
  by rewrite (scheme_allowed _ (prefixed_scheme a parsed Hp)).
Qed.

Lemma normalized_link_scope_witness :
  let a := lit "https://Example.com/Report.PDF?page=2" in
  ∃ v, _normalize_url a = Some v ∧ _is_valid_url diamond_cfg v = false.
Proof.
  intros a.
  assert (Hp : urlparse (if has_scheme_prefix a then a
                         else lit "https://" ++ a)
               = Some (mkParseResult (lit "https") (lit "Example.com")
                         (lit "/Report.PDF") [] (lit "page=2") []))
    by (vm_compute; reflexivity).
  assert (Hn : netloc (mkParseResult (lit "https") (lit "Example.com")
                         (lit "/Report.PDF") [] (lit "page=2") []) ≠ [])
    by discriminate.
  destruct (normalized_link_scope diamond_cfg a _ Hp Hn) as (v & H1 & H2).
  exists v. split; [exact H1|]. rewrite H2. vm_compute. reflexivity.
Defined.

(** X24: with the default allowed domain the seed can miss the scope
    filter only through its extension: the allowed domain is the host of
    the normalized seed, and the filter lets the seed through exactly when
    its lower-cased path does not end in an excluded extension. *)
Theorem default_domain_admits_seed seed md dl mp rr words cfg :
  __init__ seed md dl mp rr None words = Some cfg ->
  ∃ parsed,
    urlparse (start_url cfg) = Some parsed ∧
    start_domain cfg = netloc parsed ∧
    allowed_domains cfg = {[ start_domain cfg ]} ∧
    _is_valid_url cfg (start_url cfg) =
    negb (existsb (fun ext => endswith ext (lower (path parsed)))
            skip_extensions).
Proof.
  intros (Hn & (parsed & Hp & Hd) & _ & _ & _ & _ & _ & Ha)%init_fields.
  exists parsed. do 3 (split; [done|]).
  rewrite (is_valid_url_parsed cfg _ _ Hp).
  rewrite (scheme_allowed _ (normalized_scheme _ _ _ Hn Hp)).
  rewrite Ha, <- Hd.
  assert (H : start_domain cfg ∈ ({[ start_domain cfg ]} : gset str))
    by (by apply elem_of_singleton).
  by rewrite (bool_decide_eq_true_2 _ H).
Qed.

Lemma default_domain_admits_seed_witness :
  __init__ (lit "example.com") 2 0 10 false None None = Some diamond_cfg ∧
  ∃ parsed, urlparse (start_url diamond_cfg) = Some parsed ∧
            start_domain diamond_cfg = netloc parsed.
Proof.
  assert (H : __init__ (lit "example.com") 2 0 10 false None None
              = Some diamond_cfg) by (vm_compute; reflexivity).
  split; [exact H|].
  destruct (default_domain_admits_seed _ _ _ _ _ _ _ H)
    as (parsed & H1 & H2 & _).
  exists parsed. split; [exact H1 | exact H2].
Defined.

(** X25: [validate_url] accepts exactly the non-empty strings whose network
    location, read behind the scheme prefix the crawler would put, is not
    empty; its test of the scheme never fails. *)
Theorem validate_url_accepts u :
  validate_url u = true <->
  u ≠ [] ∧
  ∃ parsed,
    urlparse (if has_scheme_prefix u then u else lit "https://" ++ u)
      = Some parsed ∧
    netloc parsed ≠ [].
Proof. apply validate_url_spec. Qed.

(** X26: a URL that [validate_url] accepts never makes the constructor
    raise: [main] builds a crawler whose start URL is a fixed point of the
    normalizer and whose start domain is not empty and in lower case; the
    limits and the robots switch are those of the command line, and the
    search terms are the trimmed, lower-cased items of the option. *)
Theorem main_builds_crawler args :
  validate_url (arg_url args) = true ->
  ∃ cfg,
    main_crawler args = Some cfg ∧
    _normalize_url (arg_url args) = Some (start_url cfg) ∧
    _normalize_url (start_url cfg) = Some (start_url cfg) ∧
    start_domain cfg ≠ [] ∧
    lower (start_domain cfg) = start_domain cfg ∧
    max_depth cfg = arg_depth args ∧
    max_pages cfg = arg_max_pages args ∧
    respect_robots cfg = negb (arg_no_robots args) ∧
    search_words cfg =
      match optional_list (arg_search args) with
      | Some ws => map lower ws
      | None => []
      end.
Proof.
  intros Hv. unfold main_crawler. rewrite Hv. cbn [negb].
  apply validate_url_spec in Hv as (_ & parsed & Hp & Hn).
  destruct (init_of_parsed (arg_url args) parsed (arg_depth args)
              (arg_delay args) (arg_max_pages args)
              (negb (arg_no_robots args))
              (optional_list (arg_domains args))
              (optional_list (arg_search args)) Hp Hn)
    as (v & H1 & H2 & ->).
  eexists. split; [reflexivity|]. cbn.
  do 2 (split; [done|]). split; [by destruct (netloc parsed)|].
  split; [apply lower_idem | done].
Qed.

Lemma main_builds_crawler_witness :
  validate_url (arg_url sample_args) = true ∧
  ∃ cfg, main_crawler sample_args = Some cfg ∧
         search_words cfg = [lit "cat"; lit "dog"].
Proof.
  assert (H : validate_url (arg_url sample_args) = true)
    by (vm_compute; reflexivity).
  split; [exact H|].
  destruct (main_builds_crawler sample_args H)
    as (cfg & H1 & _ & _ & _ & _ & _ & _ & _ & H2).
  exists cfg. split; [exact H1|]. rewrite H2. vm_compute. reflexivity.
Defined.

(** X27: a comma-separated option always yields at least one item, one
    more than it has commas; no item holds a comma, and no item begins or
    ends with white space. *)
Theorem comma_list_shape s :
  comma_list s ≠ [] ∧
  length (comma_list s) = S (length (List.filter (eqc ",") s)) ∧
  ∀ w, w ∈ comma_list s ->
       free_of (eqc ",") w = true ∧ trimmed_ends w ∧ strip w = w.
Proof.
  split; [apply comma_list_nonempty|]. split; [apply comma_list_length|].
  intros w [Hf Ht]%comma_list_items. do 2 (split; [done|]).
  by apply strip_id.
Qed.

(** X28: items without commas and without white space at their ends read
    back as they were written, joined by "," or by ", ". *)
Theorem comma_list_round_trip ws :
  ws ≠ [] ->
  Forall (fun w => free_of (eqc ",") w = true ∧ trimmed_ends w) ws ->
  comma_list (join (lit ",") ws) = ws ∧
  comma_list (join (lit ", ") ws) = ws.
Proof. apply comma_list_join. Qed.

Lemma comma_list_round_trip_witness :
  comma_list (lit "example.com, blog.example.com")
  = [lit "example.com"; lit "blog.example.com"].
Proof.
  assert (H1 : [lit "example.com"; lit "blog.example.com"] ≠ [])
    by discriminate.
  assert (H2 : Forall (fun w => free_of (eqc ",") w = true ∧ trimmed_ends w)
                 [lit "example.com"; lit "blog.example.com"]).
  { repeat constructor. }
  exact (proj2 (comma_list_round_trip _ H1 H2)).
Defined.

(** X29: the summary of a completed job: the number of pages is the number
    of processed results, it does not exceed the number of URLs discovered
    nor the page budget of the request (when that is not negative), and
    the processed results keep the URLs of the crawl in their order, each
    once. *)
Theorem job_summary env fuel job rs n d :
  run_crawler env fuel job = Some (JobCompleted rs n d) ->
  n = length rs ∧ n <= d ∧
  (Z.of_nat n <= Z.max 0 (job_max_pages job))%Z ∧
  NoDup (res_url <$> rs) ∧
  ∀ r, r ∈ rs ->
       (is_Some (res_links_found r) <->
        wants_links (job_search_type job) = true) ∧
       (is_Some (res_word_matches r) <->
        is_Some (res_total_word_matches r)).
Proof.
  intros [[? _] | (cfg & Hi & Hc & Ho)]%run_crawler_inv; [done|].
  injection Ho as -> -> ->.
  set (l := crawl_run env cfg fuel) in *.
  pose proof (basic_run env cfg fuel) as HB. fold l in HB.
  destruct (init_fields _ _ _ _ _ _ _ _ Hi) as (_ & _ & _ & Hmp & _).
  split; [by rewrite length_map|]. split; [apply results_le_visited|].
  split.
  { pose proof (b_pages _ _ HB). pose proof (b_budget _ _ HB). lia. }
  split.
  { replace (res_url <$> map (process_page (job_search_type job)) (results l))
      with (url <$> results l)
      by (rewrite <- list_fmap_compose; done).
    eapply sublist_NoDup; [apply (b_calls _ _ HB)|].
    etrans; [apply (b_results _ _ HB) | apply (b_gets _ _ HB)]. }
  intros r (page & -> & _)%list_elem_of_fmap. unfold process_page. cbn.
  split.
  - destruct (wants_links (job_search_type job)); split;
      first [done | by eexists | by intros [? ?]].
  - destruct (wants_text (job_search_type job) && _); split;
      first [done | by eexists | by intros [? ?]].
Qed.

Lemma job_summary_witness :
  ∃ rs n d,
    run_crawler offsite_web 5 sample_job = Some (JobCompleted rs n d) ∧
    n = length rs ∧ n <= d.
Proof.
  destruct (run_crawler offsite_web 5 sample_job) as [[|rs n d]|] eqn:H;
    [vm_compute in H; discriminate | | vm_compute in H; discriminate].
  exists rs, n, d. split; [reflexivity|].
  destruct (job_summary offsite_web 5 sample_job rs n d H) as (H3 & H4 & _).
  split; [exact H3 | exact H4].
Defined.

(** X30: word matches in the results of a job started by [start_crawl].
    Unless the search type is "text" or "both" and search words were
    given, no processed page carries word matches.  Otherwise every
    processed page carries them: the keys are the trimmed, lower-cased
    items of the request, the total is the sum of the counts, and no count
    exceeds it. *)
Theorem job_word_matches env fuel rq job rs n d :
  start_crawl rq = Some job ->
  run_crawler env fuel job = Some (JobCompleted rs n d) ->
  let asked := nonempty (strip (rq_searchWords rq))
               && wants_text (rq_searchType rq) in
  ∀ r, r ∈ rs ->
    if asked then
      ∃ m, res_word_matches r = Some m ∧
           dom m = list_to_set
                     (lower <$> comma_list (strip (rq_searchWords rq))) ∧
           res_total_word_matches r = Some (sum_values m) ∧
           ∀ w k, m !! w = Some k -> k <= sum_values m
    else res_word_matches r = None ∧ res_total_word_matches r = None.
Proof.
  unfold start_crawl. destruct (nonempty (strip (rq_url rq))); [|done].
  cbn [negb]. intros [= <-].
  intros [[? _] | (cfg & Hi & Hc & Ho)]%run_crawler_inv; [done|].
  cbn [job_url job_depth job_delay job_max_pages job_respect_robots
       job_allowed_domains job_search_words job_search_type] in *.
  injection Ho as -> _ _. intros r (page & -> & Hpage)%list_elem_of_fmap.
  set (asked := nonempty (strip (rq_searchWords rq))
                && wants_text (rq_searchType rq)) in *.
  destruct (init_fields _ _ _ _ _ _ _ _ Hi) as (_ & _ & _ & _ & _ & _ & Hw & _).
  pose proof (b_words _ _ (basic_run env cfg fuel) page Hpage) as Hdom.
  rewrite Hw in Hdom.
  unfold process_page. cbn [res_word_matches res_total_word_matches].
  destruct asked eqn:Hasked.
  - apply andb_true_iff in Hasked as [_ Ht]. rewrite Ht. cbn [andb].
    assert (Hne : word_matches page ≠ ∅).
    { intros He. rewrite He, dom_empty_L in Hdom.
      pose proof (comma_list_nonempty (strip (rq_searchWords rq))) as Hc'.
      destruct (comma_list (strip (rq_searchWords rq))) as [|x xs]; [done|].
      cbn in Hdom. set_solver. }
    rewrite (bool_decide_eq_false_2 _ Hne). cbn [negb].
    exists (word_matches page). split; [done|]. split; [done|].
    split; [done|]. intros w k. apply sum_values_le.
  - assert (word_matches page = ∅) as ->.
    { apply dom_empty_iff_L. by rewrite Hdom. }
    assert (He : (∅ : gmap str nat) = ∅) by done.
    rewrite (bool_decide_eq_true_2 _ He). cbn [negb].
    by rewrite andb_false_r.
Qed.

Lemma job_word_matches_witness :
  ∃ rs n d,
    start_crawl sample_request = Some sample_job ∧
    run_crawler offsite_web 5 sample_job = Some (JobCompleted rs n d) ∧
    ∀ r, r ∈ rs ->
      ∃ m, res_word_matches r = Some m ∧
           res_total_word_matches r = Some (sum_values m).
Proof.
  assert (H1 : start_crawl sample_request = Some sample_job)
    by (vm_compute; reflexivity).
  destruct (run_crawler offsite_web 5 sample_job) as [[|rs n d]|] eqn:H2;
    [vm_compute in H2; discriminate | | vm_compute in H2; discriminate].
  exists rs, n, d. split; [exact H1|]. split; [reflexivity|].
  intros r Hr.
  pose proof (job_word_matches offsite_web 5 sample_request sample_job
                rs n d H1 H2 r Hr) as H.
  assert (Ha : nonempty (strip (rq_searchWords sample_request))
               && wants_text (rq_searchType sample_request) = true)
    by (vm_compute; reflexivity).
  cbv zeta in H. rewrite Ha in H.
  destruct H as (m & Hm1 & _ & Hm2 & _). exists m.
  split; [exact Hm1 | exact Hm2].
Defined.

End Further.
